(** * Classificador de dados sensiveis: a shallow embedding of [main.py]

    The detection pipeline of [main.py] (normalisation, regex extraction,
    per-type validation, name cleaning and validation, conflict resolution,
    classification) and the loop that reports on each text are transcribed
    function by function.

    Modelling conventions.
    - A Python [str] is a [list ascii]; a character is read as the code
      point of the same number, so the development covers texts over
      U+0000..U+00FF (Latin-1), which contains every character of the
      program's own vocabularies.  The character tables below ([isspace],
      [isdigit], [isupper], [lower], and the regex classes [\d], [\w], [\s])
      are Python 3's tables restricted to that range.
    - A [dict] is a [gmap], a [set] is a [gset]; iterating a set goes through
      [elements], and no statement below depends on the iteration order.
    - [pii[k]] on a missing key raises [KeyError]: such functions return an
      [option], [None] standing for the exception.
    - The spaCy recogniser is external: it is a parameter [ner] giving, for a
      text, the entity spans as pairs (text, label).
    - The regular expressions are run by a backtracking matcher ([run],
      [scan]) that tries the alternatives in the order of Python's [re]; the
      worked examples at the end record what it returns on sample texts. *)

From Stdlib Require Import Ascii String List ZArith Lia.
From stdpp Require Import base gmap sets list strings.

#[local] Set Warnings "-clear-no-such-hyp".
Local Open Scope list_scope.

(** ** Characters *)

Abbreviation str := (list ascii) (only parsing).

Definition lit (s : string) : str := list_ascii_of_string s.
Definition chr (n : nat) : ascii := ascii_of_nat n.
Definition ord (c : ascii) : nat := nat_of_ascii c.

Definition in_range (lo hi : nat) (c : ascii) : bool :=
  Nat.leb lo (ord c) && Nat.leb (ord c) hi.

(** [\d] of a [str] pattern: the decimal digits. *)
Definition re_digit (c : ascii) : bool := in_range 48 57 c.

(** [str.isdigit] on one character: the decimal digits and the superscripts
    U+00B2, U+00B3, U+00B9. *)
Definition isdigit (c : ascii) : bool :=
  in_range 48 57 c || in_range 178 179 c || Nat.eqb (ord c) 185.

(** [str.isspace] on one character, which is also [\s] and what [split] and
    [strip] treat as white space. *)
Definition isspace (c : ascii) : bool :=
  in_range 9 13 c || in_range 28 32 c || Nat.eqb (ord c) 133
  || Nat.eqb (ord c) 160.

(** [str.isupper] on one character. *)
Definition isupper (c : ascii) : bool :=
  in_range 65 90 c || in_range 192 214 c || in_range 216 222 c.

(** [\w]: alphanumeric characters and the underscore. *)
Definition re_word (c : ascii) : bool :=
  in_range 48 57 c || in_range 65 90 c || Nat.eqb (ord c) 95
  || in_range 97 122 c || Nat.eqb (ord c) 170 || in_range 178 179 c
  || Nat.eqb (ord c) 181 || in_range 185 186 c || in_range 188 190 c
  || in_range 192 214 c || in_range 216 246 c || in_range 248 255 c.

Definition lower_char (c : ascii) : ascii :=
  if isupper c then chr (ord c + 32) else c.

(** ** Strings *)

(** [s.lower()] *)
Definition lower (s : str) : str := map lower_char s.

(** [s.lstrip(chars)], [s.rstrip(chars)], [s.strip(chars)], the characters
    to remove given as a predicate. *)
Fixpoint lstrip_chars (p : ascii -> bool) (s : str) : str :=
  match s with
  | c :: s' => if p c then lstrip_chars p s' else s
  | [] => []
  end.

Definition rstrip_chars (p : ascii -> bool) (s : str) : str :=
  rev (lstrip_chars p (rev s)).

Definition strip_chars (p : ascii -> bool) (s : str) : str :=
  rstrip_chars p (lstrip_chars p s).

(** [s.strip()] *)
Definition strip (s : str) : str := strip_chars isspace s.

(** [s.replace(a, b)] for one-character [a] and [b]. *)
Definition replace_char (a b : ascii) (s : str) : str :=
  map (fun c => if decide (c = a) then b else c) s.

(** [s.split()]: the maximal runs of characters that are not white space.
    [cur] is the token being read. *)
Fixpoint split_from (cur : str) (s : str) : list str :=
  match s with
  | [] => match cur with [] => [] | _ => [cur] end
  | c :: s' =>
      if isspace c
      then match cur with
           | [] => split_from [] s'
           | _ => cur :: split_from [] s'
           end
      else split_from (cur ++ [c]) s'
  end.

Definition split (s : str) : list str := split_from [] s.

(** [sep.join(l)] *)
Fixpoint join (sep : str) (l : list str) : str :=
  match l with
  | [] => []
  | [x] => x
  | x :: l' => x ++ sep ++ join sep l'
  end.

(** [s.startswith(p)] *)
Fixpoint startswith (s p : str) : bool :=
  match p, s with
  | [], _ => true
  | a :: p', b :: s' => if decide (a = b) then startswith s' p' else false
  | _ :: _, [] => false
  end.

(** [p in s] for strings: [p] occurs in [s] as a contiguous substring. *)
Fixpoint contains (p s : str) : bool :=
  startswith s p
  || match s with
     | [] => false
     | _ :: s' => contains p s'
     end.

(** [s[a:b]] for non-negative [a] and [b]. *)
Definition slice (a b : nat) (s : str) : str := take (b - a) (drop a s).

(** ** Vocabularies *)

Definition PALAVRAS_PROIBIDAS : gset str :=
  list_to_set
    [ lit "associa" ++ [chr 231; chr 227] ++ lit "o"; lit "associados";
      lit "advogados";
      lit "sociedade"; lit "servidores"; lit "setor";
      lit "recursos"; lit "coletiva";
      lit "magist" ++ [chr 233] ++ lit "rio";
      lit "telef" ++ [chr 244] ++ lit "nicas"; lit "amostra"; lit "total";
      lit "temperatura"; lit "f" ++ [chr 243] ++ lit "sforo";
      lit "nitrog" ++ [chr 234] ++ lit "nio";
      lit "oxig" ++ [chr 234] ++ lit "nio"; lit "validador";
      lit "s" ++ [chr 243] ++ lit "lidos";
      lit "totais"; lit "gostaria"; lit "gostar"; lit "venho" ].

Definition PREPOSICOES_NOME : gset str :=
  list_to_set [lit "da"; lit "de"; lit "do"; lit "das"; lit "dos"; lit "e"].

Definition TITULOS : gset str :=
  list_to_set
    [ lit "dr"; lit "dr."; lit "dra"; lit "dra.";
      lit "sr"; lit "sr."; lit "sra"; lit "sra.";
      lit "prof"; lit "prof."; lit "prof" ++ [chr 170];
      lit "prof" ++ [chr 170] ++ lit ".";
      lit "doutor"; lit "doutora"; lit "doutor" ++ [chr 170];
      lit "doutor" ++ [chr 170] ++ lit "."; lit "doutor."; lit "doutora." ].

Definition SUFIXOS_LIXO : gset str :=
  list_to_set [lit "cpf"; lit "cnh"; lit "rg"; lit "nome"].

Definition TRATAMENTOS_FORMAIS : gset str :=
  list_to_set
    [ lit "vossa senhoria";
      lit "vossa excel" ++ [chr 234] ++ lit "ncia";
      lit "vossa magnific" ++ [chr 234] ++ lit "ncia";
      lit "vossa alteza";
      lit "vossa santidade";
      lit "v. s."; lit "v.s.";
      lit "v. exa."; lit "v.exa.";
      lit "v. ex" ++ [chr 170]; lit "v.ex" ++ [chr 170];
      lit "ilustr" ++ [chr 237] ++ lit "ssimo senhor";
      lit "ilustr" ++ [chr 237] ++ lit "ssima senhora";
      lit "excelent" ++ [chr 237] ++ lit "ssimo senhor";
      lit "excelent" ++ [chr 237] ++ lit "ssima senhora";
      lit "dign" ++ [chr 237] ++ lit "ssimo senhor";
      lit "dign" ++ [chr 237] ++ lit "ssima senhora";
      lit "merit" ++ [chr 237] ++ lit "ssimo juiz";
      lit "merit" ++ [chr 237] ++ lit "ssima ju" ++ [chr 237] ++ lit "za";
      lit "senhor secret" ++ [chr 225] ++ lit "rio";
      lit "senhora secret" ++ [chr 225] ++ lit "ria";
      lit "senhor ministro"; lit "senhora ministra";
      lit "senhor governador"; lit "senhora governadora";
      lit "senhor prefeito"; lit "senhora prefeita";
      lit "senhor presidente"; lit "senhora presidente";
      lit "senhor juiz";
      lit "senhora ju" ++ [chr 237] ++ lit "za";
      lit "senhor desembargador"; lit "senhora desembargadora";
      lit "senhor promotor"; lit "senhora promotora";
      lit "senhor procurador"; lit "senhora procuradora";
      lit "ilustres senhores"; lit "ilustres senhoras";
      lit "vossas senhorias";
      lit "vossas excel" ++ [chr 234] ++ lit "ncias" ].

(** ** Conflict resolution *)

(** [pii.get(k, [])] *)
Definition pii_get (pii : gmap str (list str)) (k : str) : list str :=
  default [] (pii !! k).

(** The body of the inner loop of [resolver_conflitos]: one value [v] of the
    current field against the values already used. *)
Definition passo (st : list str * gset str) (v : str) : list str * gset str :=
  let '(filtrados, usados) := st in
  if decide (v ∈ usados) then (filtrados, usados)
  else (filtrados ++ [v], usados ∪ {[v]}).

Definition CAMPOS_CONFLITO : list str :=
  [lit "cpf"; lit "rg"; lit "telefone"; lit "endereco"].

(** The body of the outer loop: one field. [pii.get(campo, [])] reads the
    mapping as updated so far. *)
Definition resolver_campo (st : gmap str (list str) * gset str) (campo : str)
  : gmap str (list str) * gset str :=
  let '(pii, usados) := st in
  let '(filtrados, usados') :=
    foldl passo ([], usados) (pii_get pii campo) in
  (<[campo := filtrados]> pii, usados').

Definition resolver_conflitos (pii : gmap str (list str)) : gmap str (list str) :=
  fst (foldl resolver_campo (pii, ∅) CAMPOS_CONFLITO).

(** What the inner loop keeps of [vs]: the first occurrence of each value
    that is not in [usados].  [foldl_passo] below shows that the loop
    computes it. *)
Fixpoint novos (usados : gset str) (vs : list str) : list str :=
  match vs with
  | [] => []
  | v :: vs' =>
      if decide (v ∈ usados) then novos usados vs'
      else v :: novos (usados ∪ {[v]}) vs'
  end.

(** The values the fields before the [i]-th one hold in [pii]. *)
Definition anteriores (pii : gmap str (list str)) (i : nat) : list str :=
  mjoin (pii_get pii <$> take i CAMPOS_CONFLITO).

(** ** Classification *)

Definition PII_FORTE : gset str :=
  list_to_set
    [lit "cpf"; lit "rg"; lit "endereco"; lit "email"; lit "telefone";
     lit "nome"].

Definition NAO_PUBLICO : str :=
  lit "N" ++ [chr 195] ++ lit "O P" ++ [chr 218] ++ lit "BLICO".
Definition PUBLICO : str := lit "P" ++ [chr 218] ++ lit "BLICO".

(** [any(pii[k] for k in ks)]: the generator is consumed lazily, so a
    missing key raises only if no earlier key had a non-empty list. *)
Fixpoint any_campo (pii : gmap str (list str)) (ks : list str) : option bool :=
  match ks with
  | [] => Some false
  | k :: ks' =>
      match pii !! k with
      | None => None
      | Some [] => any_campo pii ks'
      | Some (_ :: _) => Some true
      end
  end.

Definition classificar_pedido (pii : gmap str (list str)) : option str :=
  match any_campo pii (elements PII_FORTE) with
  | None => None
  | Some true => Some NAO_PUBLICO
  | Some false => Some PUBLICO
  end.

(** ** Regular expressions

    The patterns of the program use literals, classes, [\b], concatenation,
    ordered alternation, the greedy [?], greedy counted repetition of a
    one-character atom, and at most one capturing group.  [run] is a
    backtracking matcher in continuation-passing style: it explores the
    alternatives in the order Python's [re] does and returns the first
    complete match. *)

Inductive regex : Type :=
| REps
| RChar (c : ascii)
| RCharI (c : ascii)
| RClass (p : ascii -> bool)
| RBound
| RSeq (r1 r2 : regex)
| RAlt (r1 r2 : regex)
| ROpt (r : regex)
| RRep (p : ascii -> bool) (lo : nat) (hi : option nat)
| RGroup (r : regex).

(** The state of a match attempt: the character before the current
    position, the text from the current position on, the number of
    characters consumed since the start of the attempt, and the span of the
    capturing group (offsets from the start of the attempt). *)
Record mstate : Type := MState {
  m_prev : option ascii;
  m_rest : str;
  m_used : nat;
  m_group : option (nat * nat)
}.

Definition word_at (c : option ascii) : bool :=
  match c with
  | Some a => re_word a
  | None => false
  end.

(** [\b]: exactly one of the two neighbouring characters is a word
    character; the ends of the text count as non-word. *)
Definition at_boundary (prev : option ascii) (rest : str) : bool :=
  xorb (word_at prev) (word_at (head rest)).

Definition hi_allows (hi : option nat) : bool :=
  match hi with
  | Some 0 => false
  | _ => true
  end.

(** Greedy [p{lo,hi}]: take one more character when allowed, and fall back
    to stopping here when the rest of the pattern fails after it. *)
Fixpoint rep_greedy (p : ascii -> bool) (lo : nat) (hi : option nat)
    (k : mstate -> option mstate)
    (prev : option ascii) (rest : str) (used : nat) (grp : option (nat * nat))
    {struct rest} : option mstate :=
  let stop :=
    match lo with
    | 0 => k (MState prev rest used grp)
    | S _ => None
    end in
  match rest with
  | c :: rest' =>
      if p c && hi_allows hi
      then match rep_greedy p (pred lo) (pred <$> hi) k
                   (Some c) rest' (S used) grp with
           | Some r => Some r
           | None => stop
           end
      else stop
  | [] => stop
  end.

(** One character [c] satisfying [ok] is consumed. *)
Definition eat (ok : ascii -> bool) (st : mstate)
    (k : mstate -> option mstate) : option mstate :=
  match m_rest st with
  | c :: rest' =>
      if ok c then k (MState (Some c) rest' (S (m_used st)) (m_group st))
      else None
  | [] => None
  end.

Fixpoint run (r : regex) (st : mstate) (k : mstate -> option mstate)
  : option mstate :=
  match r with
  | REps => k st
  | RChar c => eat (fun a => bool_decide (a = c)) st k
  | RCharI c => eat (fun a => bool_decide (lower_char a = lower_char c)) st k
  | RClass p => eat p st k
  | RBound => if at_boundary (m_prev st) (m_rest st) then k st else None
  | RSeq r1 r2 => run r1 st (fun st' => run r2 st' k)
  | RAlt r1 r2 =>
      match run r1 st k with
      | Some m => Some m
      | None => run r2 st k
      end
  | ROpt r1 =>
      match run r1 st k with
      | Some m => Some m
      | None => k st
      end
  | RRep p lo hi =>
      rep_greedy p lo hi k (m_prev st) (m_rest st) (m_used st) (m_group st)
  | RGroup r1 =>
      run r1 st (fun st' =>
        k (MState (m_prev st') (m_rest st') (m_used st')
             (Some (m_used st, m_used st'))))
  end.

(** [pattern.match] at one position: the length of the match and the span
    of the group. *)
Definition match_here (r : regex) (prev : option ascii) (rest : str)
  : option (nat * option (nat * nat)) :=
  match run r (MState prev rest 0 None) Some with
  | Some st => Some (m_used st, m_group st)
  | None => None
  end.

(** A match object: [m.start()], [m.end()] and the span of group 1. *)
Record rmatch : Type := RMatch {
  m_start : nat;
  m_end : nat;
  m_span1 : option (nat * nat)
}.

(** A group span counted from the start of an attempt, as positions of the
    text. *)
Definition shift_span (pos : nat) (g : option (nat * nat))
  : option (nat * nat) :=
  (fun '(a, b) => (pos + a, pos + b)) <$> g.

(** The left-to-right scan behind [finditer] and [findall]: non-overlapping
    matches, each search resuming where the previous match ended.  [skip]
    counts the characters of the last match still to step over.  Every
    pattern of the program consumes at least one character, so the way [re]
    steps over empty matches is never exercised. *)
Fixpoint scan (r : regex) (prev : option ascii) (pos : nat) (rest : str)
    (skip : nat) {struct rest} : list rmatch :=
  match skip with
  | S skip' =>
      match rest with
      | [] => []
      | c :: rest' => scan r (Some c) (S pos) rest' skip'
      end
  | 0 =>
      match match_here r prev rest with
      | Some (n, g) =>
          RMatch pos (pos + n) (shift_span pos g)
          :: match rest with
             | [] => []
             | c :: rest' => scan r (Some c) (S pos) rest' (pred n)
             end
      | None =>
          match rest with
          | [] => []
          | c :: rest' => scan r (Some c) (S pos) rest' 0
          end
      end
  end.

Definition finditer (r : regex) (text : str) : list rmatch :=
  scan r None 0 text 0.

Fixpoint has_group (r : regex) : bool :=
  match r with
  | RGroup _ => true
  | RSeq r1 r2 | RAlt r1 r2 => has_group r1 || has_group r2
  | ROpt r1 => has_group r1
  | _ => false
  end.

(** [pattern.findall(text)]: the whole match when the pattern has no
    capturing group, the text of the group when it has one. *)
Definition findall (r : regex) (text : str) : list str :=
  map (fun m =>
         if has_group r
         then match m_span1 m with
              | Some (a, b) => slice a b text
              | None => []
              end
         else slice (m_start m) (m_end m) text)
      (finditer r text).

(** *** The compiled patterns *)

Definition cat (rs : list regex) : regex := foldr RSeq REps rs.

Fixpoint alt (rs : list regex) : regex :=
  match rs with
  | [] => RClass (fun _ => false)
  | [r] => r
  | r :: rs' => RAlt r (alt rs')
  end.

(** A literal word under [re.IGNORECASE]. *)
Definition wordI (s : string) : regex := cat (map RCharI (lit s)).

Definition one_of (s : string) (c : ascii) : bool := bool_decide (c ∈ lit s).
Definition az (c : ascii) : bool := in_range 97 122 c.
Definition AZ (c : ascii) : bool := in_range 65 90 c.
Definition d09 (c : ascii) : bool := in_range 48 57 c.
Definition alnum (c : ascii) : bool := AZ c || az c || d09 c.

Definition digits (lo hi : nat) : regex := RRep re_digit lo (Some hi).

(** [\b\d{3}\.?\d{3}\.?\d{3}-?\d{1,2}\b] *)
Definition CPF : regex :=
  cat [RBound; digits 3 3; ROpt (RChar "."); digits 3 3; ROpt (RChar ".");
       digits 3 3; ROpt (RChar "-"); digits 1 2; RBound].

(** [\b\d{1,2}\.?\d{3}\.?\d{3}-?[0-9Xx]\b] *)
Definition RG : regex :=
  cat [RBound; digits 1 2; ROpt (RChar "."); digits 3 3; ROpt (RChar ".");
       digits 3 3; ROpt (RChar "-");
       RClass (fun c => d09 c || one_of "Xx" c); RBound].

(** [\b[A-Za-z0-9._%+-]+@[A-Za-z0-9.-]+\.[A-Za-z]{2,}\b] *)
Definition EMAIL : regex :=
  cat [RBound; RRep (fun c => alnum c || one_of "._%+-" c) 1 None;
       RChar "@"; RRep (fun c => alnum c || one_of ".-" c) 1 None;
       RChar "."; RRep (fun c => AZ c || az c) 2 None; RBound].

(** [\b(?:\+55\s?)?(?:\(?\d{2}\)?\s?)?9?\d{4}-?\d{4}\b] *)
Definition TELEFONE : regex :=
  cat [RBound;
       ROpt (cat [RChar "+"; RChar "5"; RChar "5"; ROpt (RClass isspace)]);
       ROpt (cat [ROpt (RChar "("); digits 2 2; ROpt (RChar ")");
                  ROpt (RClass isspace)]);
       ROpt (RChar "9"); digits 4 4; ROpt (RChar "-"); digits 4 4; RBound].

(** [\b(?:Rua|R\.|Avenida|Av\.?|Travessa|Tv\.?|Alameda|Estrada|Rodovia)\s+[A-Za-zÀ-ÿ0-9\s]{3,}]
    with [re.IGNORECASE]; on this character range the class is closed under
    case, so the flag does not change it. *)
Definition LOGRADOURO : regex :=
  cat [RBound;
       alt [wordI "Rua"; cat [RCharI "R"; RChar "."]; wordI "Avenida";
            cat [wordI "Av"; ROpt (RChar ".")]; wordI "Travessa";
            cat [wordI "Tv"; ROpt (RChar ".")]; wordI "Alameda";
            wordI "Estrada"; wordI "Rodovia"];
       RRep isspace 1 None;
       RRep (fun c => alnum c || in_range 192 255 c || isspace c) 3 None].

(** [\b(Qd\.?|Quadra|Lt\.?|Lote|Bloco|BLC|Conjunto|CJ)\s*[A-Za-z0-9\-]+\b]
    with [re.IGNORECASE]; [QUADRA_LOTE_grupo] is the content of its
    capturing group. *)
Definition QUADRA_LOTE_grupo : regex :=
  alt [cat [wordI "Qd"; ROpt (RChar ".")]; wordI "Quadra";
       cat [wordI "Lt"; ROpt (RChar ".")]; wordI "Lote";
       wordI "Bloco"; wordI "BLC"; wordI "Conjunto"; wordI "CJ"].

Definition QUADRA_LOTE : regex :=
  cat [RBound; RGroup QUADRA_LOTE_grupo; RRep isspace 0 None;
       RRep (fun c => alnum c || one_of "-" c) 1 None; RBound].

(** ** Text normalisation *)

(** [text.strip().replace("\u00a0", " ")] *)
Definition normalize (text : str) : str :=
  replace_char (chr 160) " "%char (strip text).

(** ** Name cleaning *)

(** The loop of [limpar_sufixos], on the token list read from its end:
    [tokens.pop()] while the last token is a suffix. *)
Fixpoint pop_sufixos (rtokens : list str) : list str :=
  match rtokens with
  | t :: rtokens' =>
      if bool_decide
           (strip_chars (fun c => bool_decide (c = ":"%char)) (lower t)
              ∈ SUFIXOS_LIXO)
      then pop_sufixos rtokens'
      else rtokens
  | [] => []
  end.

Definition limpar_sufixos (nome : str) : str :=
  join (lit " ") (rev (pop_sufixos (rev (split nome)))).

Definition limpar_titulos (nome : str) : str :=
  join (lit " ")
    (filter (fun t => lower t ∉ TITULOS) (split nome)).

(** ** Name validation *)

(** [tok[0].isupper()]; a token of [split] is never empty. *)
Definition inicial_maiuscula (tok : str) : bool :=
  match tok with
  | c :: _ => isupper c
  | [] => false
  end.

(** The [for tok in tokens] loop of [nome_valido]. *)
Fixpoint tokens_validos (tokens : list str) : bool :=
  match tokens with
  | [] => true
  | tok :: tokens' =>
      let tok_lower := lower tok in
      if bool_decide (tok_lower ∈ PREPOSICOES_NOME) then tokens_validos tokens'
      else if bool_decide (tok_lower ∈ PALAVRAS_PROIBIDAS) then false
      else if negb (inicial_maiuscula tok) then false
      else tokens_validos tokens'
  end.

Definition PRONOMES : gset str :=
  list_to_set [lit "nossa"; lit "nosso"; lit "suas"; lit "seus"].

Definition nome_valido (nome : str) : bool :=
  let tokens := split nome in
  if Nat.ltb (length tokens) 2 || Nat.ltb 7 (length tokens) then false
  else if bool_decide (lower (default [] (head tokens)) ∈ PRONOMES) then false
  else if bool_decide (head tokens = last tokens) then false
  else tokens_validos tokens.

(** ** Name extraction *)

Definition PER : str := lit "PER".

(** What one entity contributes to the set [nomes]. *)
Definition nome_da_entidade (ent : str * str) : option str :=
  let '(ent_text, ent_label) := ent in
  if bool_decide (ent_label ≠ PER) then None
  else
    let raw := strip ent_text in
    let raw_norm := lower raw in
    if existsb (fun t => startswith raw_norm t) (elements TRATAMENTOS_FORMAIS)
    then None
    else
      let clean := limpar_sufixos (limpar_titulos raw) in
      if nome_valido clean then Some clean else None.

Definition extract_names (ner : str -> list (str * str)) (text : str)
  : list str :=
  elements (list_to_set (omap nome_da_entidade (ner text)) : gset str).

(** ** Validators *)

(** [re.sub] of every [\D] by the empty string: the digits of [s]. *)
Definition so_digitos (s : str) : str := List.filter re_digit s.

Definition endereco_valido (e : str) : bool :=
  let e_lower := lower e in
  let tem_logradouro :=
    existsb (fun p => contains p e_lower)
      [lit "rua"; lit "avenida"; lit "av"; lit "quadra"; lit "lote";
       lit "bloco"] in
  let tem_numero := existsb isdigit e in
  tem_logradouro && tem_numero.

Definition valor_digito (c : ascii) : Z := Z.of_nat (ord c - 48).

(** [int(s)] for a string of decimal digits; [None] is [ValueError]. *)
Definition int (s : str) : option Z :=
  match s with
  | [] => None
  | _ :: _ =>
      if forallb re_digit s
      then Some (foldl (fun acc c => 10 * acc + valor_digito c)%Z 0%Z s)
      else None
  end.

(** [int(digits[:2])] is applied to two digits, so it cannot raise
    ([telefone_ddd_definido] below); the [None] branch is never taken. *)
Definition telefone_valido (tel : str) : bool :=
  let digits := so_digitos tel in
  if negb (Nat.eqb (length digits) 10 || Nat.eqb (length digits) 11)
  then false
  else match int (take 2 digits) with
       | Some ddd => Z.leb 11 ddd && Z.leb ddd 99
       | None => false
       end.

(** [re.compile(s)] for a pattern whose only metacharacter is the dot:
    [.] matches any character but the newline, every other character
    matches itself.  Every string matched by [RG] is such a pattern
    (digits, [.], [-], [X], [x]), and [rg_valido] is only called with such
    strings.  For a string with another metacharacter ([+], [(], ...) this
    is not what [re] compiles: statements about [rg_valido] on an arbitrary
    candidate assume [alfabeto_rg]. *)
Definition pattern_of (s : str) : regex :=
  cat (map (fun c =>
              if bool_decide (c = "."%char)
              then RClass (fun a => negb (bool_decide (a = chr 10)))
              else RChar c) s).

Definition PALAVRAS_RG : list str :=
  [lit "rg"; lit "registro geral"; lit "identidade"].

(** The window test of [rg_valido] for one match. *)
Definition janela_tem_palavra (text : str) (m : rmatch) : bool :=
  let janela := lower (slice (m_start m - 15) (m_start m) text) in
  existsb (fun p => contains p janela) PALAVRAS_RG.

Definition rg_valido (rg text : str) : bool :=
  let rg_norm := so_digitos rg in
  if negb (Nat.leb 7 (length rg_norm) && Nat.leb (length rg_norm) 9)
  then false
  else existsb (janela_tem_palavra text) (finditer (pattern_of rg) text).

Definition cpf_formato_valido (cpf : str) : bool :=
  Nat.eqb (length (so_digitos cpf)) 11.

(** ** Extraction *)

(** [list(set(pattern.findall(text)))] *)
Definition extract (pattern : regex) (text : str) : list str :=
  elements (list_to_set (findall pattern text) : gset str).

Definition extract_endereco (text : str) : list str :=
  let encontrados := findall LOGRADOURO text ++ findall QUADRA_LOTE text in
  List.filter endereco_valido (elements (list_to_set encontrados : gset str)).

Definition extract_all (text : str) : gmap str (list str) :=
  <[lit "endereco" := extract_endereco text]>
  (<[lit "telefone" := List.filter telefone_valido (extract TELEFONE text)]>
  (<[lit "email" := extract EMAIL text]>
  (<[lit "rg" := List.filter (fun r => rg_valido r text) (extract RG text)]>
  (<[lit "cpf" := List.filter cpf_formato_valido (extract CPF text)]> ∅)))).

Definition detect_pii (ner : str -> list (str * str)) (text : str)
  : gmap str (list str) :=
  let text := normalize text in
  let pii := extract_all text in
  let pii := resolver_conflitos pii in
  <[lit "nome" := extract_names ner text]> pii.

(** ** Pipeline execution

    The loop at the end of [main.py] over the texts read from the
    spreadsheet.  What it prints for one text is kept as a record; the
    layout of the printed lines (the field names in upper case, the lists
    as Python prints them) is left out. *)

(** [{k: v for k, v in pii.items() if v}] *)
Definition dados_sensiveis (pii : gmap str (list str)) : gmap str (list str) :=
  filter (fun kv => kv.2 ≠ []) pii.

(** What one turn of the loop over the texts prints: the number of the
    record, the verdict ([None] if [classificar_pedido] raised) and the
    fields of [dados_sensiveis]. *)
Record registro : Type := Registro {
  numero : nat;
  veredito : option str;
  campos : gmap str (list str)
}.

Definition registro_de (ner : str -> list (str * str)) (idx : nat)
    (text : str) : registro :=
  let pii := detect_pii ner text in
  Registro (idx + 1) (classificar_pedido pii) (dados_sensiveis pii).

(** [for idx, text in enumerate(texts)] *)
Definition relatorio (ner : str -> list (str * str)) (texts : list str)
  : list registro :=
  imap (registro_de ner) texts.

(** ** Notions used in the statements *)

(** The six keys of the mapping. *)
Definition CHAVES : list str :=
  [lit "cpf"; lit "rg"; lit "email"; lit "telefone"; lit "endereco";
   lit "nome"].

(** A token: a non-empty string without white space. *)
Definition token (t : str) : Prop :=
  t ≠ [] ∧ Forall (fun c => isspace c = false) t.

(** What the loop of [nome_valido] accepts of one token. *)
Definition token_aceito (tok : str) : Prop :=
  (lower tok ∈ PREPOSICOES_NOME)
  ∨ ((lower tok ∉ PALAVRAS_PROIBIDAS) ∧ inicial_maiuscula tok = true).

(** One character accepted by [ok] is consumed between [st] and [st']. *)
Definition step (ok : ascii → bool) (st st' : mstate) : Prop :=
  ∃ a rest', m_rest st = a :: rest' ∧ ok a = true
    ∧ st' = MState (Some a) rest' (S (m_used st)) (m_group st).

(** Between [lo] and [hi] characters accepted by [p] are consumed. *)
Inductive rep (p : ascii → bool) : nat → option nat → mstate → mstate → Prop :=
| rep_stop hi st : rep p 0 hi st st
| rep_more lo hi st st1 st' :
    step p st st1 → hi_allows hi = true →
    rep p (pred lo) (pred <$> hi) st1 st' → rep p lo hi st st'.

(** [matches r st st']: some path through [r] leads from [st] to [st'],
    whatever its priority. *)
Fixpoint matches (r : regex) (st st' : mstate) : Prop :=
  match r with
  | REps => st' = st
  | RChar c => step (fun a => bool_decide (a = c)) st st'
  | RCharI c => step (fun a => bool_decide (lower_char a = lower_char c)) st st'
  | RClass p => step p st st'
  | RBound => at_boundary (m_prev st) (m_rest st) = true ∧ st' = st
  | RSeq r1 r2 => ∃ st1, matches r1 st st1 ∧ matches r2 st1 st'
  | RAlt r1 r2 => matches r1 st st' ∨ matches r2 st st'
  | ROpt r1 => matches r1 st st' ∨ st' = st
  | RRep p lo hi => rep p lo hi st st'
  | RGroup r1 =>
      ∃ st1, matches r1 st st1
        ∧ st' = MState (m_prev st1) (m_rest st1) (m_used st1)
                  (Some (m_used st, m_used st1))
  end.

(** The characters some atom of [r] accepts. *)
Fixpoint accepts (r : regex) (a : ascii) : bool :=
  match r with
  | REps | RBound => false
  | RChar c => bool_decide (a = c)
  | RCharI c => bool_decide (lower_char a = lower_char c)
  | RClass p => p a
  | RSeq r1 r2 | RAlt r1 r2 => accepts r1 a || accepts r2 a
  | ROpt r1 | RGroup r1 => accepts r1 a
  | RRep p _ _ => p a
  end.

(** The characters consumed between two states. *)
Definition consumed (P : ascii → Prop) (st st' : mstate) : Prop :=
  ∃ w, m_rest st = w ++ m_rest st'
    ∧ m_used st' = m_used st + length w ∧ Forall P w.

(** The character before the position reached after reading [w]. *)
Definition last_or (prev : option ascii) (w : str) : option ascii :=
  match last w with
  | Some c => Some c
  | None => prev
  end.

(** [w] is made of [n] decimal digits. *)
Definition digitos (n : nat) (w : str) : Prop :=
  length w = n ∧ Forall (fun a => re_digit a = true) w.

(** A national ID in grouped format, [ddd.ddd.ddd-dd]. *)
Definition cpf_agrupado (a b c d : str) : str :=
  a ++ "."%char :: b ++ "."%char :: c ++ "-"%char :: d.

(** An optional separator: nothing, or the character [x]. *)
Definition sinal (x : ascii) (s : str) : Prop := s = [] ∨ s = [x].

(** What a match of [CPF] consumes: three groups of three digits and one of
    one or two digits, with optional separators, up to a word boundary. *)
Definition forma_cpf (w rest : str) : Prop :=
  ∃ w1 s1 w2 s2 w3 s3 w4,
    w = w1 ++ s1 ++ w2 ++ s2 ++ w3 ++ s3 ++ w4
    ∧ digitos 3 w1 ∧ sinal "." s1 ∧ digitos 3 w2 ∧ sinal "." s2
    ∧ digitos 3 w3 ∧ sinal "-" s3
    ∧ (1 ≤ length w4 ≤ 2) ∧ Forall (fun a => re_digit a = true) w4
    ∧ word_at (head rest) = false.

(** A text with an ID in grouped format after other digits. *)
Definition texto_com_cpf : str :=
  lit " Processo 0012, CPF: 123.456.789-09, ok ".

(** The non-breaking space, U+00A0. *)
Definition NBSP : ascii := chr 160.

(** A token that [limpar_sufixos] drops from the end of a name. *)
Definition sufixo_lixo (t : str) : Prop :=
  strip_chars (fun c => bool_decide (c = ":"%char)) (lower t) ∈ SUFIXOS_LIXO.

(** The candidates [extract_all] keeps for cpf, rg and telefone: the
    matches that pass the validator of their kind. *)
Definition candidatos_cpf (t : str) : list str :=
  List.filter cpf_formato_valido (extract CPF t).
Definition candidatos_rg (t : str) : list str :=
  List.filter (fun r => rg_valido r t) (extract RG t).
Definition candidatos_telefone (t : str) : list str :=
  List.filter telefone_valido (extract TELEFONE t).

(** What a match of [RG] consumes. *)
Definition forma_rg (w : str) : Prop :=
  ∃ w1 s1 w2 s2 w3 s3 x,
    w = w1 ++ s1 ++ w2 ++ s2 ++ w3 ++ s3 ++ [x]
    ∧ (1 ≤ length w1 ≤ 2) ∧ Forall (fun a => re_digit a = true) w1
    ∧ sinal "." s1 ∧ digitos 3 w2 ∧ sinal "." s2 ∧ digitos 3 w3
    ∧ sinal "-" s3
    ∧ (re_digit x = true ∨ x = "X"%char ∨ x = "x"%char).

(** What a match of [EMAIL] consumes: a local part, [@], a domain and a
    final label of at least two letters. *)
Definition forma_email (w : str) : Prop :=
  ∃ l d tld,
    w = l ++ "@"%char :: d ++ "."%char :: tld
    ∧ l ≠ [] ∧ Forall (fun a => alnum a || one_of "._%+-" a = true) l
    ∧ d ≠ [] ∧ Forall (fun a => alnum a || one_of ".-" a = true) d
    ∧ 2 ≤ length tld ∧ Forall (fun a => AZ a || az a = true) tld.

(** The candidates [rg_valido] receives: strings over the characters of a
    match of [RG].  For them, and only for them, [pattern_of] is what
    [re.finditer] compiles. *)
Definition alfabeto_rg (rg : str) : Prop :=
  Forall (fun a => re_digit a = true ∨ a ∈ lit ".-Xx") rg.

(** [w] is matched by the candidate [rg] read as a pattern: the same length,
    the same characters, except that a dot of [rg] stands for any character
    but the newline. *)
Definition casa_com (rg w : str) : Prop :=
  Forall2 (fun c a => if decide (c = "."%char) then a ≠ chr 10 else a = c) rg w.

(** The characters of the street name in [LOGRADOURO]. *)
Definition letra_de_logradouro (c : ascii) : bool :=
  alnum c || in_range 192 255 c || isspace c.

(** The street-type words of [LOGRADOURO], in lower case. *)
Definition TIPOS_LOGRADOURO : list str :=
  [lit "rua"; lit "r."; lit "avenida"; lit "av"; lit "av."; lit "travessa";
   lit "tv"; lit "tv."; lit "alameda"; lit "estrada"; lit "rodovia"].

(** What a match of [LOGRADOURO] consumes: a street-type word in any case,
    white space, and at least three characters of street name. *)
Definition forma_logradouro (w : str) : Prop :=
  ∃ tipo sp nome,
    w = tipo ++ sp ++ nome
    ∧ (lower tipo ∈ TIPOS_LOGRADOURO)
    ∧ sp ≠ [] ∧ Forall (fun a => isspace a = true) sp
    ∧ 3 ≤ length nome ∧ Forall (fun a => letra_de_logradouro a = true) nome.

(** The keywords [endereco_valido] looks for. *)
Definition PALAVRAS_ENDERECO : list str :=
  [lit "rua"; lit "avenida"; lit "av"; lit "quadra"; lit "lote"; lit "bloco"].

(** The street types of [LOGRADOURO], in lower case, that contain a keyword
    of [endereco_valido], and those that contain none. *)
Definition TIPOS_COM_PALAVRA : list str :=
  [lit "rua"; lit "avenida"; lit "av"; lit "av."; lit "travessa"].

Definition TIPOS_SEM_PALAVRA : list str :=
  [lit "r."; lit "tv"; lit "tv."; lit "alameda"; lit "estrada";
   lit "rodovia"].

(** * Properties *)

(** Two keys written as literals are different. *)
Ltac chaves := let H := fresh in intros H; vm_compute in H; discriminate H.

(** ** Conflict resolution *)

(** The inner loop of [resolver_conflitos] computes [novos]. *)
Lemma foldl_passo acc u vs :
  foldl passo (acc, u) vs = (acc ++ novos u vs, u ∪ list_to_set (novos u vs)).
Proof.
  revert acc u. induction vs as [|v vs IH]; intros acc u; simpl.
  - rewrite app_nil_r. f_equal. set_solver.
  - destruct (decide (v ∈ u)) as [Hin|Hout].
    + apply IH.
    + rewrite IH, <- app_assoc. simpl. f_equal. set_solver.
Qed.

Lemma elem_of_novos x u vs : x ∈ novos u vs ↔ x ∈ vs ∧ x ∉ u.
Proof.
  revert u. induction vs as [|v vs IH]; intros u; simpl.
  - set_solver.
  - destruct (decide (v ∈ u)) as [Hin|Hout].
    + rewrite IH. set_solver.
    + rewrite elem_of_cons, IH, elem_of_cons, elem_of_union, elem_of_singleton.
      split.
      * intros [->|[Hx Hn]]; [by split; [left|]|]. split; [by right|]. tauto.
      * intros [[->|Hx] Hn]; [by left|]. destruct (decide (x = v)) as [->|Hne]; [by left|].
        right. split; [done|]. tauto.
Qed.

Lemma NoDup_novos u vs : NoDup (novos u vs).
Proof.
  revert u. induction vs as [|v vs IH]; intros u; simpl.
  - constructor.
  - destruct (decide (v ∈ u)); [apply IH|].
    constructor; [|apply IH]. rewrite elem_of_novos. set_solver.
Qed.

Lemma novos_id u vs :
  NoDup vs → (∀ x, x ∈ vs → x ∉ u) → novos u vs = vs.
Proof.
  revert u. induction vs as [|v vs IH]; intros u Hnd Hu; simpl; [done|].
  inversion Hnd as [|? ? Hv Hnd']; subst.
  destruct (decide (v ∈ u)) as [Hin|_].
  - exfalso. apply (Hu v); [left|done].
  - f_equal. apply IH; [done|]. intros x Hx. specialize (Hu x). set_solver.
Qed.

Lemma union_novos u vs :
  u ∪ list_to_set (novos u vs) = u ∪ list_to_set vs.
Proof.
  apply set_eq. intros x. rewrite !elem_of_union, !elem_of_list_to_set, elem_of_novos.
  destruct (decide (x ∈ u)); set_solver.
Qed.

Lemma resolver_campo_eq pii u c :
  resolver_campo (pii, u) c =
    (<[c := novos u (pii_get pii c)]> pii, u ∪ list_to_set (pii_get pii c)).
Proof.
  unfold resolver_campo, pii_get. rewrite foldl_passo. cbn [app].
  by rewrite union_novos.
Qed.

Lemma pii_get_insert (k : str) (v : list str) (m : gmap str (list str)) :
  pii_get (<[k := v]> m) k = v.
Proof. unfold pii_get. by rewrite lookup_insert_eq. Qed.

Lemma pii_get_insert_ne (k k' : str) (v : list str)
    (m : gmap str (list str)) :
  k ≠ k' → pii_get (<[k := v]> m) k' = pii_get m k'.
Proof. intros Hne. unfold pii_get. by rewrite lookup_insert_ne. Qed.

(** The four iterations of the outer loop, unfolded. *)
Lemma resolver_conflitos_eq pii :
  let u1 : gset str := ∅ ∪ list_to_set (pii_get pii (lit "cpf")) in
  let u2 := u1 ∪ list_to_set (pii_get pii (lit "rg")) in
  let u3 := u2 ∪ list_to_set (pii_get pii (lit "telefone")) in
  resolver_conflitos pii =
    <[lit "endereco" := novos u3 (pii_get pii (lit "endereco"))]>
      (<[lit "telefone" := novos u2 (pii_get pii (lit "telefone"))]>
        (<[lit "rg" := novos u1 (pii_get pii (lit "rg"))]>
          (<[lit "cpf" := novos ∅ (pii_get pii (lit "cpf"))]> pii))).
Proof.
  intros. unfold resolver_conflitos, CAMPOS_CONFLITO.
  cbn [foldl]. rewrite !resolver_campo_eq. cbn [fst].
  rewrite !pii_get_insert_ne by chaves. done.
Qed.

Lemma lookup_resolver pii i c :
  CAMPOS_CONFLITO !! i = Some c →
  resolver_conflitos pii !! c =
    Some (novos (list_to_set (anteriores pii i)) (pii_get pii c)).
Proof.
  intros Hi. rewrite resolver_conflitos_eq. cbv zeta.
  unfold CAMPOS_CONFLITO in Hi.
  destruct i as [|[|[|[|i]]]]; simpl in Hi; try discriminate;
    injection Hi as <-;
    rewrite ?(lookup_insert_ne _ (lit "endereco")) by chaves;
    rewrite ?(lookup_insert_ne _ (lit "telefone")) by chaves;
    rewrite ?(lookup_insert_ne _ (lit "rg")) by chaves;
    rewrite lookup_insert_eq; do 2 f_equal;
    unfold anteriores, CAMPOS_CONFLITO; cbn [take fmap list_fmap mjoin list_join];
    rewrite ?list_to_set_app_L, ?app_nil_r; cbn [list_to_set];
    rewrite ?(left_id_L ∅ (∪)), ?(right_id_L ∅ (∪)), ?(assoc_L (∪)); done.
Qed.

Lemma pii_get_resolver pii i c :
  CAMPOS_CONFLITO !! i = Some c →
  pii_get (resolver_conflitos pii) c =
    novos (list_to_set (anteriores pii i)) (pii_get pii c).
Proof. intros Hi. unfold pii_get at 1. by rewrite (lookup_resolver _ _ _ Hi). Qed.

Lemma lookup_resolver_ne pii k :
  k ∉ CAMPOS_CONFLITO → resolver_conflitos pii !! k = pii !! k.
Proof.
  intros Hk. rewrite resolver_conflitos_eq. cbv zeta.
  unfold CAMPOS_CONFLITO in Hk.
  rewrite !lookup_insert_ne; [done|..]; intros <-; apply Hk;
    repeat first [by left | right].
Qed.

Lemma elem_of_anteriores pii i v :
  v ∈ anteriores pii i ↔
  ∃ j c, j < i ∧ CAMPOS_CONFLITO !! j = Some c ∧ v ∈ pii_get pii c.
Proof.
  unfold anteriores. rewrite list_elem_of_join. split.
  - intros (l & Hv & Hl). apply list_elem_of_fmap in Hl as (c & -> & Hc).
    apply list_elem_of_lookup in Hc as (j & Hj).
    apply lookup_take_Some in Hj as [Hj Hlt]. by exists j, c.
  - intros (j & c & Hlt & Hj & Hv). exists (pii_get pii c). split; [done|].
    apply list_elem_of_fmap. exists c. split; [done|].
    apply list_elem_of_lookup. exists j. by apply lookup_take_Some.
Qed.

Lemma resolver_membros pii i c v :
  CAMPOS_CONFLITO !! i = Some c →
  v ∈ pii_get (resolver_conflitos pii) c ↔
  v ∈ pii_get pii c ∧
  ∀ j c', j < i → CAMPOS_CONFLITO !! j = Some c' → v ∉ pii_get pii c'.
Proof.
  intros Hi. rewrite (pii_get_resolver _ _ _ Hi), elem_of_novos.
  rewrite elem_of_list_to_set, elem_of_anteriores. split.
  - intros [Hv Hn]. split; [done|]. intros j c' Hlt Hj Hv'. apply Hn. eauto.
  - intros [Hv Hn]. split; [done|].
    intros (j & c' & Hlt & Hj & Hv'). by eapply Hn.
Qed.

Lemma resolver_disjuntos pii i j ci cj v :
  CAMPOS_CONFLITO !! i = Some ci → CAMPOS_CONFLITO !! j = Some cj → i ≠ j →
  v ∈ pii_get (resolver_conflitos pii) ci →
  v ∉ pii_get (resolver_conflitos pii) cj.
Proof.
  intros Hi Hj Hne Hvi Hvj.
  apply (resolver_membros _ _ _ _ Hi) in Hvi as [Hpi Hi'].
  apply (resolver_membros _ _ _ _ Hj) in Hvj as [Hpj Hj'].
  destruct (Nat.lt_total i j) as [Hlt|[Heq|Hgt]]; [|done|].
  - by apply (Hj' i ci).
  - by apply (Hi' j cj).
Qed.

Lemma resolver_presentes pii i c :
  CAMPOS_CONFLITO !! i = Some c →
  resolver_conflitos pii !! c = Some (pii_get (resolver_conflitos pii) c)
  ∧ NoDup (pii_get (resolver_conflitos pii) c).
Proof.
  intros Hi. unfold pii_get at 1.
  rewrite (lookup_resolver _ _ _ Hi). split; [done|].
  rewrite (pii_get_resolver _ _ _ Hi). apply NoDup_novos.
Qed.

Lemma fora_dos_campos (k : str) :
  k = lit "email" ∨ k = lit "nome" → k ∉ CAMPOS_CONFLITO.
Proof.
  unfold CAMPOS_CONFLITO. intros Hk H.
  rewrite !elem_of_cons, elem_of_nil in H.
  destruct Hk as [-> | ->];
    destruct H as [H|[H|[H|[H|[]]]]]; vm_compute in H; discriminate H.
Qed.

(** C3. After [resolver_conflitos], a value is in the list of a contested
    field exactly when the input list of that field has it and no field
    earlier in the order cpf, rg, telefone, endereco has it; hence no value
    is in the lists of two contested fields.  The four fields are bound, each
    to a list without repetition, and the bindings of email and nome are
    those of the input. *)
Theorem resolver_conflitos_exclusivo (pii : gmap str (list str)) :
  let r := resolver_conflitos pii in
  (∀ i c v, CAMPOS_CONFLITO !! i = Some c →
     (v ∈ pii_get r c ↔
      v ∈ pii_get pii c ∧
      ∀ j c', j < i → CAMPOS_CONFLITO !! j = Some c' → v ∉ pii_get pii c'))
  ∧ (∀ i j ci cj v,
       CAMPOS_CONFLITO !! i = Some ci → CAMPOS_CONFLITO !! j = Some cj →
       i ≠ j → v ∈ pii_get r ci → v ∉ pii_get r cj)
  ∧ (∀ i c, CAMPOS_CONFLITO !! i = Some c →
       r !! c = Some (pii_get r c) ∧ NoDup (pii_get r c))
  ∧ r !! lit "email" = pii !! lit "email"
  ∧ r !! lit "nome" = pii !! lit "nome".
Proof.
  intros r. unfold r. split; [|split; [|split; [|split]]].
  - intros i c v. apply resolver_membros.
  - apply resolver_disjuntos.
  - apply resolver_presentes.
  - apply lookup_resolver_ne, fora_dos_campos. by left.
  - apply lookup_resolver_ne, fora_dos_campos. by right.
Qed.

(** C4. Conflict resolution is idempotent: resolving a resolved mapping
    returns the same mapping. *)
Theorem resolver_conflitos_idempotente (pii : gmap str (list str)) :
  resolver_conflitos (resolver_conflitos pii) = resolver_conflitos pii.
Proof.
  set (r := resolver_conflitos pii).
  assert (Hfix : ∀ i c, CAMPOS_CONFLITO !! i = Some c →
            resolver_conflitos r !! c = r !! c).
  { intros i c Hi. rewrite (lookup_resolver r _ _ Hi).
    destruct (resolver_presentes pii _ _ Hi) as [Hc Hnodup].
    fold r in Hc, Hnodup. rewrite Hc. f_equal.
    apply novos_id; [done|]. intros v Hv.
    rewrite elem_of_list_to_set, elem_of_anteriores.
    intros (j & c' & Hlt & Hj & Hv').
    apply (resolver_disjuntos pii i j c c' v); auto. lia. }
  apply map_eq. intros k.
  destruct (decide (k ∈ CAMPOS_CONFLITO)) as [Hin|Hout].
  - apply list_elem_of_lookup in Hin as [i Hi]. by apply (Hfix i).
  - by apply lookup_resolver_ne.
Qed.

(** ** The classifier and the shape of the mapping *)

Lemma elem_of_PII_FORTE (k : str) : k ∈ PII_FORTE ↔ k ∈ CHAVES.
Proof.
  unfold PII_FORTE, CHAVES. rewrite elem_of_list_to_set.
  rewrite !elem_of_cons, !elem_of_nil. tauto.
Qed.

Lemma any_campo_None pii ks :
  (∀ k, k ∈ ks → is_Some (pii !! k)) → any_campo pii ks ≠ None.
Proof.
  induction ks as [|k ks IH]; intros Hks; simpl; [done|].
  destruct (Hks k) as [l Hl]; [by left|]. rewrite Hl.
  destruct l; [|done]. apply IH. intros k' Hk'. apply Hks. by right.
Qed.

Lemma any_campo_true pii ks :
  any_campo pii ks = Some true → ∃ k, k ∈ ks ∧ pii_get pii k ≠ [].
Proof.
  induction ks as [|k ks IH]; simpl; [done|].
  destruct (pii !! k) as [[|v l]|] eqn:Hk; [| |done].
  - intros H. destruct (IH H) as (k' & Hk' & Hne). exists k'.
    split; [by right|done].
  - intros _. exists k. split; [by left|]. unfold pii_get. by rewrite Hk.
Qed.

Lemma any_campo_false pii ks :
  any_campo pii ks = Some false → ∀ k, k ∈ ks → pii_get pii k = [].
Proof.
  induction ks as [|k ks IH]; simpl; [by intros _ k' Hk'; inversion Hk'|].
  destruct (pii !! k) as [[|v l]|] eqn:Hk; [|done|done].
  intros H k' Hk'. apply elem_of_cons in Hk' as [->|Hk'].
  - unfold pii_get. by rewrite Hk.
  - by apply IH.
Qed.

(** On a mapping that binds the six keys the classifier raises no
    [KeyError], whatever the order in which the set is iterated. *)
Lemma classificar_pedido_completo pii :
  (∀ k, k ∈ CHAVES → is_Some (pii !! k)) →
  (classificar_pedido pii = Some NAO_PUBLICO ↔
     ∃ k, k ∈ CHAVES ∧ pii_get pii k ≠ [])
  ∧ (classificar_pedido pii = Some PUBLICO ↔
     ∀ k, k ∈ CHAVES → pii_get pii k = [])
  ∧ (classificar_pedido pii = Some NAO_PUBLICO
     ∨ classificar_pedido pii = Some PUBLICO).
Proof.
  intros Hks. unfold classificar_pedido.
  assert (Hel : ∀ k, k ∈ elements PII_FORTE ↔ k ∈ CHAVES).
  { intros k. by rewrite elem_of_elements, elem_of_PII_FORTE. }
  pose proof (any_campo_None pii (elements PII_FORTE)) as Hn.
  pose proof (any_campo_true pii (elements PII_FORTE)) as Ht.
  pose proof (any_campo_false pii (elements PII_FORTE)) as Hf.
  assert (Hdiff : NAO_PUBLICO ≠ PUBLICO) by chaves.
  destruct (any_campo pii (elements PII_FORTE)) as [[|]|].
  - destruct (Ht eq_refl) as (k & Hk & Hne). split; [|split; [|by left]]; split.
    + intros _. exists k. by rewrite <- Hel.
    + done.
    + intros H. by injection H.
    + intros Hall. destruct Hne. apply Hall. by apply Hel.
  - split; [|split; [|by right]]; split.
    + intros H. symmetry in H. by injection H.
    + intros (k & Hk & Hne). destruct Hne. apply (Hf eq_refl). by apply Hel.
    + intros _ k Hk. apply (Hf eq_refl). by apply Hel.
    + done.
  - destruct Hn; [|done]. intros k Hk. apply Hks. by apply Hel.
Qed.

Lemma dom_extract_all text :
  dom (extract_all text) =
  list_to_set
    [lit "cpf"; lit "rg"; lit "email"; lit "telefone"; lit "endereco"].
Proof.
  unfold extract_all. rewrite !dom_insert_L, dom_empty_L.
  cbn [list_to_set]. apply set_eq. intros k.
  rewrite !elem_of_union, !elem_of_singleton, elem_of_empty. tauto.
Qed.

Lemma dom_resolver_conflitos pii :
  dom (resolver_conflitos pii) = list_to_set CAMPOS_CONFLITO ∪ dom pii.
Proof.
  rewrite resolver_conflitos_eq. cbv zeta. rewrite !dom_insert_L.
  unfold CAMPOS_CONFLITO. cbn [list_to_set]. apply set_eq. intros k.
  rewrite !elem_of_union, !elem_of_singleton, elem_of_empty. tauto.
Qed.

Lemma dom_detect_pii ner text : dom (detect_pii ner text) = PII_FORTE.
Proof.
  unfold detect_pii.
  rewrite dom_insert_L, dom_resolver_conflitos, dom_extract_all.
  unfold PII_FORTE, CAMPOS_CONFLITO. cbn [list_to_set].
  apply set_eq. intros k.
  rewrite !elem_of_union, !elem_of_singleton, elem_of_empty. tauto.
Qed.

Lemma detect_pii_chaves ner text k :
  k ∈ CHAVES → is_Some (detect_pii ner text !! k).
Proof.
  intros Hk. apply elem_of_dom. rewrite dom_detect_pii.
  by apply elem_of_PII_FORTE.
Qed.

(** C1. On the mapping [detect_pii] returns, [classificar_pedido] answers
    "NÃO PÚBLICO" exactly when one of the six lists is not empty and
    "PÚBLICO" exactly when all six are empty; it always answers one of the
    two. *)
Theorem classificar_pedido_detect_pii (ner : str → list (str * str))
    (text : str) :
  let pii := detect_pii ner text in
  (classificar_pedido pii = Some NAO_PUBLICO ↔
     ∃ k, k ∈ CHAVES ∧ pii_get pii k ≠ [])
  ∧ (classificar_pedido pii = Some PUBLICO ↔
     ∀ k, k ∈ CHAVES → pii_get pii k = [])
  ∧ (classificar_pedido pii = Some NAO_PUBLICO
     ∨ classificar_pedido pii = Some PUBLICO).
Proof.
  intros pii. apply classificar_pedido_completo.
  intros k. apply detect_pii_chaves.
Qed.

(** C10. The mapping [detect_pii] returns has exactly the six keys cpf, rg,
    email, telefone, endereco and nome, so every lookup of
    [classificar_pedido] is defined and it returns a verdict. *)
Theorem detect_pii_seis_chaves (ner : str → list (str * str)) (text : str) :
  dom (detect_pii ner text) =
    list_to_set [lit "cpf"; lit "rg"; lit "email"; lit "telefone";
                 lit "endereco"; lit "nome"]
  ∧ (∀ k, k ∈ PII_FORTE → is_Some (detect_pii ner text !! k))
  ∧ is_Some (classificar_pedido (detect_pii ner text)).
Proof.
  split; [|split].
  - rewrite dom_detect_pii. unfold PII_FORTE. cbn [list_to_set].
    apply set_eq. intros k.
    rewrite !elem_of_union, !elem_of_singleton, elem_of_empty. tauto.
  - intros k Hk. apply detect_pii_chaves. by apply elem_of_PII_FORTE.
  - destruct (classificar_pedido_completo (detect_pii ner text))
      as (_ & _ & [H|H]); [intros k; apply detect_pii_chaves| |];
      rewrite H; eauto.
Qed.

(** ** The phone validator *)

Lemma so_digitos_digitos s :
  Forall (fun c => re_digit c = true) (so_digitos s).
Proof.
  unfold so_digitos. apply List.Forall_forall. intros c Hc.
  by apply List.filter_In in Hc as [_ Hc].
Qed.

Lemma valor_digito_intervalo c :
  re_digit c = true → (0 ≤ valor_digito c ≤ 9)%Z.
Proof.
  unfold re_digit, in_range, valor_digito. intros H.
  apply andb_true_iff in H as [H1 H2].
  apply Nat.leb_le in H1, H2. lia.
Qed.

Lemma int_dois_digitos a b :
  re_digit a = true → re_digit b = true →
  int [a; b] = Some (10 * valor_digito a + valor_digito b)%Z.
Proof.
  intros Ha Hb. unfold int. cbn [forallb foldl]. rewrite Ha, Hb. cbn [andb].
  done.
Qed.

(** [int(digits[:2])] in [telefone_valido] is applied to two digits. *)
Lemma telefone_ddd_definido tel :
  2 ≤ length (so_digitos tel) → is_Some (int (take 2 (so_digitos tel))).
Proof.
  intros Hlen. pose proof (so_digitos_digitos tel) as Hd.
  destruct (so_digitos tel) as [|a [|b rest]]; simpl in Hlen; try lia.
  inversion Hd as [|? ? Ha Hd']; subst. inversion Hd' as [|? ? Hb _]; subst.
  change (take 2 (a :: b :: rest)) with [a; b].
  rewrite (int_dois_digitos a b Ha Hb). eauto.
Qed.

Lemma telefone_valido_iff tel :
  telefone_valido tel = true ↔
  (length (so_digitos tel) = 10 ∨ length (so_digitos tel) = 11) ∧
  ∃ a b rest, so_digitos tel = a :: b :: rest ∧
    (11 ≤ 10 * valor_digito a + valor_digito b ≤ 99)%Z.
Proof.
  unfold telefone_valido. pose proof (so_digitos_digitos tel) as Hd.
  destruct (Nat.eqb (length (so_digitos tel)) 10
            || Nat.eqb (length (so_digitos tel)) 11) eqn:Hlen; cbn [negb].
  - apply orb_true_iff in Hlen. rewrite !Nat.eqb_eq in Hlen.
    destruct (so_digitos tel) as [|a [|b rest]]; simpl in Hlen; try lia.
    inversion Hd as [|? ? Ha Hd']; subst. inversion Hd' as [|? ? Hb _]; subst.
    change (take 2 (a :: b :: rest)) with [a; b].
    rewrite (int_dois_digitos a b Ha Hb).
    rewrite andb_true_iff, !Z.leb_le. split.
    + intros H. split; [done|]. by exists a, b, rest.
    + intros (_ & a' & b' & rest' & Heq & H). by injection Heq as <- <- <-.
  - apply orb_false_iff in Hlen. rewrite !Nat.eqb_neq in Hlen.
    split; [done|]. intros ([H|H] & _); lia.
Qed.

Lemma telefone_ddd_05 tel rest :
  so_digitos tel = "0"%char :: "5"%char :: rest → telefone_valido tel = false.
Proof.
  intros Hd. apply not_true_is_false. rewrite telefone_valido_iff.
  intros (_ & a & b & rest' & Heq & H). rewrite Hd in Heq.
  injection Heq as <- <- <-. vm_compute in H. destruct H as [H _]. by apply H.
Qed.

(** C7. [telefone_valido] accepts exactly the candidates that have 10 or 11
    digits, the first two of which read as a number between 11 and 99; digits
    starting with "05" are rejected, as for "0512345678", which the
    extraction pattern matches. *)
Theorem telefone_valido_spec (tel : str) :
  (telefone_valido tel = true ↔
     (length (so_digitos tel) = 10 ∨ length (so_digitos tel) = 11) ∧
     ∃ a b rest, so_digitos tel = a :: b :: rest ∧
       (11 ≤ 10 * valor_digito a + valor_digito b ≤ 99)%Z)
  ∧ (∀ rest, so_digitos tel = "0"%char :: "5"%char :: rest →
       telefone_valido tel = false)
  ∧ findall TELEFONE (lit "0512345678") = [lit "0512345678"]
  ∧ telefone_valido (lit "0512345678") = false.
Proof.
  split; [apply telefone_valido_iff|]. split; [apply telefone_ddd_05|].
  split; by vm_compute.
Qed.

(** ** Tokens, title cleaning and name validation *)

Lemma split_from_tokens s cur :
  Forall (fun c => isspace c = false) cur →
  Forall token (split_from cur s).
Proof.
  revert cur. induction s as [|c s IH]; intros cur Hcur; simpl.
  - destruct cur; [constructor|]. constructor; [|constructor]. by split.
  - destruct (isspace c) eqn:Hc.
    + destruct cur as [|a cur]; [by apply IH|].
      constructor; [by split|]. by apply IH.
    + apply IH. apply Forall_app. split; [done|]. by constructor.
Qed.

Lemma split_tokens s : Forall token (split s).
Proof. by apply split_from_tokens. Qed.

Lemma split_from_app t cur s :
  Forall (fun c => isspace c = false) t →
  split_from cur (t ++ s) = split_from (cur ++ t) s.
Proof.
  revert cur. induction t as [|c t IH]; intros cur Ht; simpl.
  - by rewrite app_nil_r.
  - inversion Ht as [|? ? Hc Ht']; subst. rewrite Hc, IH by done.
    by rewrite <- app_assoc.
Qed.

(** Splitting what [join] made of tokens gives the tokens back. *)
Lemma split_join toks :
  Forall token toks → split (join (lit " ") toks) = toks.
Proof.
  unfold split. induction toks as [|t toks IH]; intros Htoks; [done|].
  inversion Htoks as [|? ? [Hne Ht] Htoks']; subst.
  destruct toks as [|t' toks].
  - simpl. rewrite <- (app_nil_r t) at 1. rewrite split_from_app by done.
    simpl. by destruct t.
  - change (join (lit " ") (t :: t' :: toks))
      with (t ++ " "%char :: join (lit " ") (t' :: toks)).
    rewrite split_from_app by done. cbn [app split_from].
    change (isspace " ") with true. cbn iota.
    rewrite (IH Htoks'). by destruct t.
Qed.

Lemma Forall_filter_token (P : str → Prop) `{∀ t, Decision (P t)} toks :
  Forall token toks → Forall token (filter P toks).
Proof.
  rewrite !Forall_forall. intros Ht t Hin.
  apply list_elem_of_filter in Hin as [_ Hin]. by apply Ht.
Qed.

Lemma split_limpar_titulos nome :
  split (limpar_titulos nome) =
  filter (fun t => lower t ∉ TITULOS) (split nome).
Proof.
  unfold limpar_titulos. apply split_join, Forall_filter_token, split_tokens.
Qed.

(** C9 (amended). [limpar_titulos] removes every token that is a title
    (compared in lower case), wherever it stands, and keeps the other tokens
    in their order, joined by single spaces: the result is the join, with
    one space, of the kept tokens, which are its own tokens. *)
Theorem limpar_titulos_remove_todos (nome : str) :
  split (limpar_titulos nome) =
    filter (fun t => lower t ∉ TITULOS) (split nome)
  ∧ (∀ t, t ∈ split (limpar_titulos nome) ↔
          (t ∈ split nome) ∧ (lower t ∉ TITULOS))
  ∧ limpar_titulos nome = join (lit " ") (split (limpar_titulos nome))
  ∧ limpar_titulos nome =
    join (lit " ") (filter (fun t => lower t ∉ TITULOS) (split nome))
  ∧ Forall token (split (limpar_titulos nome)).
Proof.
  split; [apply split_limpar_titulos|]. split; [|split; [|split]].
  - intros t. rewrite split_limpar_titulos, list_elem_of_filter. tauto.
  - rewrite split_limpar_titulos. reflexivity.
  - reflexivity.
  - apply split_tokens.
Qed.

(** A title strictly inside the token sequence is removed as well. *)
Lemma limpar_titulos_interior :
  split (lit "Ana Dr. Souza") = [lit "Ana"; lit "Dr."; lit "Souza"]
  ∧ lower (lit "Dr.") ∈ TITULOS
  ∧ limpar_titulos (lit "Ana Dr. Souza") = lit "Ana Souza"
  ∧ lit "Dr." ∉ split (limpar_titulos (lit "Ana Dr. Souza")).
Proof.
  split; [by vm_compute|]. split; [by vm_compute|]. split; [by vm_compute|].
  rewrite split_limpar_titulos, list_elem_of_filter. intros [Hn _].
  apply Hn. by vm_compute.
Qed.

Lemma tokens_validos_iff toks :
  tokens_validos toks = true ↔ Forall token_aceito toks.
Proof.
  induction toks as [|tok toks IH]; cbn [tokens_validos].
  - split; [constructor|done].
  - rewrite Forall_cons, <- IH. unfold token_aceito.
    destruct (bool_decide_reflect (lower tok ∈ PREPOSICOES_NOME)) as [Hp|Hp];
      [tauto|].
    destruct (bool_decide_reflect (lower tok ∈ PALAVRAS_PROIBIDAS)) as [Hf|Hf].
    { split; [discriminate|]. tauto. }
    destruct (inicial_maiuscula tok); cbn [negb].
    + tauto.
    + split; [discriminate|]. intros [[?|[_ ?]] _]; [tauto|discriminate].
Qed.

Lemma nome_valido_iff nome :
  nome_valido nome = true ↔
  (2 ≤ length (split nome) ≤ 7)
  ∧ (lower (default [] (head (split nome))) ∉ PRONOMES)
  ∧ head (split nome) ≠ last (split nome)
  ∧ Forall token_aceito (split nome).
Proof.
  unfold nome_valido. cbv zeta.
  destruct (Nat.ltb (length (split nome)) 2 || Nat.ltb 7 (length (split nome)))
    eqn:Hlen.
  - apply orb_true_iff in Hlen. rewrite !Nat.ltb_lt in Hlen.
    split; [done|]. intros (? & _). lia.
  - apply orb_false_iff in Hlen. rewrite !Nat.ltb_ge in Hlen.
    rewrite <- tokens_validos_iff.
    destruct (bool_decide_reflect
                (lower (default [] (head (split nome))) ∈ PRONOMES)) as [Hp|Hp].
    { split; [discriminate|]. tauto. }
    destruct (bool_decide_reflect (head (split nome) = last (split nome)))
      as [He|He].
    { split; [discriminate|]. tauto. }
    split; [|tauto]. intros Ht. split; [lia|]. tauto.
Qed.

Lemma tokens_validos_sem_preposicoes toks :
  tokens_validos toks =
  tokens_validos (filter (fun t => lower t ∉ PREPOSICOES_NOME) toks).
Proof.
  induction toks as [|tok toks IH]; [done|].
  rewrite filter_cons. cbn [tokens_validos].
  destruct (bool_decide_reflect (lower tok ∈ PREPOSICOES_NOME)) as [Hp|Hp].
  - by rewrite decide_False by tauto.
  - rewrite decide_True by exact Hp. cbn [tokens_validos].
    rewrite (bool_decide_eq_false_2 (lower tok ∈ PREPOSICOES_NOME)) by exact Hp.
    rewrite IH. reflexivity.
Qed.

(** C8. In [nome_valido], a token whose lower-case form is a connector
    preposition passes the loop unchecked (the loop gives the same answer
    without such tokens); any other token that is a forbidden word in lower
    case, or does not start with an upper-case letter, makes the name
    invalid. *)
Theorem nome_valido_tokens (nome : str) :
  (nome_valido nome = true ↔
     (2 ≤ length (split nome) ≤ 7)
     ∧ (lower (default [] (head (split nome))) ∉ PRONOMES)
     ∧ head (split nome) ≠ last (split nome)
     ∧ ∀ tok, tok ∈ split nome →
         (lower tok ∈ PREPOSICOES_NOME)
         ∨ ((lower tok ∉ PALAVRAS_PROIBIDAS) ∧ inicial_maiuscula tok = true))
  ∧ (∀ tok, tok ∈ split nome → lower tok ∉ PREPOSICOES_NOME →
       (lower tok ∈ PALAVRAS_PROIBIDAS) ∨ inicial_maiuscula tok = false →
       nome_valido nome = false)
  ∧ tokens_validos (split nome) =
    tokens_validos
      (filter (fun t => lower t ∉ PREPOSICOES_NOME) (split nome)).
Proof.
  split; [|split; [|apply tokens_validos_sem_preposicoes]].
  - rewrite nome_valido_iff, Forall_forall. reflexivity.
  - intros tok Hin Hprep Hbad. apply not_true_is_false.
    rewrite nome_valido_iff, Forall_forall. intros (_ & _ & _ & Hall).
    destruct (Hall tok Hin) as [Hp|[Hnp Hup]]; [exact (Hprep Hp)|].
    destruct Hbad as [Hb|Hb]; [exact (Hnp Hb)|].
    rewrite Hup in Hb. discriminate Hb.
Qed.

Example nome_com_preposicao : nome_valido (lit "Maria da Silva") = true.
Proof. by vm_compute. Qed.

Example nome_com_palavra_proibida :
  nome_valido (lit "Maria Associa" ++ [chr 231; chr 227] ++ lit "o Silva") = false
  ∧ nome_valido (lit "Maria dos Santos e Silva") = true.
Proof. split; by vm_compute. Qed.

(** ** The matcher *)

Lemma eat_sound ok st k res :
  eat ok st k = Some res → ∃ st', step ok st st' ∧ k st' = Some res.
Proof.
  unfold eat, step. destruct (m_rest st) as [|a rest'] eqn:Hr; [done|].
  destruct (ok a) eqn:Ha; [|done]. intros Hk. eauto 10.
Qed.

Lemma rep_greedy_sound p k res rest :
  ∀ lo hi prev used grp,
  rep_greedy p lo hi k prev rest used grp = Some res →
  ∃ st', rep p lo hi (MState prev rest used grp) st' ∧ k st' = Some res.
Proof.
  assert (Hstop : ∀ lo hi st,
    match lo with 0 => k st | S _ => None end = Some res →
    ∃ st', rep p lo hi st st' ∧ k st' = Some res).
  { intros [|lo] hi st H; [|done]. exists st. split; [constructor|done]. }
  induction rest as [|c rest IH]; intros lo hi prev used grp; simpl.
  - apply Hstop.
  - destruct (p c && hi_allows hi) eqn:Hc; [|apply Hstop].
    apply andb_true_iff in Hc as [Hpc Hhi].
    destruct (rep_greedy p (pred lo) (pred <$> hi) k (Some c) rest (S used) grp)
      as [r|] eqn:Hrec; [|apply Hstop].
    intros [= ->]. destruct (IH _ _ _ _ _ Hrec) as (st' & Hrep & Hk).
    exists st'. split; [|done].
    eapply rep_more; [|done|exact Hrep]. by exists c, rest.
Qed.

(** A successful run went along a path of [matches] to a state the
    continuation accepted. *)
Lemma run_sound r :
  ∀ st k res, run r st k = Some res →
  ∃ st', matches r st st' ∧ k st' = Some res.
Proof.
  induction r as [|c|c|p| |r1 IH1 r2 IH2|r1 IH1 r2 IH2|r1 IH1|p lo hi|r1 IH1];
    intros st k res; simpl.
  - eauto.
  - apply eat_sound.
  - apply eat_sound.
  - apply eat_sound.
  - destruct (at_boundary _ _) eqn:Hb; [|done]. eauto.
  - intros H. apply IH1 in H as (st1 & H1 & H). apply IH2 in H as (st' & H2 & H).
    eauto.
  - destruct (run r1 st k) eqn:H1.
    + intros [= ->]. apply IH1 in H1 as (st' & ? & ?). eauto.
    + intros H. apply IH2 in H as (st' & ? & ?). eauto.
  - destruct (run r1 st k) eqn:H1.
    + intros [= ->]. apply IH1 in H1 as (st' & ? & ?). eauto.
    + eauto.
  - intros H. destruct st as [prev rest used grp].
    by apply rep_greedy_sound in H.
  - intros H. apply IH1 in H as (st1 & H1 & H). eauto.
Qed.

Lemma consumed_refl P st : consumed P st st.
Proof. exists []. simpl. split; [done|]. split; [lia|constructor]. Qed.

Lemma consumed_trans P st1 st2 st3 :
  consumed P st1 st2 → consumed P st2 st3 → consumed P st1 st3.
Proof.
  intros (w1 & H1 & U1 & F1) (w2 & H2 & U2 & F2). exists (w1 ++ w2).
  rewrite H1, H2, <- app_assoc, length_app. split; [done|].
  split; [lia|]. by apply Forall_app.
Qed.

Lemma consumed_weaken (P Q : ascii → Prop) st st' :
  (∀ a, P a → Q a) → consumed P st st' → consumed Q st st'.
Proof.
  intros HPQ (w & H & U & F). exists w. split; [done|]. split; [done|].
  eapply Forall_impl; eauto.
Qed.

Lemma step_consumed ok st st' :
  step ok st st' → consumed (fun a => ok a = true) st st'.
Proof.
  intros (a & rest' & Hr & Ha & ->). exists [a]. simpl.
  split; [done|]. split; [lia|]. by constructor.
Qed.

Lemma rep_consumed p lo hi st st' :
  rep p lo hi st st' → consumed (fun a => p a = true) st st'.
Proof.
  induction 1 as [|lo hi st st1 st' Hs _ _ IH]; [apply consumed_refl|].
  eapply consumed_trans; [by apply step_consumed|done].
Qed.

Lemma matches_consumed r :
  ∀ st st', matches r st st' →
  consumed (fun a => accepts r a = true) st st'.
Proof.
  induction r as [|c|c|p| |r1 IH1 r2 IH2|r1 IH1 r2 IH2|r1 IH1|p lo hi|r1 IH1];
    intros st st'; simpl.
  - intros ->. apply consumed_refl.
  - apply step_consumed.
  - apply step_consumed.
  - apply step_consumed.
  - intros [_ ->]. apply consumed_refl.
  - intros (st1 & H1 & H2). eapply consumed_trans.
    + eapply consumed_weaken; [|by apply IH1]. intros a ->. done.
    + eapply consumed_weaken; [|by apply IH2]. intros a ->. by rewrite orb_true_r.
  - intros [H|H].
    + eapply consumed_weaken; [|by apply IH1]. intros a ->. done.
    + eapply consumed_weaken; [|by apply IH2]. intros a ->. by rewrite orb_true_r.
  - intros [H| ->]; [by apply IH1|apply consumed_refl].
  - apply rep_consumed.
  - intros (st1 & H1 & ->). destruct (IH1 _ _ H1) as (w & ? & ? & ?).
    by exists w.
Qed.

(** Single characters and repetitions leave the group span alone. *)
Lemma step_group ok st st' : step ok st st' → m_group st' = m_group st.
Proof. by intros (a & rest' & _ & _ & ->). Qed.

Lemma rep_group p lo hi st st' : rep p lo hi st st' → m_group st' = m_group st.
Proof.
  induction 1 as [|lo hi st st1 st' Hs _ _ IH]; [done|].
  rewrite IH. by eapply step_group.
Qed.

(** *** What the scan returns *)

(** Every match object of the scan is a successful attempt at some position
    of the text. *)
Lemma elem_of_scan r rest :
  ∀ prev pos skip m, m ∈ scan r prev pos rest skip →
  ∃ i prev' n g, i ≤ length rest
    ∧ match_here r prev' (drop i rest) = Some (n, g)
    ∧ m = RMatch (pos + i) (pos + i + n) (shift_span (pos + i) g).
Proof.
  induction rest as [|c rest IH]; intros prev pos skip m.
  - destruct skip as [|skip]; simpl; [|by intros H; inversion H].
    destruct (match_here r prev []) as [[n g]|] eqn:Hm; [|by intros H; inversion H].
    intros H. apply list_elem_of_singleton in H as ->.
    exists 0, prev, n, g. rewrite !Nat.add_0_r. by split; [simpl; lia|].
  - assert (Htail : ∀ prev' skip', m ∈ scan r prev' (S pos) rest skip' →
      ∃ i prev' n g, i ≤ length (c :: rest)
        ∧ match_here r prev' (drop i (c :: rest)) = Some (n, g)
        ∧ m = RMatch (pos + i) (pos + i + n) (shift_span (pos + i) g)).
    { intros prev' skip' H. apply IH in H as (i & p & n & g & Hi & Hm & ->).
      exists (S i), p, n, g. simpl. split; [lia|]. split; [done|].
      by replace (pos + S i) with (S pos + i) by lia. }
    destruct skip as [|skip]; simpl; [|apply Htail].
    destruct (match_here r prev (c :: rest)) as [[n g]|] eqn:Hm; [|apply Htail].
    intros H. apply elem_of_cons in H as [->|H]; [|by eapply Htail].
    exists 0, prev, n, g. rewrite !Nat.add_0_r. by split; [simpl; lia|].
Qed.

Lemma match_here_sound r prev rest n g :
  match_here r prev rest = Some (n, g) →
  ∃ st', matches r (MState prev rest 0 None) st'
    ∧ n = m_used st' ∧ g = m_group st'.
Proof.
  unfold match_here. destruct (run r _ Some) as [st|] eqn:Hrun; [|done].
  intros [= <- <-]. apply run_sound in Hrun as (st' & Hm & [= ->]). eauto.
Qed.

Lemma slice_drop i n (s : str) : slice i (i + n) s = take n (drop i s).
Proof. unfold slice. f_equal. lia. Qed.

(** Without a capturing group, [findall] returns pieces of the text made of
    characters the pattern accepts. *)
Lemma findall_accepts r text c :
  has_group r = false → c ∈ findall r text →
  Forall (fun a => accepts r a = true) c.
Proof.
  intros Hg Hc. unfold findall in Hc. rewrite Hg in Hc.
  apply list_elem_of_fmap in Hc as (m & -> & Hm).
  apply elem_of_scan in Hm as (i & prev & n & g & _ & Hm & ->). simpl.
  apply match_here_sound in Hm as (st' & Hm & -> & _).
  apply matches_consumed in Hm as (w & Hw & Hu & Hall). simpl in Hw, Hu.
  rewrite Hu, slice_drop, Hw. by rewrite take_app_length.
Qed.

(** Every match of [RG] is written with digits, dots, hyphens and [X]/[x],
    so as a pattern its only metacharacter is the dot. *)
Lemma findall_RG_alfabeto text c :
  c ∈ findall RG text →
  Forall (fun a => re_digit a = true ∨ a ∈ lit ".-Xx") c.
Proof.
  intros Hc. apply findall_accepts in Hc; [|done].
  eapply Forall_impl; [exact Hc|]. intros a. cbn [accepts RG cat foldr digits].
  unfold d09, one_of, re_digit.
  rewrite !orb_true_iff, !bool_decide_eq_true.
  change (lit ".-Xx") with ["."%char; "-"%char; "X"%char; "x"%char].
  change (lit "Xx") with ["X"%char; "x"%char].
  rewrite !elem_of_cons, !elem_of_nil. intuition congruence.
Qed.

(** ** Addresses *)

Lemma QUADRA_LOTE_grupo_sem_digito a :
  accepts QUADRA_LOTE_grupo a = true → isdigit a = false.
Proof.
  destruct a as [[] [] [] [] [] [] [] []]; vm_compute; congruence.
Qed.

Lemma existsb_Forall_false {A} (f : A → bool) l :
  Forall (fun a => f a = false) l → existsb f l = false.
Proof. induction 1 as [|a l Ha _ IH]; simpl; [done|]. by rewrite Ha, IH. Qed.

Lemma findall_QUADRA_LOTE_sem_digito text e :
  e ∈ findall QUADRA_LOTE text → existsb isdigit e = false.
Proof.
  unfold findall. change (has_group QUADRA_LOTE) with true. cbv iota.
  intros He. apply list_elem_of_fmap in He as (m & -> & Hm).
  apply elem_of_scan in Hm as (i & prev & n & g & _ & Hm & ->).
  cbn [m_span1]. apply match_here_sound in Hm as (st' & Hm & _ & ->).
  unfold QUADRA_LOTE, cat in Hm. cbn [foldr matches] in Hm.
  destruct Hm as (st1 & [_ ->] & st2 & (s & Hs & ->) & st3 & H3 & st4 & H4
                    & st5 & [_ ->] & ->).
  apply rep_group in H3, H4. rewrite H4, H3.
  cbn [m_group m_used shift_span fmap option_fmap option_map].
  apply matches_consumed in Hs as (w & Hw & Hu & Hall).
  cbn [m_rest m_used] in Hw, Hu. rewrite Hu. cbn [Nat.add].
  rewrite Nat.add_0_r, slice_drop, Hw, take_app_length.
  apply existsb_Forall_false.
  eapply Forall_impl; [exact Hall|]. apply QUADRA_LOTE_grupo_sem_digito.
Qed.

Lemma endereco_valido_sem_digito e :
  existsb isdigit e = false → endereco_valido e = false.
Proof. unfold endereco_valido. intros ->. apply andb_false_r. Qed.

Lemma elem_of_extract_endereco text e :
  e ∈ extract_endereco text ↔
  (e ∈ findall LOGRADOURO text ∨ e ∈ findall QUADRA_LOTE text)
  ∧ endereco_valido e = true.
Proof.
  unfold extract_endereco.
  rewrite list_elem_of_In, List.filter_In, <- list_elem_of_In.
  by rewrite elem_of_elements, elem_of_list_to_set, elem_of_app.
Qed.

(** ** The national ID *)

Lemma last_or_cons prev c w : last_or (Some c) w = last_or prev (c :: w).
Proof. unfold last_or. rewrite last_cons. by destruct (last w). Qed.

(** The greedy repetition reads a whole run of [n] characters when it may
    take no more than [n] and the rest of the pattern then succeeds. *)
Lemma rep_greedy_take p k res rest grp w :
  ∀ lo n prev used,
  Forall (fun a => p a = true) w → length w = n → lo ≤ n →
  k (MState (last_or prev w) rest (used + n) grp) = Some res →
  rep_greedy p lo (Some n) k prev (w ++ rest) used grp = Some res.
Proof.
  induction w as [|c w IH]; intros lo n prev used Hw Hn Hlo Hk.
  - simpl in Hn. subst n. assert (lo = 0) as -> by lia.
    rewrite Nat.add_0_r in Hk. unfold last_or in Hk. simpl in Hk.
    destruct rest; simpl; [done|]. by rewrite andb_false_r.
  - simpl in Hn. subst n. inversion Hw as [|? ? Hc Hw']; subst. simpl.
    rewrite Hc. simpl.
    rewrite (IH (pred lo) (length w) (Some c) (S used) Hw' eq_refl); [done|lia|].
    rewrite last_or_cons with (prev := prev).
    by replace (S used + length w) with (used + S (length w)) by lia.
Qed.

(** An optional character is read when it is there and the rest of the
    pattern then succeeds. *)
Lemma opt_take ok k prev c rest used grp res (other : option mstate) :
  ok c = true → k (MState (Some c) rest (S used) grp) = Some res →
  match eat ok (MState prev (c :: rest) used grp) k with
  | Some m => Some m
  | None => other
  end = Some res.
Proof. intros Hc Hk. unfold eat. simpl. by rewrite Hc, Hk. Qed.

Lemma re_digit_word a : re_digit a = true → re_word a = true.
Proof. unfold re_digit, re_word. by intros ->. Qed.

Lemma cpf_agrupado_app a b c d post :
  cpf_agrupado a b c d ++ post =
  a ++ "."%char :: (b ++ "."%char :: (c ++ "-"%char :: (d ++ post))).
Proof.
  unfold cpf_agrupado.
  by rewrite <- !app_assoc, <- !app_comm_cons, <- !app_assoc,
    <- !app_comm_cons, <- !app_assoc, <- !app_comm_cons.
Qed.

Lemma digitos_primeiro n w rest :
  digitos (S n) w → word_at (head (w ++ rest)) = true.
Proof.
  intros [Hl Hw]. destruct w as [|x w]; [done|].
  inversion Hw as [|? ? Hx _]; subst. simpl. by apply re_digit_word.
Qed.

Lemma last_or_digitos prev w :
  w ≠ [] → Forall (fun a => re_digit a = true) w →
  word_at (last_or prev w) = true.
Proof.
  intros Hne Hw. unfold last_or.
  destruct (last w) as [x|] eqn:Hlast.
  - apply last_Some in Hlast as (w' & ->).
    apply Forall_app in Hw as [_ Hx]. inversion Hx; subst.
    simpl. by apply re_digit_word.
  - by apply last_None in Hlast.
Qed.

Lemma digitos_ultimo n w prev :
  digitos (S n) w → word_at (last_or prev w) = true.
Proof.
  intros [Hl Hw]. apply last_or_digitos; [|done]. by intros ->.
Qed.

Ltac ler_digitos :=
  apply rep_greedy_take; [by eapply proj2|by eapply proj1|lia|];
  cbv beta; cbn [m_prev m_rest m_used m_group].

Ltac ler_sinal :=
  apply opt_take; [by apply bool_decide_eq_true_2|];
  cbv beta; cbn [m_prev m_rest m_used m_group].

(** [CPF] matches a grouped ID that stands between non-word characters. *)
Lemma match_here_CPF_agrupado prev a b c d post :
  digitos 3 a → digitos 3 b → digitos 3 c → digitos 2 d →
  word_at prev = false → word_at (head post) = false →
  match_here CPF prev (cpf_agrupado a b c d ++ post) = Some (14, None).
Proof.
  intros Ha Hb Hc Hd Hprev Hpost.
  assert (Hrun :
    run CPF (MState prev (cpf_agrupado a b c d ++ post) 0 None) Some
    = Some (MState (last_or (Some "-"%char) d) post 14 None)).
  2:{ unfold match_here. by rewrite Hrun. }
  rewrite cpf_agrupado_app. unfold CPF, cat, digits.
  cbn [foldr run m_prev m_rest m_used m_group].
  unfold at_boundary at 1.
  rewrite Hprev, (digitos_primeiro 2 a _ Ha). cbn [xorb].
  ler_digitos. ler_sinal. ler_digitos. ler_sinal. ler_digitos. ler_sinal.
  ler_digitos.
  unfold at_boundary. rewrite Hpost, (digitos_ultimo 1 d _ Hd). done.
Qed.

Lemma scan_primeiro r prev pos c rest n g :
  match_here r prev (c :: rest) = Some (n, g) →
  RMatch pos (pos + n) (shift_span pos g) ∈ scan r prev pos (c :: rest) 0.
Proof. intros Hm. cbn [scan]. rewrite Hm. by left. Qed.

(** *** The shape of a match of [CPF] *)

Lemma rep_digitos p lo hi st st' :
  rep p lo hi st st' →
  ∃ w, m_rest st = w ++ m_rest st'
    ∧ m_used st' = m_used st + length w
    ∧ Forall (fun a => p a = true) w
    ∧ lo ≤ length w ∧ (∀ h, hi = Some h → length w ≤ h)
    ∧ m_prev st' = last_or (m_prev st) w.
Proof.
  induction 1 as [hi st|lo hi st st1 st' Hs Hhi _ IH].
  - exists []. simpl. repeat split; try done; lia.
  - destruct Hs as (a & rest' & Hr & Ha & ->).
    destruct IH as (w & Hw & Hu & Hall & Hlo & Hh & Hp).
    simpl in Hw, Hu, Hp. exists (a :: w). simpl.
    rewrite Hr, Hw, Hu. split; [done|]. split; [lia|].
    split; [by constructor|]. split; [lia|]. split.
    + intros h ->. destruct h as [|h]; [done|].
      specialize (Hh h eq_refl). lia.
    + rewrite Hp. apply last_or_cons.
Qed.

Lemma sinal_passo x st st' :
  step (fun a => bool_decide (a = x)) st st' ∨ st' = st →
  ∃ s, sinal x s ∧ m_rest st = s ++ m_rest st'
    ∧ m_used st' = m_used st + length s
    ∧ m_prev st' = last_or (m_prev st) s.
Proof.
  intros [(a & rest' & Hr & Ha & ->)| ->].
  - apply bool_decide_eq_true in Ha as ->. exists [x]. simpl.
    split; [by right|]. rewrite Hr. split; [done|]. split; [lia|done].
  - exists []. simpl. split; [by left|]. split; [done|]. split; [lia|done].
Qed.

Lemma match_here_CPF_forma prev text n g :
  match_here CPF prev text = Some (n, g) →
  ∃ w rest, text = w ++ rest ∧ n = length w ∧ forma_cpf w rest.
Proof.
  intros Hm. apply match_here_sound in Hm as (st' & Hm & -> & _).
  unfold CPF, cat, digits in Hm. cbn [foldr matches] in Hm.
  destruct Hm as (st1 & [_ ->] & st2 & H1 & st3 & S1 & st4 & H2 & st5 & S2
                    & st6 & H3 & st7 & S3 & st8 & H4 & st9 & [Hb ->] & ->).
  apply rep_digitos in H1 as (w1 & R1 & U1 & F1 & L1 & M1 & _).
  apply sinal_passo in S1 as (s1 & Hs1 & R2 & U2 & _).
  apply rep_digitos in H2 as (w2 & R3 & U3 & F2 & L2 & M2 & _).
  apply sinal_passo in S2 as (s2 & Hs2 & R4 & U4 & _).
  apply rep_digitos in H3 as (w3 & R5 & U5 & F3 & L3 & M3 & _).
  apply sinal_passo in S3 as (s3 & Hs3 & R6 & U6 & _).
  apply rep_digitos in H4 as (w4 & R7 & U7 & F4 & L4 & M4 & P4).
  simpl in R1, U1.
  exists (w1 ++ s1 ++ w2 ++ s2 ++ w3 ++ s3 ++ w4), (m_rest st8).
  split; [|split].
  - rewrite R1, R2, R3, R4, R5, R6, R7. by rewrite <- !app_assoc.
  - rewrite U7, U6, U5, U4, U3, U2, U1, !length_app. lia.
  - exists w1, s1, w2, s2, w3, s3, w4.
    specialize (M1 3 eq_refl). specialize (M2 3 eq_refl).
    specialize (M3 3 eq_refl). specialize (M4 2 eq_refl).
    repeat split; try done; try lia.
    unfold at_boundary in Hb. rewrite P4 in Hb.
    rewrite last_or_digitos in Hb; [|by destruct w4; simpl in L4; [lia|]|done].
    by destruct (word_at (head (m_rest st8))).
Qed.

(** *** A match of [CPF] does not run over a non-word character into a
    grouped ID *)

Lemma digitos_antes (l1 l2 q u : str) (cl : ascii) :
  Forall (fun a => re_digit a = true) l1 → re_digit cl = false →
  l1 ++ l2 = q ++ cl :: u →
  ∃ q', q = l1 ++ q' ∧ l2 = q' ++ cl :: u.
Proof.
  intros Hl Hcl. revert q. induction Hl as [|x l1 Hx _ IH]; intros q Heq.
  - by exists q.
  - destruct q as [|y q]; simpl in Heq; injection Heq as -> Heq.
    + congruence.
    + destruct (IH q Heq) as (q' & -> & ->). by exists q'.
Qed.

Lemma sinal_antes x (s l2 q u : str) (cl : ascii) :
  sinal x s → s ++ l2 = q ++ cl :: u →
  (s = [] ∧ l2 = q ++ cl :: u)
  ∨ (s = [x] ∧ q = [] ∧ x = cl ∧ l2 = u)
  ∨ (s = [x] ∧ ∃ q', q = x :: q' ∧ l2 = q' ++ cl :: u).
Proof.
  intros [-> | ->] Heq; [by left|]. right.
  destruct q as [|y q]; simpl in Heq; injection Heq as -> Heq.
  - by left.
  - right. split; [done|]. by exists q.
Qed.

Lemma digitos_mesmo_prefixo n (w x l1 l2 : str) :
  digitos n w → digitos n x → w ++ l1 = x ++ l2 → w = x ∧ l1 = l2.
Proof.
  intros [Lw _] [Lx _] Heq. apply app_inj_1 in Heq; [done|congruence].
Qed.

Lemma digito_nao_ponto (w l : str) (x : ascii) (l' : str) :
  Forall (fun a => re_digit a = true) w → w ≠ [] → re_digit x = false →
  w ++ l = x :: l' → False.
Proof.
  intros Hw Hne Hx Heq. destruct w as [|y w]; [done|].
  injection Heq as -> _. inversion Hw; subst. congruence.
Qed.

(** After a group of three digits of the ID comes a dot, which the end of
    the pattern, [\d{3}-?\d{1,2}], cannot read. *)
Lemma final_impossivel (w3 s3 w4 rest x y : str) :
  digitos 3 w3 → sinal "-" s3 →
  Forall (fun a => re_digit a = true) w4 → w4 ≠ [] →
  digitos 3 x →
  w3 ++ s3 ++ w4 ++ rest = x ++ "."%char :: y → False.
Proof.
  intros H3 Hs3 H4 Hne Hx Heq.
  apply (digitos_mesmo_prefixo 3) in Heq as [_ Heq]; [|done|done].
  destruct Hs3 as [-> | ->]; simpl in Heq.
  - by apply (digito_nao_ponto w4 rest "." y).
  - discriminate Heq.
Qed.

Lemma forma_cpf_nao_cruza (q : str) (cl : ascii) a b c d post w rest :
  re_word cl = false →
  digitos 3 a → digitos 3 b → digitos 3 c → digitos 2 d →
  w ++ rest = q ++ cl :: cpf_agrupado a b c d ++ post →
  forma_cpf w rest → length w ≤ length q.
Proof.
  intros Hcl Ha Hb Hc Hd Heq
    (w1 & s1 & w2 & s2 & w3 & s3 & w4 & -> & H1 & Hs1 & H2 & Hs2 & H3 & Hs3
       & L4 & F4 & Hrest).
  assert (Hdig : re_digit cl = false).
  { destruct (re_digit cl) eqn:E; [|done]. apply re_digit_word in E. congruence. }
  assert (N4 : w4 ≠ []) by (intros ->; simpl in L4; lia).
  rewrite cpf_agrupado_app in Heq. rewrite <- !app_assoc in Heq.
  apply digitos_antes in Heq as (q1 & -> & Heq); [|apply H1|done].
  apply (sinal_antes "." s1) in Heq
    as [[-> Heq]|[(-> & -> & <- & Heq)|(-> & q1' & -> & Heq)]]; [| | |done].
  2:{ (* the first separator reads [cl] *)
      apply (digitos_mesmo_prefixo 3) in Heq as [_ Heq]; [|done|done].
      destruct Hs2 as [-> | ->]; simpl in Heq.
      - destruct H3 as [L3 F3].
        apply (digito_nao_ponto w3 _ "." _ F3) in Heq; [done| |done].
        intros ->. discriminate L3.
      - injection Heq as Heq. by apply final_impossivel in Heq. }
  all: apply digitos_antes in Heq as (q2 & -> & Heq); [|apply H2|done].
  all: apply (sinal_antes "." s2) in Heq
         as [[-> Heq]|[(-> & -> & <- & Heq)|(-> & q2' & -> & Heq)]];
         [| | |done].
  all: try (by apply final_impossivel in Heq).
  all: apply digitos_antes in Heq as (q3 & -> & Heq); [|apply H3|done].
  all: apply (sinal_antes "-" s3) in Heq
         as [[-> Heq]|[(-> & -> & <- & Heq)|(-> & q3' & -> & Heq)]];
         [| | |done].
  all: try (exfalso; destruct Ha as [La Fa];
            destruct a as [|a1 [|a2 [|a3 [|? ?]]]]; try discriminate La;
            inversion Fa as [|? ? _ Fa']; subst;
            inversion Fa' as [|? ? Ha2 Fa'']; subst;
            inversion Fa'' as [|? ? Ha3 _]; subst;
            destruct w4 as [|x [|y [|? ?]]]; simpl in L4; try lia;
            simpl in Heq; injection Heq as _ Heq; subst;
            simpl in Hrest;
            first [ rewrite (re_digit_word _ Ha2) in Hrest
                  | rewrite (re_digit_word _ Ha3) in Hrest ];
            discriminate Hrest).
  all: apply digitos_antes in Heq as (q4 & -> & Heq); [|done|done].
  all: repeat (rewrite ?length_app, ?length_cons); simpl; lia.
Qed.

(** Matches that start inside a prefix [p] and end inside it leave the scan
    of the rest of the text as it would be on its own. *)
Lemma scan_prefixo r t p :
  ∀ prev pos skip, skip ≤ length p →
  (∀ i prev' n g, i < length p →
     match_here r prev' (drop i p ++ t) = Some (n, g) → i + n ≤ length p) →
  ∀ m, m ∈ scan r (last_or prev p) (pos + length p) t 0 →
       m ∈ scan r prev pos (p ++ t) skip.
Proof.
  induction p as [|c p IH]; intros prev pos skip Hskip Hin m Hm.
  - simpl in Hskip. assert (skip = 0) as -> by lia.
    simpl. by rewrite Nat.add_0_r in Hm.
  - assert (Hin' : ∀ i prev' n g, i < length p →
       match_here r prev' (drop i p ++ t) = Some (n, g) → i + n ≤ length p).
    { intros i prev' n g Hi Hmi.
      specialize (Hin (S i) prev' n g). simpl in Hin.
      specialize (Hin ltac:(lia) Hmi). lia. }
    rewrite <- last_or_cons with (prev := prev) in Hm.
    replace (pos + length (c :: p)) with (S pos + length p) in Hm
      by (simpl; lia).
    change ((c :: p) ++ t) with (c :: (p ++ t)). simpl in Hskip.
    destruct skip as [|skip]; cbn [scan].
    + destruct (match_here r prev (c :: p ++ t)) as [[n g]|] eqn:Hc.
      * right. apply IH; [|done|done].
        specialize (Hin 0 prev n g). simpl in Hin.
        specialize (Hin ltac:(lia) Hc). lia.
      * apply IH; [lia|done|done].
    + apply IH; [lia|done|done].
Qed.

Lemma findall_CPF_agrupado pre a b c d post :
  digitos 3 a → digitos 3 b → digitos 3 c → digitos 2 d →
  word_at (last pre) = false → word_at (head post) = false →
  cpf_agrupado a b c d ∈ findall CPF (pre ++ cpf_agrupado a b c d ++ post).
Proof.
  intros Ha Hb Hc Hd Hlast Hpost.
  pose proof (match_here_CPF_agrupado (last_or None pre) a b c d post
                Ha Hb Hc Hd) as Hm.
  assert (Hlen : length (cpf_agrupado a b c d) = 14).
  { unfold cpf_agrupado.
    destruct Ha as [La _], Hb as [Lb _], Hc as [Lc _], Hd as [Ld _].
    repeat (rewrite ?length_app, ?length_cons). lia. }
  unfold findall. change (has_group CPF) with false. cbv iota.
  apply list_elem_of_fmap.
  exists (RMatch (length pre) (length pre + 14) None). split.
  - cbn [m_start m_end]. rewrite slice_drop, drop_app_length.
    by rewrite <- Hlen, take_app_length.
  - unfold finditer.
    apply (scan_prefixo CPF _ pre None 0 0); [lia| |].
    + intros i prev' n g Hi Hmi.
      destruct (last pre) as [cl|] eqn:Hcl;
        [|apply last_None in Hcl as ->; simpl in Hi; lia].
      apply last_Some in Hcl as [pre0 ->]. simpl in Hlast.
      rewrite length_app in Hi |- *. simpl in Hi |- *.
      rewrite drop_app_le in Hmi by lia.
      rewrite <- app_assoc in Hmi. simpl in Hmi.
      apply match_here_CPF_forma in Hmi as (w & rest & Heq & -> & Hf).
      symmetry in Heq.
      pose proof (forma_cpf_nao_cruza _ cl a b c d post w rest
                    Hlast Ha Hb Hc Hd Heq Hf) as Hle.
      rewrite length_drop in Hle. lia.
    + cbn [Nat.add].
      destruct (cpf_agrupado a b c d ++ post) as [|x rest] eqn:Hx.
      { apply (f_equal length) in Hx. rewrite length_app, Hlen in Hx.
        simpl in Hx. lia. }
      apply (scan_primeiro CPF _ (length pre) x rest 14 None).
      apply Hm; [|done]. unfold last_or. by destruct (last pre).
Qed.

Lemma so_digitos_digitos_id w :
  Forall (fun a => re_digit a = true) w → so_digitos w = w.
Proof.
  unfold so_digitos. induction 1 as [|a w Ha _ IH]; simpl; [done|].
  by rewrite Ha, IH.
Qed.

Lemma so_digitos_app u v : so_digitos (u ++ v) = so_digitos u ++ so_digitos v.
Proof. unfold so_digitos. apply List.filter_app. Qed.

Lemma so_digitos_cpf_agrupado a b c d :
  digitos 3 a → digitos 3 b → digitos 3 c → digitos 2 d →
  so_digitos (cpf_agrupado a b c d) = a ++ b ++ c ++ d
  ∧ length (so_digitos (cpf_agrupado a b c d)) = 11.
Proof.
  intros [La Ha] [Lb Hb] [Lc Hc] [Ld Hd].
  assert (Heq : so_digitos (cpf_agrupado a b c d) = a ++ b ++ c ++ d).
  { unfold cpf_agrupado.
    change ("."%char :: b ++ "."%char :: c ++ "-"%char :: d)
      with (["."%char] ++ b ++ ["."%char] ++ c ++ ["-"%char] ++ d).
    rewrite !so_digitos_app.
    rewrite (so_digitos_digitos_id a), (so_digitos_digitos_id b),
      (so_digitos_digitos_id c), (so_digitos_digitos_id d) by done.
    done. }
  split; [done|]. rewrite Heq, !length_app. lia.
Qed.

(** ** The pipeline *)

Lemma elem_of_extract pattern text c :
  c ∈ extract pattern text ↔ c ∈ findall pattern text.
Proof. unfold extract. by rewrite elem_of_elements, elem_of_list_to_set. Qed.

Lemma elem_of_List_filter {A} (f : A → bool) l x :
  x ∈ List.filter f l ↔ x ∈ l ∧ f x = true.
Proof. by rewrite !list_elem_of_In, List.filter_In. Qed.

Lemma rg_valido_iff rg text :
  rg_valido rg text = true ↔
  (7 ≤ length (so_digitos rg) ≤ 9)
  ∧ ∃ m, m ∈ finditer (pattern_of rg) text
      ∧ janela_tem_palavra text m = true.
Proof.
  unfold rg_valido.
  destruct (Nat.leb 7 (length (so_digitos rg))
            && Nat.leb (length (so_digitos rg)) 9) eqn:Hlen; cbn [negb].
  - apply andb_true_iff in Hlen as [H7 H9]. apply Nat.leb_le in H7, H9.
    rewrite existsb_exists. split.
    + intros (m & Hm & Hj). split; [lia|]. exists m. by rewrite list_elem_of_In.
    + intros (_ & m & Hm & Hj). exists m. by rewrite <- list_elem_of_In.
  - split; [done|]. intros [[H7 H9] _].
    apply andb_false_iff in Hlen as [H|H]; apply Nat.leb_gt in H; lia.
Qed.

Section ComReconhecedor.

(** The entity recogniser: for a text, its spans as pairs (text, label). *)
Variable ner : str → list (str * str).

Lemma pii_get_detect_pii text (k : str) :
  k ≠ lit "nome" →
  pii_get (detect_pii ner text) k =
  pii_get (resolver_conflitos (extract_all (normalize text))) k.
Proof.
  intros Hk. unfold detect_pii, pii_get. by rewrite lookup_insert_ne.
Qed.

Lemma cpf_detect_pii text c :
  c ∈ pii_get (detect_pii ner text) (lit "cpf") ↔
  c ∈ findall CPF (normalize text) ∧ cpf_formato_valido c = true.
Proof.
  rewrite pii_get_detect_pii by chaves.
  rewrite (resolver_membros _ 0 (lit "cpf")) by done.
  unfold extract_all, pii_get at 1.
  rewrite !(lookup_insert_ne _ _ (lit "cpf")) by chaves.
  rewrite lookup_insert_eq. cbn [default from_option id].
  rewrite elem_of_List_filter, elem_of_extract.
  split; [tauto|]. intros H. split; [done|]. intros j c' Hj. lia.
Qed.

Lemma endereco_detect_pii text e :
  e ∈ pii_get (detect_pii ner text) (lit "endereco") →
  e ∈ extract_endereco (normalize text).
Proof.
  rewrite pii_get_detect_pii by chaves.
  rewrite (resolver_membros _ 3 (lit "endereco")) by done.
  unfold extract_all, pii_get at 1. rewrite lookup_insert_eq.
  cbn [default from_option id]. tauto.
Qed.

Lemma classificar_pedido_nao_publico text k v :
  k ∈ CHAVES → v ∈ pii_get (detect_pii ner text) k →
  classificar_pedido (detect_pii ner text) = Some NAO_PUBLICO.
Proof.
  intros Hk Hv.
  destruct (classificar_pedido_completo (detect_pii ner text)) as (Hn & _).
  { intros k'. apply detect_pii_chaves. }
  apply Hn. exists k. split; [done|]. intros E. rewrite E in Hv.
  by inversion Hv.
Qed.

Lemma cpf_em_detect_pii text c :
  c ∈ findall CPF (normalize text) → length (so_digitos c) = 11 →
  c ∈ pii_get (detect_pii ner text) (lit "cpf")
  ∧ classificar_pedido (detect_pii ner text) = Some NAO_PUBLICO.
Proof.
  intros Hc Hlen.
  assert (Hin : c ∈ pii_get (detect_pii ner text) (lit "cpf")).
  { apply cpf_detect_pii. split; [done|]. unfold cpf_formato_valido.
    by apply Nat.eqb_eq. }
  split; [done|].
  apply (classificar_pedido_nao_publico _ (lit "cpf") c); [|done].
  unfold CHAVES. by left.
Qed.

(** C2 (amended). Whenever the national-ID pattern matches in the normalised
    text a substring with 11 digits, the cpf list of the mapping holds that
    substring as it is written in the text, and the verdict is
    "NÃO PÚBLICO".  This is the case of every ID in grouped format
    [ddd.ddd.ddd-dd] that stands between non-word characters or the ends of
    the text. *)
Theorem cpf_detectado (text : str) :
  (∀ c, c ∈ findall CPF (normalize text) → length (so_digitos c) = 11 →
     c ∈ pii_get (detect_pii ner text) (lit "cpf")
     ∧ classificar_pedido (detect_pii ner text) = Some NAO_PUBLICO)
  ∧ (∀ pre a b c d post,
       normalize text = pre ++ cpf_agrupado a b c d ++ post →
       digitos 3 a → digitos 3 b → digitos 3 c → digitos 2 d →
       word_at (last pre) = false → word_at (head post) = false →
       cpf_agrupado a b c d ∈ pii_get (detect_pii ner text) (lit "cpf")
       ∧ classificar_pedido (detect_pii ner text) = Some NAO_PUBLICO).
Proof.
  split; [apply cpf_em_detect_pii|].
  intros pre a b c d post Htext Ha Hb Hc Hd Hlast Hpost.
  apply cpf_em_detect_pii.
  - rewrite Htext. by apply findall_CPF_agrupado.
  - by apply so_digitos_cpf_agrupado.
Qed.

(** C5. The capture of [QUADRA_LOTE] is the keyword alone, so what
    [findall] returns for it never has a digit and never passes
    [endereco_valido]: every address of the mapping comes from [LOGRADOURO].
    On "Quadra 15" the fragment would pass the validator, yet the address
    list is empty. *)
Theorem quadra_lote_so_a_palavra (text : str) :
  (∀ e, e ∈ findall QUADRA_LOTE text → endereco_valido e = false)
  ∧ (∀ e, e ∈ extract_endereco text → e ∈ findall LOGRADOURO text)
  ∧ (∀ e, e ∈ pii_get (detect_pii ner text) (lit "endereco") →
          e ∈ findall LOGRADOURO (normalize text))
  ∧ findall QUADRA_LOTE (lit "Quadra 15") = [lit "Quadra"]
  ∧ endereco_valido (lit "Quadra 15") = true
  ∧ extract_endereco (lit "Quadra 15") = []
  ∧ pii_get (detect_pii ner (lit "Quadra 15")) (lit "endereco") = [].
Proof.
  assert (Hq : ∀ t e, e ∈ findall QUADRA_LOTE t → endereco_valido e = false).
  { intros t e He.
    by apply endereco_valido_sem_digito, (findall_QUADRA_LOTE_sem_digito t). }
  assert (Hl : ∀ t e, e ∈ extract_endereco t → e ∈ findall LOGRADOURO t).
  { intros t e He. apply elem_of_extract_endereco in He as [[He|He] Hv];
      [done|]. rewrite (Hq t e He) in Hv. discriminate Hv. }
  split; [apply Hq|]. split; [apply Hl|]. split.
  - intros e He. by apply Hl, endereco_detect_pii.
  - repeat split; by vm_compute.
Qed.

(** C6. In "RG 1x234y567-8 ; protocolo numero 1.234.567-8" the only
    candidate is "1.234.567-8" at offset 34, and the 15 characters before it
    hold no keyword.  Read as a pattern, the candidate also matches
    "1x234y567-8" at offset 3, which follows "RG": [rg_valido] accepts. *)
Theorem rg_aceito_por_outra_ocorrencia :
  let text := lit "RG 1x234y567-8 ; protocolo numero 1.234.567-8" in
  let cand := lit "1.234.567-8" in
  finditer RG text = [RMatch 34 45 None]
  ∧ findall RG text = [cand]
  ∧ lower (slice (34 - 15) 34 text) = lit "otocolo numero "
  ∧ janela_tem_palavra text (RMatch 34 45 None) = false
  ∧ finditer (pattern_of cand) text = [RMatch 3 14 None; RMatch 34 45 None]
  ∧ slice 3 14 text = lit "1x234y567-8"
  ∧ janela_tem_palavra text (RMatch 3 14 None) = true
  ∧ rg_valido cand text = true
  ∧ pii_get (detect_pii ner text) (lit "rg") = [cand].
Proof.
  intros text cand. unfold text, cand. repeat split; by vm_compute.
Qed.

End ComReconhecedor.

(** The digit string of C2 is not what the list holds: on "123.456.789-09"
    the cpf list is the match itself.  And an ID glued to a word character
    is not matched at all. *)
Lemma cpf_guardado_como_no_texto :
  let text := lit "123.456.789-09" in
  pii_get (detect_pii (fun _ => []) text) (lit "cpf") = [lit "123.456.789-09"]
  ∧ so_digitos text = lit "12345678909"
  ∧ (so_digitos text ∉ pii_get (detect_pii (fun _ => []) text) (lit "cpf"))
  ∧ pii_get (detect_pii (fun _ => []) (lit "x123.456.789-09")) (lit "cpf")
    = [].
Proof.
  split; [by vm_compute|]. split; [by vm_compute|]. split; [|by vm_compute].
  intros H. vm_compute in H.
  apply list_elem_of_singleton in H. discriminate H.
Qed.

Lemma digitos_lit n s :
  length (lit s) = n → forallb re_digit (lit s) = true → digitos n (lit s).
Proof.
  intros Hl Hd. split; [done|]. apply Forall_forall. intros a Ha.
  rewrite forallb_forall in Hd. apply Hd. by apply list_elem_of_In.
Qed.

Lemma cpf_detectado_witness :
  lit "123.456.789-09" ∈ pii_get (detect_pii (fun _ => []) texto_com_cpf)
                           (lit "cpf")
  ∧ classificar_pedido (detect_pii (fun _ => []) texto_com_cpf)
    = Some NAO_PUBLICO.
Proof.
  apply (proj2 (cpf_detectado (fun _ => []) texto_com_cpf)
           (lit "Processo 0012, CPF: ") (lit "123") (lit "456") (lit "789")
           (lit "09") (lit ", ok")).
  - reflexivity.
  - by apply digitos_lit.
  - by apply digitos_lit.
  - by apply digitos_lit.
  - by apply digitos_lit.
  - reflexivity.
  - reflexivity.
Defined.

(** ** Rejected spans *)

(** A name of fewer than 2 or more than 7 tokens, or whose first and last
    tokens are the same, is not valid. *)
Lemma nome_valido_rejeita nome :
  length (split nome) < 2 ∨ 7 < length (split nome)
  ∨ head (split nome) = last (split nome) →
  nome_valido nome = false.
Proof.
  intros H. apply not_true_is_false. rewrite nome_valido_iff.
  intros ([H2 H7] & _ & Hne & _). destruct H as [H|[H|H]]; [lia|lia|done].
Qed.

(** A span labelled PER that starts, in lower case, with a formal address
    phrase contributes no name. *)
Lemma tratamento_formal_excluido ent_text t :
  t ∈ TRATAMENTOS_FORMAIS → startswith (lower (strip ent_text)) t = true →
  nome_da_entidade (ent_text, PER) = None.
Proof.
  intros Ht Hs. unfold nome_da_entidade.
  rewrite bool_decide_eq_false_2 by (by intros H; apply H).
  assert (He : existsb (fun t => startswith (lower (strip ent_text)) t)
                 (elements TRATAMENTOS_FORMAIS) = true).
  { apply existsb_exists. exists t. split; [|done].
    apply (proj1 (list_elem_of_In _ _)).
    apply (proj2 (elem_of_elements _ _)). exact Ht. }
  rewrite He. reflexivity.
Qed.

(** ** Worked examples *)

Example findall_CPF_exemplo :
  findall CPF (lit "CPF 123.456.789-09, x123.456.789-09 e 11122233344")
  = [lit "123.456.789-09"; lit "11122233344"].
Proof. by vm_compute. Qed.

Example findall_RG_exemplo :
  findall RG (lit "RG 1.234.567-8 ou 12.345.678-X, nao 1x234y567-8")
  = [lit "1.234.567-8"; lit "12.345.678-X"].
Proof. by vm_compute. Qed.

Example findall_EMAIL_exemplo :
  findall EMAIL (lit "Contato: maria.silva@example.com, a@b")
  = [lit "maria.silva@example.com"].
Proof. by vm_compute. Qed.

Example findall_TELEFONE_exemplo :
  findall TELEFONE (lit "tel +55 (61) 99999-8888 ou 0512345678 ou 6133334444x")
  = [lit "61) 99999-8888"; lit "0512345678"].
Proof. by vm_compute. Qed.

Example findall_LOGRADOURO_exemplo :
  findall LOGRADOURO (lit "mora na Rua das Flores 123, perto da av. Brasil")
  = [lit "Rua das Flores 123"; lit "av. Brasil"].
Proof. by vm_compute. Qed.

Example findall_QUADRA_LOTE_exemplo :
  findall QUADRA_LOTE (lit "Quadra 15, Lote 3 bloco-B")
  = [lit "Quadra"; lit "Lote"; lit "bloco"].
Proof. by vm_compute. Qed.

Example nome_de_um_token : nome_valido (lit "Maria") = false.
Proof. by vm_compute. Qed.

Example nome_primeiro_igual_ao_ultimo :
  nome_valido (lit "Jo" ++ [chr 227] ++ lit "o da Silva Jo" ++ [chr 227]
               ++ lit "o") = false.
Proof. by vm_compute. Qed.

Example tratamento_formal_descartado :
  nome_da_entidade
    (lit "Vossa Excel" ++ [chr 234] ++ lit "ncia Senhor Fulano", PER) = None
  ∧ nome_da_entidade (lit "Dr. Fulano de Tal CPF:", PER)
    = Some (lit "Fulano de Tal").
Proof. split; by vm_compute. Qed.

Example rg_sem_palavra_chave (ner : str → list (str * str)) :
  findall RG (lit "numero 13.456.789-0") = [lit "13.456.789-0"]
  ∧ pii_get (detect_pii ner (lit "numero 13.456.789-0")) (lit "rg") = []
  ∧ pii_get (detect_pii ner (lit "identidade 13.456.789-0")) (lit "rg")
    = [lit "13.456.789-0"].
Proof. repeat split; by vm_compute. Qed.

Example ponta_a_ponta :
  let text :=
    lit "Contato: maria.silva@example.com, CPF 123.456.789-09, Rua das Flores 123" in
  let pii := detect_pii (fun _ => []) text in
  pii_get pii (lit "email") = [lit "maria.silva@example.com"]
  ∧ pii_get pii (lit "cpf") = [lit "123.456.789-09"]
  ∧ pii_get pii (lit "endereco") = [lit "Rua das Flores 123"]
  ∧ classificar_pedido pii = Some NAO_PUBLICO.
Proof. repeat split; by vm_compute. Qed.

Example sem_pii :
  let pii := detect_pii (fun _ => []) (lit "bom dia, gostaria de informacoes") in
  (∀ k, k ∈ CHAVES → pii_get pii k = [])
  ∧ classificar_pedido pii = Some PUBLICO.
Proof.
  split; [|by vm_compute]. intros k Hk. unfold CHAVES in Hk.
  rewrite !elem_of_cons, elem_of_nil in Hk.
  destruct Hk as [->|[->|[->|[->|[->|[->|[]]]]]]]; by vm_compute.
Qed.

(** ** Further witnesses *)

Lemma telefone_ddd_definido_witness :
  is_Some (int (take 2 (so_digitos (lit "(61) 3333-4444")))).
Proof. apply telefone_ddd_definido. vm_compute. lia. Defined.

Lemma findall_RG_alfabeto_witness :
  Forall (fun a => re_digit a = true ∨ a ∈ lit ".-Xx") (lit "12.345.678-X").
Proof.
  apply (findall_RG_alfabeto (lit "RG 12.345.678-X")). vm_compute. by left.
Defined.

Lemma nome_valido_rejeita_witness : nome_valido (lit "Maria") = false.
Proof. apply nome_valido_rejeita. left. vm_compute. lia. Defined.

Lemma tratamento_formal_excluido_witness :
  nome_da_entidade
    (lit "Vossa Excel" ++ [chr 234] ++ lit "ncia Senhor Fulano", PER) = None.
Proof.
  apply (tratamento_formal_excluido _
           (lit "vossa excel" ++ [chr 234] ++ lit "ncia")).
  - by vm_compute.
  - reflexivity.
Defined.

(** * Further properties *)

(** ** Normalisation *)

Lemma lstrip_chars_spec p s :
  ∃ l, s = l ++ lstrip_chars p s ∧ Forall (fun c => p c = true) l
    ∧ ∀ c, head (lstrip_chars p s) = Some c → p c = false.
Proof.
  induction s as [|c s (l & Hs & Hl & Hh)]; simpl.
  - exists []. by repeat split.
  - destruct (p c) eqn:Hc.
    + exists (c :: l). simpl. split; [by rewrite <- Hs|]. split; [by constructor|done].
    + exists []. simpl. split; [done|]. split; [constructor|].
      by intros ? [= <-].
Qed.

Lemma lstrip_chars_id p s :
  (∀ c, head s = Some c → p c = false) → lstrip_chars p s = s.
Proof. destruct s as [|c s]; [done|]. intros H. simpl. by rewrite (H c). Qed.

Lemma head_rev {A} (u : list A) : head (rev u) = last u.
Proof.
  induction u as [|x u IH] using rev_ind; [done|].
  by rewrite rev_unit, last_snoc.
Qed.

Lemma last_rev {A} (u : list A) : last (rev u) = head u.
Proof. by rewrite <- head_rev, rev_involutive. Qed.

Lemma rstrip_chars_spec p s :
  ∃ r, s = rstrip_chars p s ++ r ∧ Forall (fun c => p c = true) r
    ∧ ∀ c, last (rstrip_chars p s) = Some c → p c = false.
Proof.
  unfold rstrip_chars.
  destruct (lstrip_chars_spec p (rev s)) as (l & Hs & Hl & Hh).
  exists (rev l). split; [|split].
  - rewrite <- rev_app_distr, <- Hs. by rewrite rev_involutive.
  - by apply Forall_rev.
  - intros c Hc. apply Hh. by rewrite <- last_rev.
Qed.

Lemma rstrip_chars_id p s :
  (∀ c, last s = Some c → p c = false) → rstrip_chars p s = s.
Proof.
  intros H. unfold rstrip_chars. rewrite lstrip_chars_id.
  - apply rev_involutive.
  - intros c Hc. apply H. by rewrite <- head_rev.
Qed.

(** What [strip] removes and what it leaves. *)
Lemma strip_spec s :
  ∃ l r, s = l ++ strip s ++ r
    ∧ Forall (fun c => isspace c = true) l
    ∧ Forall (fun c => isspace c = true) r
    ∧ (∀ c, head (strip s) = Some c → isspace c = false)
    ∧ (∀ c, last (strip s) = Some c → isspace c = false).
Proof.
  unfold strip, strip_chars.
  destruct (lstrip_chars_spec isspace s) as (l & Hs & Hl & Hh).
  destruct (rstrip_chars_spec isspace (lstrip_chars isspace s))
    as (r & Hs' & Hr & Hlast).
  exists l, r. split; [by rewrite <- Hs'|]. split; [done|]. split; [done|].
  split; [|done].
  intros c Hc. destruct (rstrip_chars isspace (lstrip_chars isspace s))
    as [|x u] eqn:E; [done|].
  injection Hc as ->. apply Hh. by rewrite Hs'.
Qed.

Lemma strip_id s :
  (∀ c, head s = Some c → isspace c = false) →
  (∀ c, last s = Some c → isspace c = false) → strip s = s.
Proof.
  intros Hh Hl. unfold strip, strip_chars.
  by rewrite lstrip_chars_id, rstrip_chars_id.
Qed.

Lemma replace_NBSP_outro c :
  isspace c = false → (if decide (c = NBSP) then " "%char else c) = c.
Proof. intros Hc. destruct (decide (c = NBSP)) as [->|]; [done|done]. Qed.

Lemma replace_NBSP_isspace c :
  isspace (if decide (c = NBSP) then " "%char else c) = isspace c.
Proof. by destruct (decide (c = NBSP)) as [->|]. Qed.

Lemma replace_NBSP_sem_NBSP s :
  Forall (fun c => c ≠ NBSP) (replace_char NBSP " " s).
Proof.
  unfold replace_char. apply Forall_forall. intros c Hc.
  apply list_elem_of_fmap in Hc as (x & -> & _).
  destruct (decide (x = NBSP)); [|done]. intros H. discriminate H.
Qed.

Lemma replace_NBSP_id s :
  Forall (fun c => c ≠ NBSP) s → replace_char NBSP " " s = s.
Proof.
  unfold replace_char. induction 1 as [|c s Hc _ IH]; simpl; [done|].
  by rewrite decide_False, IH.
Qed.

Lemma head_replace_NBSP s c :
  head (replace_char NBSP " " s) = Some c → ∃ x, head s = Some x
    ∧ isspace c = isspace x.
Proof.
  destruct s as [|x s]; [done|]. simpl. intros [= <-]. exists x.
  split; [done|]. apply replace_NBSP_isspace.
Qed.

Lemma last_replace_NBSP s c :
  last (replace_char NBSP " " s) = Some c → ∃ x, last s = Some x
    ∧ isspace c = isspace x.
Proof.
  unfold replace_char. change (map ?f s) with (f <$> s).
  rewrite fmap_last. destruct (last s) as [x|]; [|done]. simpl.
  intros [= <-]. exists x. split; [done|]. apply replace_NBSP_isspace.
Qed.

(** Splitting ignores white space at both ends and which white-space
    character separates the tokens. *)
Lemma split_from_espacos cur r :
  Forall (fun c => isspace c = true) r → split_from cur r = split_from cur [].
Proof.
  intros Hr. revert cur. induction Hr as [|c r Hc _ IH]; intros cur; [done|].
  simpl. rewrite Hc. destruct cur; rewrite IH; done.
Qed.

Lemma split_from_app_espacos s : ∀ cur r,
  Forall (fun c => isspace c = true) r →
  split_from cur (s ++ r) = split_from cur s.
Proof.
  induction s as [|c s IH]; intros cur r Hr.
  - by apply split_from_espacos.
  - simpl. destruct (isspace c); [destruct cur|]; by rewrite IH.
Qed.

Lemma split_espacos_app l s :
  Forall (fun c => isspace c = true) l → split (l ++ s) = split s.
Proof.
  unfold split. induction 1 as [|c l Hc _ IH]; [done|]. simpl. by rewrite Hc.
Qed.

Lemma split_from_replace_NBSP s : ∀ cur,
  split_from cur (replace_char NBSP " " s) = split_from cur s.
Proof.
  unfold replace_char. induction s as [|c s IH]; intros cur; [done|]. simpl.
  rewrite replace_NBSP_isspace. destruct (isspace c) eqn:Hc.
  - destruct cur; by rewrite IH.
  - by rewrite replace_NBSP_outro, IH.
Qed.

(** [normalize] leaves no white space at the ends and no non-breaking space
    anywhere, does nothing to a text already normal, and keeps the tokens of
    the text. *)
Theorem normalize_propriedades (text : str) :
  Forall (fun c => c ≠ NBSP) (normalize text)
  ∧ (∀ c, head (normalize text) = Some c → isspace c = false)
  ∧ (∀ c, last (normalize text) = Some c → isspace c = false)
  ∧ normalize (normalize text) = normalize text
  ∧ split (normalize text) = split text
  ∧ length (normalize text) ≤ length text.
Proof.
  destruct (strip_spec text) as (l & r & Ht & Hl & Hr & Hh & Hla).
  assert (H1 : Forall (fun c => c ≠ NBSP) (normalize text))
    by apply replace_NBSP_sem_NBSP.
  assert (H2 : ∀ c, head (normalize text) = Some c → isspace c = false).
  { intros c Hc. apply head_replace_NBSP in Hc as (x & Hx & ->). by apply Hh. }
  assert (H3 : ∀ c, last (normalize text) = Some c → isspace c = false).
  { intros c Hc. apply last_replace_NBSP in Hc as (x & Hx & ->). by apply Hla. }
  split; [done|]. split; [done|]. split; [done|]. split; [|split].
  - unfold normalize at 1. rewrite strip_id by done.
    by apply replace_NBSP_id.
  - unfold normalize, split. rewrite split_from_replace_NBSP.
    rewrite Ht at 2. fold (split (strip text)).
    fold (split (l ++ strip text ++ r)).
    rewrite split_espacos_app by done. unfold split.
    by rewrite split_from_app_espacos.
  - unfold normalize, replace_char. rewrite length_map.
    rewrite Ht at 2. rewrite !length_app. lia.
Qed.

(** ** Suffix cleaning *)

Lemma pop_sufixos_spec l :
  ∃ rem, l = rem ++ pop_sufixos l ∧ Forall sufixo_lixo rem
    ∧ ∀ t, head (pop_sufixos l) = Some t → ¬ sufixo_lixo t.
Proof.
  induction l as [|t l IH].
  - exists []. by split; [|split].
  - cbn [pop_sufixos]. destruct (bool_decide_reflect
      (strip_chars (fun c => bool_decide (c = ":"%char)) (lower t)
         ∈ SUFIXOS_LIXO)) as [Ht|Ht].
    + destruct IH as (rem & Hl & Hrem & Hh). exists (t :: rem).
      split; [by rewrite Hl at 1|]. split; [by constructor|done].
    + exists []. split; [done|]. split; [constructor|].
      intros t' [= <-]. exact Ht.
Qed.

Lemma split_strip s : split (strip s) = split s.
Proof.
  destruct (strip_spec s) as (l & r & Hs & Hl & Hr & _).
  rewrite Hs at 2. rewrite split_espacos_app by done.
  unfold split. by rewrite split_from_app_espacos.
Qed.

Lemma split_limpar_sufixos nome :
  split (limpar_sufixos nome) = rev (pop_sufixos (rev (split nome))).
Proof.
  unfold limpar_sufixos. apply split_join.
  destruct (pop_sufixos_spec (rev (split nome))) as (rem & Hl & _).
  assert (H : Forall token (rev (split nome)))
    by (apply Forall_rev, split_tokens).
  rewrite Hl in H. apply Forall_app in H as [_ H]. by apply Forall_rev.
Qed.

Lemma limpar_sufixos_spec nome :
  ∃ removidos, split nome = split (limpar_sufixos nome) ++ removidos
    ∧ Forall sufixo_lixo removidos
    ∧ ∀ t, last (split (limpar_sufixos nome)) = Some t → ¬ sufixo_lixo t.
Proof.
  rewrite split_limpar_sufixos.
  destruct (pop_sufixos_spec (rev (split nome))) as (rem & Hl & Hrem & Hh).
  exists (rev rem). split; [|split].
  - rewrite <- rev_app_distr, <- Hl. by rewrite rev_involutive.
  - by apply Forall_rev.
  - intros t Ht. apply Hh. by rewrite <- last_rev.
Qed.

Lemma pop_sufixos_id l :
  (∀ t, head l = Some t → ¬ sufixo_lixo t) → pop_sufixos l = l.
Proof.
  destruct l as [|t l]; [done|]. intros H. cbn [pop_sufixos].
  rewrite bool_decide_eq_false_2; [done|]. by apply H.
Qed.

Lemma limpar_sufixos_id nome :
  (∀ t, last (split nome) = Some t → ¬ sufixo_lixo t) →
  limpar_sufixos nome = join (lit " ") (split nome).
Proof.
  intros H. unfold limpar_sufixos. rewrite pop_sufixos_id.
  - by rewrite rev_involutive.
  - intros t Ht. apply H. by rewrite <- head_rev.
Qed.

Lemma join_split_join toks :
  Forall token toks → join (lit " ") (split (join (lit " ") toks))
                      = join (lit " ") toks.
Proof. intros H. by rewrite split_join. Qed.

Lemma limpar_sufixos_idem nome :
  limpar_sufixos (limpar_sufixos nome) = limpar_sufixos nome.
Proof.
  destruct (limpar_sufixos_spec nome) as (rem & Hs & Hrem & Hl).
  rewrite limpar_sufixos_id by done.
  unfold limpar_sufixos at 1 2. apply join_split_join.
  fold (limpar_sufixos nome). rewrite <- split_limpar_sufixos.
  apply split_tokens.
Qed.

(** [limpar_sufixos] drops a run of suffix tokens from the end of the name,
    stops at the first token that is not one, and does nothing when applied
    again. *)
Theorem limpar_sufixos_propriedades (nome : str) :
  (∃ removidos, split nome = split (limpar_sufixos nome) ++ removidos
     ∧ Forall sufixo_lixo removidos)
  ∧ (∀ t, last (split (limpar_sufixos nome)) = Some t → ¬ sufixo_lixo t)
  ∧ limpar_sufixos (limpar_sufixos nome) = limpar_sufixos nome
  ∧ join (lit " ") (split (limpar_sufixos nome)) = limpar_sufixos nome.
Proof.
  destruct (limpar_sufixos_spec nome) as (rem & Hs & Hrem & Hl).
  split; [by exists rem|]. split; [done|].
  split; [apply limpar_sufixos_idem|].
  rewrite <- (limpar_sufixos_idem nome) at 2.
  by rewrite (limpar_sufixos_id (limpar_sufixos nome)).
Qed.

(** ** Name extraction *)

Lemma existsb_elements_false (f : str → bool) (X : gset str) :
  existsb f (elements X) = false ↔ ∀ t, t ∈ X → f t = false.
Proof.
  split.
  - intros Hex t Ht. destruct (f t) eqn:Hf; [|reflexivity].
    rewrite <- Hex. symmetry. apply existsb_exists. exists t.
    split; [|exact Hf]. apply (proj1 (list_elem_of_In _ _)).
    apply (proj2 (elem_of_elements _ _)). exact Ht.
  - intros Hno. apply not_true_is_false. intros Hex.
    apply existsb_exists in Hex as (t & Ht & Hf).
    apply (proj2 (list_elem_of_In _ _)) in Ht.
    apply (proj1 (elem_of_elements _ _)) in Ht.
    rewrite (Hno t Ht) in Hf. discriminate Hf.
Qed.

Lemma nome_da_entidade_Some e l n :
  nome_da_entidade (e, l) = Some n ↔
  l = PER
  ∧ (∀ t, t ∈ TRATAMENTOS_FORMAIS → startswith (lower (strip e)) t = false)
  ∧ n = limpar_sufixos (limpar_titulos (strip e))
  ∧ nome_valido n = true.
Proof.
  unfold nome_da_entidade.
  destruct (bool_decide_reflect (l ≠ PER)) as [Hl|Hl].
  { split; [intros H; discriminate H|]. intros [H _]. destruct (Hl H). }
  apply dec_stable in Hl.
  rewrite <- existsb_elements_false.
  destruct (existsb (fun t => startswith (lower (strip e)) t)
              (elements TRATAMENTOS_FORMAIS)).
  - split; [intros H; discriminate H|]. intros (_ & H & _). discriminate H.
  - destruct (nome_valido (limpar_sufixos (limpar_titulos (strip e)))) eqn:Hv.
    + split.
      * intros [= <-]. repeat split; assumption.
      * intros (_ & _ & -> & _). reflexivity.
    + split; [intros H; discriminate H|].
      intros (_ & _ & -> & Hv'). rewrite Hv in Hv'. discriminate Hv'.
Qed.

Lemma elem_of_extract_names ner text n :
  n ∈ extract_names ner text ↔
  ∃ e, ((e, PER) ∈ ner text)
    ∧ (∀ t, t ∈ TRATAMENTOS_FORMAIS → startswith (lower (strip e)) t = false)
    ∧ n = limpar_sufixos (limpar_titulos (strip e))
    ∧ nome_valido n = true.
Proof.
  unfold extract_names. rewrite elem_of_elements, elem_of_list_to_set.
  rewrite list_elem_of_omap. split.
  - intros ([e l] & Hin & Hn). apply nome_da_entidade_Some in Hn
      as (-> & Hno & Hn & Hv). by exists e.
  - intros (e & Hin & Hno & Hn & Hv). exists (e, PER). split; [done|].
    by apply nome_da_entidade_Some.
Qed.

Lemma limpar_titulos_sem_titulos nome :
  (∀ t, t ∈ split nome → lower t ∉ TITULOS) →
  limpar_titulos nome = join (lit " ") (split nome).
Proof.
  intros H. unfold limpar_titulos. f_equal.
  induction (split nome) as [|t l IH]; [done|].
  rewrite filter_cons_True.
  - f_equal. apply IH. intros t' Ht'. apply H. by right.
  - apply H. by left.
Qed.

Lemma nome_limpo e :
  let n := limpar_sufixos (limpar_titulos (strip e)) in
  (∀ t, t ∈ split n → lower t ∉ TITULOS)
  ∧ (∀ t, last (split n) = Some t → ¬ sufixo_lixo t)
  ∧ limpar_titulos n = n ∧ limpar_sufixos n = n
  ∧ split n `sublist_of` split e.
Proof.
  intros n.
  destruct (limpar_sufixos_spec (limpar_titulos (strip e)))
    as (rem & Hs & Hrem & Hl). fold n in Hs, Hl.
  rewrite split_limpar_titulos, split_strip in Hs.
  assert (Hj : join (lit " ") (split n) = n).
  { unfold n at 2. rewrite <- limpar_sufixos_idem. fold n.
    by rewrite (limpar_sufixos_id n). }
  assert (Ht : ∀ t, t ∈ split n → lower t ∉ TITULOS).
  { intros t Ht. assert (Hin : t ∈ split n ++ rem)
      by (apply elem_of_app; by left).
    rewrite <- Hs in Hin. by apply list_elem_of_filter in Hin as [? _]. }
  split; [done|]. split; [done|]. split; [|split].
  - by rewrite limpar_titulos_sem_titulos.
  - apply limpar_sufixos_idem.
  - transitivity (filter (fun t => lower t ∉ TITULOS) (split e)).
    + rewrite Hs. by apply sublist_inserts_r.
    + apply sublist_filter.
Qed.

(** The names [extract_names] returns: each once, each accepted by
    [nome_valido], free of title tokens and of a trailing suffix, unchanged
    by the two cleaning steps, and made of tokens of a [PER] entity in their
    order.  With no [PER] entity there is no name. *)
Theorem extract_names_propriedades (ner : str → list (str * str))
    (text : str) :
  NoDup (extract_names ner text)
  ∧ (∀ n, n ∈ extract_names ner text →
       nome_valido n = true
       ∧ (∀ t, t ∈ split n → lower t ∉ TITULOS)
       ∧ (∀ t, last (split n) = Some t → ¬ sufixo_lixo t)
       ∧ limpar_titulos n = n ∧ limpar_sufixos n = n
       ∧ ∃ e, ((e, PER) ∈ ner text) ∧ split n `sublist_of` split e)
  ∧ ((∀ e l, (e, l) ∈ ner text → l ≠ PER) → extract_names ner text = []).
Proof.
  split; [apply NoDup_elements|]. split.
  - intros n Hn. apply elem_of_extract_names in Hn
      as (e & Hin & _ & Hn & Hv).
    destruct (nome_limpo e) as (H1 & H2 & H3 & H4 & H5). rewrite <- Hn in *.
    do 5 (split; [done|]). by exists e.
  - intros Hno. destruct (extract_names ner text) as [|n l] eqn:E; [done|].
    assert (Hn : n ∈ extract_names ner text) by (rewrite E; by left).
    apply elem_of_extract_names in Hn as (e & Hin & _).
    by destruct (Hno _ _ Hin).
Qed.

(** ** The lists of [extract_all] *)

Lemma pii_get_extract_all t :
  pii_get (extract_all t) (lit "cpf") = candidatos_cpf t
  ∧ pii_get (extract_all t) (lit "rg") = candidatos_rg t
  ∧ pii_get (extract_all t) (lit "email") = extract EMAIL t
  ∧ pii_get (extract_all t) (lit "telefone") = candidatos_telefone t
  ∧ pii_get (extract_all t) (lit "endereco") = extract_endereco t.
Proof.
  unfold extract_all, pii_get.
  repeat split;
    repeat (rewrite lookup_insert_ne by chaves); by rewrite lookup_insert_eq.
Qed.

Lemma novos_ext (u u' : gset str) vs :
  (∀ x, x ∈ vs → (x ∈ u ↔ x ∈ u')) → novos u vs = novos u' vs.
Proof.
  revert u u'. induction vs as [|v vs IH]; intros u u' H; [done|].
  cbn [novos]. assert (Hv : v ∈ u ↔ v ∈ u') by (apply H; by left).
  destruct (decide (v ∈ u)) as [Hin|Hin], (decide (v ∈ u')) as [Hin'|Hin'];
    try tauto.
  - apply IH. intros x Hx. apply H. by right.
  - f_equal. apply IH. intros x Hx. rewrite !elem_of_union.
    assert (x ∈ u ↔ x ∈ u') by (apply H; by right). tauto.
Qed.

Lemma novos_filter (u : gset str) vs :
  NoDup vs → novos u vs = filter (fun v => v ∉ u) vs.
Proof.
  induction 1 as [|v vs Hv Hnd IH]; [done|]. cbn [novos].
  destruct (decide (v ∈ u)) as [Hin|Hin].
  - rewrite filter_cons_False by (intros H; by apply H). done.
  - rewrite filter_cons_True by done. f_equal. rewrite <- IH.
    apply novos_ext. intros x Hx. rewrite elem_of_union, elem_of_singleton.
    split; [|by left]. intros [Hu| ->]; [done|by destruct Hv].
Qed.

Lemma NoDup_List_filter {A} (f : A → bool) l :
  NoDup l → NoDup (List.filter f l).
Proof. rewrite !NoDup_ListNoDup. apply List.NoDup_filter. Qed.

Lemma NoDup_extract p t : NoDup (extract p t).
Proof. apply NoDup_elements. Qed.

Lemma NoDup_extract_endereco t : NoDup (extract_endereco t).
Proof. apply NoDup_List_filter, NoDup_elements. Qed.

(** *** Values of different kinds never coincide, except national ID and
    phone *)

Lemma rg_nao_cpf t r :
  r ∈ candidatos_rg t → r ∉ candidatos_cpf t.
Proof.
  unfold candidatos_rg, candidatos_cpf. rewrite !elem_of_List_filter.
  intros [_ Hr] [_ Hc]. apply rg_valido_iff in Hr as [Hr _].
  unfold cpf_formato_valido in Hc. apply Nat.eqb_eq in Hc. lia.
Qed.

Lemma telefone_nao_rg t v :
  v ∈ candidatos_telefone t → v ∉ candidatos_rg t.
Proof.
  unfold candidatos_rg, candidatos_telefone. rewrite !elem_of_List_filter.
  intros [_ Hv] [_ Hr]. apply rg_valido_iff in Hr as [Hr _].
  apply telefone_valido_iff in Hv as [Hv _]. lia.
Qed.

Lemma startswith_app s p : startswith s p = true → ∃ r, s = p ++ r.
Proof.
  revert s. induction p as [|a p IH]; intros s; [by exists s|].
  destruct s as [|b s]; [done|]. cbn [startswith].
  destruct (decide (a = b)) as [->|]; [|done].
  intros H. destruct (IH _ H) as [r ->]. by exists r.
Qed.

Lemma contains_app p s : contains p s = true → ∃ l r, s = l ++ p ++ r.
Proof.
  induction s as [|c s IH]; cbn [contains]; rewrite orb_true_iff.
  - intros [H|H]; [|done]. apply startswith_app in H as [r ->]. by exists [], r.
  - intros [H|H].
    + apply startswith_app in H as [r ->]. by exists [], r.
    + destruct (IH H) as (l & r & ->). by exists (c :: l), r.
Qed.

Lemma contains_elem p s c : contains p s = true → c ∈ p → c ∈ s.
Proof.
  intros H Hc. apply contains_app in H as (l & r & ->).
  rewrite !elem_of_app. tauto.
Qed.

Lemma endereco_valido_letra e :
  endereco_valido e = true →
  ∃ c, c ∈ e ∧ (lower_char c = "a"%char ∨ lower_char c = "o"%char).
Proof.
  unfold endereco_valido. intros H. apply andb_true_iff in H as [H _].
  assert (Hl : ("a"%char ∈ lower e) ∨ ("o"%char ∈ lower e)).
  { cbn [existsb] in H. rewrite !orb_true_iff in H.
    destruct H as [H|[H|[H|[H|[H|[H|H]]]]]]; [| | | | | |done].
    1-4: left; apply (contains_elem _ _ _ H); vm_compute; set_solver.
    1-2: right; apply (contains_elem _ _ _ H); vm_compute; set_solver. }
  unfold lower in Hl.
  destruct Hl as [Hl|Hl]; apply list_elem_of_fmap in Hl as (c & Hc & Hin);
    exists c; split; auto.
Qed.

Lemma numeros_sem_letra a :
  accepts CPF a || accepts RG a || accepts TELEFONE a = true →
  lower_char a ≠ "a"%char ∧ lower_char a ≠ "o"%char.
Proof.
  destruct a as [[] [] [] [] [] [] [] []]; vm_compute; intros H;
    (discriminate H || (split; discriminate)).
Qed.

Lemma endereco_nao_numero r t e :
  r = CPF ∨ r = RG ∨ r = TELEFONE →
  endereco_valido e = true → e ∉ findall r t.
Proof.
  intros Hr He Hin. apply findall_accepts in Hin; [|by destruct Hr as [-> | [-> | ->]]].
  apply endereco_valido_letra in He as (c & Hc & Hl).
  rewrite Forall_forall in Hin. specialize (Hin c Hc).
  destruct (numeros_sem_letra c) as [H1 H2]; [|destruct Hl; done].
  destruct Hr as [-> | [-> | ->]]; rewrite Hin; rewrite ?orb_true_r; done.
Qed.

Lemma endereco_novo t e :
  e ∈ extract_endereco t →
  (e ∉ candidatos_cpf t) ∧ (e ∉ candidatos_rg t)
  ∧ (e ∉ candidatos_telefone t).
Proof.
  intros He. apply elem_of_extract_endereco in He as [_ He].
  unfold candidatos_cpf, candidatos_rg, candidatos_telefone.
  rewrite !elem_of_List_filter, !elem_of_extract.
  split; [|split]; intros [Hin _]; revert Hin;
    apply endereco_nao_numero; auto.
Qed.

Lemma anteriores_eq pii :
  anteriores pii 0 = []
  ∧ anteriores pii 1 = pii_get pii (lit "cpf")
  ∧ anteriores pii 2 = pii_get pii (lit "cpf") ++ pii_get pii (lit "rg")
  ∧ anteriores pii 3 = pii_get pii (lit "cpf") ++ pii_get pii (lit "rg")
                       ++ pii_get pii (lit "telefone").
Proof.
  split; [done|]. split; [|split].
  - change (anteriores pii 1) with (pii_get pii (lit "cpf") ++ []).
    apply app_nil_r.
  - change (anteriores pii 2)
      with (pii_get pii (lit "cpf") ++ pii_get pii (lit "rg") ++ []).
    by rewrite app_nil_r.
  - change (anteriores pii 3)
      with (pii_get pii (lit "cpf") ++ pii_get pii (lit "rg")
            ++ pii_get pii (lit "telefone") ++ []).
    by rewrite app_nil_r.
Qed.

Lemma filter_ext_elem {A} (P1 P2 : A → Prop) `{∀ x, Decision (P1 x)}
    `{∀ x, Decision (P2 x)} (l : list A) :
  (∀ x, x ∈ l → (P1 x ↔ P2 x)) → filter P1 l = filter P2 l.
Proof.
  induction l as [|a l IH]; intros Hl; [done|].
  assert (Ha : P1 a ↔ P2 a) by (apply Hl; by left).
  assert (IH' : filter P1 l = filter P2 l).
  { apply IH. intros x Hx. apply Hl. by right. }
  destruct (decide (P1 a)) as [H1|H1].
  - rewrite !filter_cons_True by tauto. by rewrite IH'.
  - rewrite !filter_cons_False by tauto. done.
Qed.

(** On the lists of [extract_all], conflict resolution changes only the
    phone list. *)
Lemma resolver_extract_all t :
  let r := resolver_conflitos (extract_all t) in
  pii_get r (lit "cpf") = candidatos_cpf t
  ∧ pii_get r (lit "rg") = candidatos_rg t
  ∧ pii_get r (lit "email") = extract EMAIL t
  ∧ pii_get r (lit "telefone")
    = filter (fun v => v ∉ candidatos_cpf t) (candidatos_telefone t)
  ∧ pii_get r (lit "endereco") = extract_endereco t.
Proof.
  intros r. subst r.
  destruct (pii_get_extract_all t) as (Hc & Hr & Hm & Ht & He).
  destruct (anteriores_eq (extract_all t)) as (A0 & A1 & A2 & A3).
  rewrite Hc, ?Hr, ?Ht in A1, A2, A3.
  split; [|split; [|split; [|split]]].
  - rewrite (pii_get_resolver _ 0) by done. rewrite Hc.
    apply novos_id; [apply NoDup_List_filter, NoDup_extract|].
    intros x _. rewrite A0. set_solver.
  - rewrite (pii_get_resolver _ 1) by done. rewrite Hr, A1.
    apply novos_id; [apply NoDup_List_filter, NoDup_extract|].
    intros x Hx. rewrite elem_of_list_to_set. by apply rg_nao_cpf.
  - unfold pii_get.
    rewrite lookup_resolver_ne by (apply fora_dos_campos; by left).
    exact Hm.
  - rewrite (pii_get_resolver _ 2) by done. rewrite Ht, A2.
    rewrite novos_filter by apply NoDup_List_filter, NoDup_extract.
    apply filter_ext_elem. intros x Hx.
    rewrite elem_of_list_to_set, elem_of_app.
    pose proof (telefone_nao_rg t x Hx). tauto.
  - rewrite (pii_get_resolver _ 3) by done. rewrite He, A3.
    apply novos_id; [apply NoDup_extract_endereco|].
    intros x Hx. rewrite elem_of_list_to_set, !elem_of_app.
    destruct (endereco_novo t x Hx) as (H1 & H2 & H3). tauto.
Qed.

Section CamposDoMapa.

Variable ner : str → list (str * str).

Lemma detect_pii_campos_eq text :
  let t := normalize text in
  let pii := detect_pii ner text in
  pii_get pii (lit "cpf") = candidatos_cpf t
  ∧ pii_get pii (lit "rg") = candidatos_rg t
  ∧ pii_get pii (lit "email") = extract EMAIL t
  ∧ pii_get pii (lit "telefone")
    = filter (fun v => v ∉ candidatos_cpf t) (candidatos_telefone t)
  ∧ pii_get pii (lit "endereco") = extract_endereco t
  ∧ pii_get pii (lit "nome") = extract_names ner t.
Proof.
  intros t pii. subst pii.
  destruct (resolver_extract_all t) as (Hc & Hr & Hm & Ht & He).
  rewrite !pii_get_detect_pii by chaves.
  do 5 (split; [assumption|]).
  unfold detect_pii, pii_get. by rewrite lookup_insert_eq.
Qed.

End CamposDoMapa.

(** ** Conflict resolution: what is kept *)

Lemma novos_sublist u vs : novos u vs `sublist_of` vs.
Proof.
  revert u. induction vs as [|v vs IH]; intros u; [done|]. cbn [novos].
  destruct (decide (v ∈ u)).
  - by apply sublist_cons.
  - by apply sublist_skip.
Qed.

Lemma elem_of_CAMPOS c : c ∈ CAMPOS_CONFLITO ↔ ∃ i, CAMPOS_CONFLITO !! i = Some c.
Proof. apply list_elem_of_lookup. Qed.

(** The first field that holds a value. *)
Lemma primeiro_campo pii v :
  ∀ i c, CAMPOS_CONFLITO !! i = Some c → v ∈ pii_get pii c →
  ∃ j c', j ≤ i ∧ CAMPOS_CONFLITO !! j = Some c' ∧ (v ∈ pii_get pii c')
    ∧ ∀ k c'', k < j → CAMPOS_CONFLITO !! k = Some c'' → v ∉ pii_get pii c''.
Proof.
  induction i as [i IH] using lt_wf_ind. intros c Hc Hv.
  destruct (decide (v ∈ anteriores pii i)) as [Hin|Hin].
  - apply elem_of_anteriores in Hin as (j & c' & Hj & Hc' & Hv').
    destruct (IH j Hj c' Hc' Hv') as (j' & c'' & Hj' & H1 & H2 & H3).
    exists j', c''. split; [lia|done].
  - exists i, c. split; [lia|]. split; [done|]. split; [done|].
    intros k c'' Hk Hc'' Hv'. apply Hin, elem_of_anteriores. by exists k, c''.
Qed.

Lemma resolver_nada_perdido pii v :
  (∃ c, (c ∈ CAMPOS_CONFLITO) ∧ v ∈ pii_get pii c) ↔
  (∃ c, (c ∈ CAMPOS_CONFLITO) ∧ v ∈ pii_get (resolver_conflitos pii) c).
Proof.
  split.
  - intros (c & Hc & Hv). apply elem_of_CAMPOS in Hc as [i Hi].
    destruct (primeiro_campo pii v i c Hi Hv) as (j & c' & _ & Hj & Hv' & Hmin).
    exists c'. split; [apply elem_of_CAMPOS; by exists j|].
    by apply (resolver_membros pii j).
  - intros (c & Hc & Hv). exists c. split; [done|].
    apply elem_of_CAMPOS in Hc as [i Hi].
    by apply (resolver_membros pii i) in Hv as [? _].
Qed.

(** Conflict resolution keeps the order of the values of each list, loses no
    value (each value of a contested list stays in some contested list),
    leaves every other key alone, and binds a contested key that was missing
    to the empty list. *)
Theorem resolver_conflitos_conserva (pii : gmap str (list str)) :
  let r := resolver_conflitos pii in
  (∀ c, c ∈ CAMPOS_CONFLITO → pii_get r c `sublist_of` pii_get pii c)
  ∧ (∀ v, (∃ c, (c ∈ CAMPOS_CONFLITO) ∧ v ∈ pii_get pii c) ↔
          (∃ c, (c ∈ CAMPOS_CONFLITO) ∧ v ∈ pii_get r c))
  ∧ (∀ k, k ∉ CAMPOS_CONFLITO → r !! k = pii !! k)
  ∧ (∀ c, c ∈ CAMPOS_CONFLITO → pii !! c = None → r !! c = Some [])
  ∧ dom r = list_to_set CAMPOS_CONFLITO ∪ dom pii.
Proof.
  intros r. subst r. split; [|split; [|split; [|split]]].
  - intros c Hc. apply elem_of_CAMPOS in Hc as [i Hi].
    rewrite (pii_get_resolver pii i c Hi). apply novos_sublist.
  - apply resolver_nada_perdido.
  - apply lookup_resolver_ne.
  - intros c Hc Hnone. apply elem_of_CAMPOS in Hc as [i Hi].
    rewrite (lookup_resolver pii i c Hi). unfold pii_get. by rewrite Hnone.
  - apply dom_resolver_conflitos.
Qed.

(** ** The classifier on an incomplete mapping *)

Lemma any_campo_false_iff pii ks :
  any_campo pii ks = Some false ↔ ∀ k, k ∈ ks → pii !! k = Some [].
Proof.
  induction ks as [|k ks IH]; cbn [any_campo].
  - split; [|done]. intros _ k Hk. inversion Hk.
  - destruct (pii !! k) as [[|v l]|] eqn:Hk.
    + rewrite IH. split.
      * intros H k' Hk'. apply elem_of_cons in Hk' as [->|Hk']; auto.
      * intros H k' Hk'. apply H. by right.
    + split; [done|]. intros H. specialize (H k ltac:(by left)). congruence.
    + split; [done|]. intros H. specialize (H k ltac:(by left)). congruence.
Qed.

Lemma any_campo_None_elim pii ks :
  any_campo pii ks = None → ∃ k, (k ∈ ks) ∧ pii !! k = None.
Proof.
  induction ks as [|k ks IH]; cbn [any_campo]; [done|].
  destruct (pii !! k) as [[|v l]|] eqn:Hk; [|done|].
  - intros H. destruct (IH H) as (k' & Hk' & Hn). exists k'.
    split; [by right|done].
  - intros _. exists k. split; [by left|done].
Qed.

Lemma any_campo_None_intro pii ks :
  (∃ k, (k ∈ ks) ∧ pii !! k = None) → (∀ k, k ∈ ks → pii_get pii k = []) →
  any_campo pii ks = None.
Proof.
  induction ks as [|k ks IH]; cbn [any_campo].
  - intros (k & Hk & _). inversion Hk.
  - intros (k' & Hk' & Hn) Hall.
    destruct (pii !! k) as [[|v l]|] eqn:Hk; [| |done].
    + apply IH.
      * apply elem_of_cons in Hk' as [->|Hk']; [congruence|by exists k'].
      * intros k'' Hk''. apply Hall. by right.
    + specialize (Hall k ltac:(by left)). unfold pii_get in Hall.
      rewrite Hk in Hall. discriminate Hall.
Qed.

Lemma any_campo_ordem pii ks ks' :
  ks ≡ₚ ks' → (∀ k, k ∈ ks → is_Some (pii !! k)) →
  any_campo pii ks = any_campo pii ks'.
Proof.
  intros Hp Hall.
  assert (Hall' : ∀ k, k ∈ ks' → is_Some (pii !! k)).
  { intros k Hk. apply Hall. by rewrite Hp. }
  pose proof (any_campo_None pii ks Hall) as N1.
  pose proof (any_campo_None pii ks' Hall') as N2.
  pose proof (any_campo_false_iff pii ks) as F1.
  pose proof (any_campo_false_iff pii ks') as F2.
  destruct (any_campo pii ks) as [[|]|], (any_campo pii ks') as [[|]|];
    try done.
  - exfalso. assert (H : Some true = Some false); [|discriminate H].
    apply F1. intros k Hk. apply F2; [done|]. by rewrite <- Hp.
  - exfalso. assert (H : Some true = Some false); [|discriminate H].
    apply F2. intros k Hk. apply F1; [done|]. by rewrite Hp.
Qed.

Lemma lookup_extract_all_nome text : extract_all text !! lit "nome" = None.
Proof.
  apply not_elem_of_dom. rewrite dom_extract_all. cbn [list_to_set].
  rewrite !elem_of_union, !elem_of_singleton, elem_of_empty.
  intros [H|[H|[H|[H|[H|[]]]]]]; revert H; chaves.
Qed.

Lemma classificar_pedido_PUBLICO pii :
  classificar_pedido pii = Some PUBLICO ↔
  ∀ k, k ∈ CHAVES → pii !! k = Some [].
Proof.
  unfold classificar_pedido.
  pose proof (any_campo_false_iff pii (elements PII_FORTE)) as F.
  assert (Hel : ∀ k, k ∈ elements PII_FORTE ↔ k ∈ CHAVES).
  { intros k. by rewrite elem_of_elements, elem_of_PII_FORTE. }
  assert (Hdiff : NAO_PUBLICO ≠ PUBLICO) by chaves.
  destruct (any_campo pii (elements PII_FORTE)) as [[|]|].
  - split; [intros [= H]; by destruct Hdiff|].
    intros H. assert (E : Some true = Some false); [|discriminate E].
    apply F. intros k Hk. apply H. by apply Hel.
  - split; [|done]. intros _ k Hk. apply F; [done|]. by apply Hel.
  - split; [done|].
    intros H. assert (E : @None bool = Some false); [|discriminate E].
    apply F. intros k Hk. apply H. by apply Hel.
Qed.

(** [classificar_pedido] on a mapping that may lack keys: the verdict is
    "PÚBLICO" only when the six keys are bound to empty lists; a [KeyError]
    needs a missing key, and is certain when no bound list has a value; when
    a key is missing and a list has a value the outcome depends on the order
    in which the set is iterated; with the six keys bound it does not.  The
    mapping of [extract_all] lacks the key nome. *)
Theorem classificar_pedido_chave_ausente (pii : gmap str (list str)) :
  (classificar_pedido pii = Some PUBLICO ↔
     ∀ k, k ∈ CHAVES → pii !! k = Some [])
  ∧ (classificar_pedido pii = None → ∃ k, (k ∈ CHAVES) ∧ pii !! k = None)
  ∧ ((∃ k, (k ∈ CHAVES) ∧ pii !! k = None) →
     (∀ k, k ∈ CHAVES → pii_get pii k = []) →
     classificar_pedido pii = None)
  ∧ (∀ ks, ks ≡ₚ elements PII_FORTE →
       (∀ k, k ∈ CHAVES → is_Some (pii !! k)) →
       any_campo pii ks = any_campo pii (elements PII_FORTE))
  ∧ (let incompleto : gmap str (list str) :=
       {[ lit "cpf" := [lit "123.456.789-09"] ]} in
     any_campo incompleto [lit "cpf"; lit "rg"] = Some true
     ∧ any_campo incompleto [lit "rg"; lit "cpf"] = None)
  ∧ (∀ text, extract_all text !! lit "nome" = None
             ∧ classificar_pedido (extract_all text) ≠ Some PUBLICO).
Proof.
  assert (Hel : ∀ k, k ∈ elements PII_FORTE ↔ k ∈ CHAVES).
  { intros k. by rewrite elem_of_elements, elem_of_PII_FORTE. }
  split; [apply classificar_pedido_PUBLICO|].
  split; [|split; [|split; [|split]]].
  - unfold classificar_pedido.
    destruct (any_campo pii (elements PII_FORTE)) as [[|]|] eqn:E; [done|done|].
    intros _. apply any_campo_None_elim in E as (k & Hk & Hn).
    exists k. split; [by apply Hel|done].
  - intros (k & Hk & Hn) Hall. unfold classificar_pedido.
    rewrite any_campo_None_intro; [done| |].
    + exists k. split; [by apply Hel|done].
    + intros k' Hk'. apply Hall. by apply Hel.
  - intros ks Hp Hall. apply any_campo_ordem; [done|].
    intros k Hk. apply Hall, Hel. by rewrite <- Hp.
  - split; reflexivity.
  - intros text. split; [apply lookup_extract_all_nome|].
    rewrite classificar_pedido_PUBLICO. intros H.
    specialize (H (lit "nome")). rewrite lookup_extract_all_nome in H.
    assert (E : @None (list str) = Some []); [|discriminate E].
    apply H. unfold CHAVES. rewrite !elem_of_cons. tauto.
Qed.

(** ** The mapping of [detect_pii] *)

Lemma slice_substring a b (s : str) : ∃ pre post, s = pre ++ slice a b s ++ post.
Proof.
  exists (take a s), (drop (b - a) (drop a s)). unfold slice.
  by rewrite take_drop, take_drop.
Qed.

Lemma findall_substring r text c :
  c ∈ findall r text → ∃ pre post, text = pre ++ c ++ post.
Proof.
  unfold findall. intros Hc. apply list_elem_of_fmap in Hc as (m & -> & _).
  destruct (has_group r); [|apply slice_substring].
  destruct (m_span1 m) as [[a b]|]; [apply slice_substring|].
  by exists [], text.
Qed.

Lemma pii_get_fora (pii : gmap str (list str)) (k : str) :
  k ∉ dom pii → pii_get pii k = [].
Proof. intros H. apply not_elem_of_dom in H. unfold pii_get. by rewrite H. Qed.

Lemma elem_of_CHAVES (k : str) :
  k ∈ CHAVES ↔ k = lit "cpf" ∨ k = lit "rg" ∨ k = lit "email"
               ∨ k = lit "telefone" ∨ k = lit "endereco" ∨ k = lit "nome".
Proof. unfold CHAVES. rewrite !elem_of_cons, elem_of_nil. tauto. Qed.

Lemma pii_get_extract_all_fora text (k : str) :
  k ∉ CHAVES → pii_get (extract_all text) k = [].
Proof.
  intros Hk. apply pii_get_fora. rewrite dom_extract_all. cbn [list_to_set].
  rewrite !elem_of_union, !elem_of_singleton, elem_of_empty.
  rewrite elem_of_CHAVES in Hk. tauto.
Qed.

Lemma filter_fora_de_nil (l : list str) :
  filter (fun v => v ∉ ([] : list str)) l = l.
Proof.
  induction l as [|x l IH]; [done|].
  rewrite filter_cons_True by apply not_elem_of_nil. by rewrite IH.
Qed.

Section ListasDoMapa.

Variable ner : str → list (str * str).

Lemma pii_get_detect_pii_fora text (k : str) :
  k ∉ CHAVES → pii_get (detect_pii ner text) k = [].
Proof.
  intros Hk. apply pii_get_fora. rewrite dom_detect_pii.
  by rewrite elem_of_PII_FORTE.
Qed.

(** The lists of the mapping [detect_pii] returns have no repeated value. *)
Theorem detect_pii_sem_repeticao (text k : str) :
  NoDup (pii_get (detect_pii ner text) k).
Proof.
  destruct (detect_pii_campos_eq ner text) as (Hc & Hr & Hm & Ht & He & Hn).
  destruct (decide (k ∈ CHAVES)) as [Hk|Hk].
  - apply elem_of_CHAVES in Hk as [->|[->|[->|[->|[->| ->]]]]].
    + rewrite Hc. apply NoDup_List_filter, NoDup_extract.
    + rewrite Hr. apply NoDup_List_filter, NoDup_extract.
    + rewrite Hm. apply NoDup_extract.
    + rewrite Ht. apply NoDup_filter, NoDup_List_filter, NoDup_extract.
    + rewrite He. apply NoDup_extract_endereco.
    + rewrite Hn. apply NoDup_elements.
  - rewrite pii_get_detect_pii_fora by done. constructor.
Qed.

(** Every value stored under cpf, rg, email, telefone or endereco is a piece
    of the normalised text, copied as it stands. *)
Theorem detect_pii_valores_do_texto (text k v : str) :
  k ≠ lit "nome" → v ∈ pii_get (detect_pii ner text) k →
  ∃ pre post, normalize text = pre ++ v ++ post.
Proof.
  intros Hk Hv.
  destruct (detect_pii_campos_eq ner text) as (Hc & Hr & Hm & Ht & He & Hn).
  destruct (decide (k ∈ CHAVES)) as [Hin|Hin].
  - apply elem_of_CHAVES in Hin as [->|[->|[->|[->|[->| ->]]]]].
    + rewrite Hc in Hv. apply elem_of_List_filter in Hv as [Hv _].
      apply elem_of_extract in Hv. by eapply findall_substring.
    + rewrite Hr in Hv. apply elem_of_List_filter in Hv as [Hv _].
      apply elem_of_extract in Hv. by eapply findall_substring.
    + rewrite Hm in Hv.
      apply elem_of_extract in Hv. by eapply findall_substring.
    + rewrite Ht in Hv. apply list_elem_of_filter in Hv as [_ Hv].
      apply elem_of_List_filter in Hv as [Hv _].
      apply elem_of_extract in Hv. by eapply findall_substring.
    + rewrite He in Hv. apply elem_of_extract_endereco in Hv as [[Hv|Hv] _];
        by eapply findall_substring.
    + done.
  - rewrite pii_get_detect_pii_fora in Hv by done. inversion Hv.
Qed.

End ListasDoMapa.

Lemma detect_pii_valores_do_texto_witness :
  ∃ pre post,
    normalize (lit "  Fone (61) 3333-4444. ") = pre ++ lit "61) 3333-4444" ++ post.
Proof.
  apply (detect_pii_valores_do_texto (fun _ => [])
           (lit "  Fone (61) 3333-4444. ") (lit "telefone")).
  - chaves.
  - vm_compute. by left.
Defined.

(** In [detect_pii], conflict resolution changes only the phone list: the
    lists of cpf, rg, email and endereco are those of [extract_all], and the
    phone list loses exactly the values that are also national IDs (strings
    of 11 digits that both patterns match). *)
Theorem resolver_so_altera_telefone (ner : str → list (str * str))
    (text : str) :
  let antes := extract_all (normalize text) in
  let pii := detect_pii ner text in
  pii_get pii (lit "cpf") = pii_get antes (lit "cpf")
  ∧ pii_get pii (lit "rg") = pii_get antes (lit "rg")
  ∧ pii_get pii (lit "email") = pii_get antes (lit "email")
  ∧ pii_get pii (lit "endereco") = pii_get antes (lit "endereco")
  ∧ pii_get pii (lit "telefone")
    = filter (fun v => v ∉ pii_get antes (lit "cpf"))
        (pii_get antes (lit "telefone"))
  ∧ (∀ v, v ∈ pii_get antes (lit "telefone") →
          v ∉ pii_get pii (lit "telefone") →
          (v ∈ pii_get pii (lit "cpf")) ∧ length (so_digitos v) = 11)
  ∧ pii_get (extract_all (lit "11987654321")) (lit "telefone")
    = [lit "11987654321"]
  ∧ pii_get (detect_pii ner (lit "11987654321")) (lit "telefone") = []
  ∧ pii_get (detect_pii ner (lit "11987654321")) (lit "cpf")
    = [lit "11987654321"].
Proof.
  intros antes pii. subst antes pii.
  destruct (detect_pii_campos_eq ner text) as (Hc & Hr & Hm & Ht & He & _).
  destruct (pii_get_extract_all (normalize text)) as (Gc & Gr & Gm & Gt & Ge).
  rewrite Hc, Hr, Hm, Ht, He, Gc, Gr, Gm, Gt, Ge.
  do 5 (split; [reflexivity|]). split; [|split; [|split]].
  - intros v Hv Hno.
    destruct (decide (v ∈ candidatos_cpf (normalize text))) as [Hin|Hin].
    + split; [done|]. apply elem_of_List_filter in Hin as [_ Hin].
      by apply Nat.eqb_eq in Hin.
    + destruct Hno. by apply list_elem_of_filter.
  - by vm_compute.
  - rewrite pii_get_detect_pii by chaves. by vm_compute.
  - rewrite pii_get_detect_pii by chaves. by vm_compute.
Qed.

(** The verdict in terms of what was found: "PÚBLICO" exactly when
    [extract_all] found nothing in the normalised text and no name was
    extracted, "NÃO PÚBLICO" exactly when one of them found something;
    conflict resolution never changes the verdict. *)
Theorem veredito_pelo_que_foi_encontrado (ner : str → list (str * str))
    (text : str) :
  (classificar_pedido (detect_pii ner text) = Some PUBLICO ↔
     (∀ k, pii_get (extract_all (normalize text)) k = [])
     ∧ extract_names ner (normalize text) = [])
  ∧ (classificar_pedido (detect_pii ner text) = Some NAO_PUBLICO ↔
     (∃ k v, v ∈ pii_get (extract_all (normalize text)) k)
     ∨ (∃ n, n ∈ extract_names ner (normalize text))).
Proof.
  destruct (classificar_pedido_completo (detect_pii ner text))
    as (HN & HP & Hcases); [intros k; apply detect_pii_chaves|].
  destruct (detect_pii_campos_eq ner text) as (Hc & Hr & Hm & Ht & He & Hn).
  destruct (pii_get_extract_all (normalize text)) as (Gc & Gr & Gm & Gt & Ge).
  assert (Hpub : classificar_pedido (detect_pii ner text) = Some PUBLICO ↔
     (∀ k, pii_get (extract_all (normalize text)) k = [])
     ∧ extract_names ner (normalize text) = []).
  { rewrite HP. split.
    - intros H.
      assert (Hk : ∀ k, k ∈ CHAVES → pii_get (detect_pii ner text) k = [])
        by exact H.
      pose proof (Hk (lit "cpf") ltac:(apply elem_of_CHAVES; tauto)) as Kc.
      pose proof (Hk (lit "rg") ltac:(apply elem_of_CHAVES; tauto)) as Kr.
      pose proof (Hk (lit "email") ltac:(apply elem_of_CHAVES; tauto)) as Km.
      pose proof (Hk (lit "telefone") ltac:(apply elem_of_CHAVES; tauto)) as Kt.
      pose proof (Hk (lit "endereco") ltac:(apply elem_of_CHAVES; tauto)) as Ke.
      pose proof (Hk (lit "nome") ltac:(apply elem_of_CHAVES; tauto)) as Kn.
      rewrite Hc in Kc. rewrite Hr in Kr. rewrite Hm in Km.
      rewrite He in Ke. rewrite Hn in Kn. rewrite Ht, Kc in Kt.
      assert (Kt' : candidatos_telefone (normalize text) = []).
      { rewrite <- Kt. symmetry. apply filter_fora_de_nil. }
      split; [|done]. intros k.
      destruct (decide (k ∈ CHAVES)) as [Hin|Hin];
        [|by apply pii_get_extract_all_fora].
      apply elem_of_CHAVES in Hin as [->|[->|[->|[->|[->| ->]]]]];
        try congruence.
      unfold pii_get. by rewrite lookup_extract_all_nome.
    - intros [Hall Hnames] k Hk.
      apply elem_of_CHAVES in Hk as [->|[->|[->|[->|[->| ->]]]]].
      + by rewrite Hc, <- Gc.
      + by rewrite Hr, <- Gr.
      + by rewrite Hm, <- Gm.
      + rewrite Ht, <- Gt, Hall. done.
      + by rewrite He, <- Ge.
      + by rewrite Hn. }
  split; [exact Hpub|].
  assert (Hdiff : NAO_PUBLICO ≠ PUBLICO) by chaves.
  split.
  - intros HNP. apply HN in HNP as (k & Hk & Hne).
    assert (Hv : ∃ v, v ∈ pii_get (detect_pii ner text) k).
    { destruct (pii_get (detect_pii ner text) k) as [|v l]; [done|].
      exists v. by left. }
    destruct Hv as [v Hv].
    apply elem_of_CHAVES in Hk as [->|[->|[->|[->|[->| ->]]]]].
    + left. exists (lit "cpf"), v. by rewrite Gc, <- Hc.
    + left. exists (lit "rg"), v. by rewrite Gr, <- Hr.
    + left. exists (lit "email"), v. by rewrite Gm, <- Hm.
    + left. exists (lit "telefone"), v. rewrite Gt. rewrite Ht in Hv.
      by apply list_elem_of_filter in Hv as [_ ?].
    + left. exists (lit "endereco"), v. by rewrite Ge, <- He.
    + right. exists v. by rewrite <- Hn.
  - intros Hfound. destruct Hcases as [?|HPUB]; [done|]. exfalso.
    apply Hpub in HPUB as [Hall Hnames].
    destruct Hfound as [(k & v & Hv)|(n & Hn')].
    + rewrite Hall in Hv. inversion Hv.
    + rewrite Hnames in Hn'. inversion Hn'.
Qed.

(** ** The shape of the matches *)

(** A string returned by [findall] for a pattern without group is what one
    successful attempt consumed. *)
Lemma findall_sem_grupo r text c :
  has_group r = false → c ∈ findall r text →
  ∃ prev rest st', matches r (MState prev (c ++ rest) 0 None) st'
    ∧ m_rest st' = rest ∧ m_used st' = length c.
Proof.
  intros Hg Hc. unfold findall in Hc. rewrite Hg in Hc.
  apply list_elem_of_fmap in Hc as (m & -> & Hm).
  apply elem_of_scan in Hm as (i & prev & n & g & _ & Hm & ->). simpl.
  apply match_here_sound in Hm as (st' & Hm & -> & _).
  pose proof (matches_consumed _ _ _ Hm) as (w & Hw & Hu & _).
  simpl in Hw, Hu. rewrite Hu, slice_drop. rewrite Hw in Hm |- *.
  rewrite take_app_length. by exists prev, (m_rest st'), st'.
Qed.

Lemma passo_char x st st' :
  step (fun a => bool_decide (a = x)) st st' →
  m_rest st = x :: m_rest st' ∧ m_used st' = S (m_used st).
Proof.
  intros (a & rest' & Hr & Ha & ->). apply bool_decide_eq_true in Ha as ->.
  by rewrite Hr.
Qed.

Lemma app_mesmo_resto {A} (c w rest : list A) :
  c ++ rest = w ++ rest → c = w.
Proof. apply app_inv_tail. Qed.

Lemma findall_CPF_forma text c :
  c ∈ findall CPF text → ∃ rest, forma_cpf c rest.
Proof.
  unfold findall. change (has_group CPF) with false. cbv iota.
  intros Hc. apply list_elem_of_fmap in Hc as (m & -> & Hm).
  apply elem_of_scan in Hm as (i & prev & n & g & _ & Hm & ->). simpl.
  apply match_here_CPF_forma in Hm as (w & rest & Ht & -> & Hf).
  rewrite slice_drop, Ht, take_app_length. by exists rest.
Qed.

Lemma so_digitos_sinal x s :
  re_digit x = false → sinal x s → so_digitos s = [].
Proof. intros Hx [->| ->]; [done|]. unfold so_digitos. simpl. by rewrite Hx. Qed.

(** A match of [CPF] has 10 or 11 digits; [cpf_formato_valido] keeps those
    with 11. *)
Lemma forma_cpf_digitos w rest :
  forma_cpf w rest → 10 ≤ length (so_digitos w) ≤ 11.
Proof.
  intros (w1 & s1 & w2 & s2 & w3 & s3 & w4 & -> & [L1 F1] & Hs1 & [L2 F2]
            & Hs2 & [L3 F3] & Hs3 & L4 & F4 & _).
  rewrite !so_digitos_app.
  rewrite (so_digitos_sinal "." s1 eq_refl Hs1),
    (so_digitos_sinal "." s2 eq_refl Hs2),
    (so_digitos_sinal "-" s3 eq_refl Hs3).
  rewrite !so_digitos_digitos_id by done. rewrite !length_app. simpl. lia.
Qed.

Lemma findall_RG_forma text c : c ∈ findall RG text → forma_rg c.
Proof.
  intros Hc. apply findall_sem_grupo in Hc as (prev & rest & st' & Hm & Hr & Hu);
    [|done].
  unfold RG, cat, digits in Hm. cbn [foldr matches] in Hm.
  destruct Hm as (st1 & [_ ->] & st2 & H1 & st3 & S1 & st4 & H2 & st5 & S2
                    & st6 & H3 & st7 & S3 & st8 & H4 & st9 & [Hb ->] & ->).
  apply rep_digitos in H1 as (w1 & R1 & U1 & F1 & L1 & M1 & _).
  apply sinal_passo in S1 as (s1 & Hs1 & R2 & U2 & _).
  apply rep_digitos in H2 as (w2 & R3 & U3 & F2 & L2 & M2 & _).
  apply sinal_passo in S2 as (s2 & Hs2 & R4 & U4 & _).
  apply rep_digitos in H3 as (w3 & R5 & U5 & F3 & L3 & M3 & _).
  apply sinal_passo in S3 as (s3 & Hs3 & R6 & U6 & _).
  destruct H4 as (x & rest' & R7 & Hx & ->).
  simpl in R1, U1, Hr, Hu. subst rest'.
  specialize (M1 2 eq_refl). specialize (M2 3 eq_refl).
  specialize (M3 3 eq_refl).
  exists w1, s1, w2, s2, w3, s3, x.
  split.
  - apply (app_mesmo_resto _ _ rest). rewrite R1, R2, R3, R4, R5, R6, R7.
    rewrite <- !app_assoc. done.
  - repeat split; try done; try lia.
    apply orb_true_iff in Hx as [Hx|Hx]; [by left|]. right.
    unfold one_of in Hx. apply bool_decide_eq_true in Hx.
    change (lit "Xx") with ["X"%char; "x"%char] in Hx.
    rewrite !elem_of_cons, elem_of_nil in Hx. tauto.
Qed.

Lemma forma_rg_digitos w : forma_rg w → 7 ≤ length (so_digitos w) ≤ 9.
Proof.
  intros (w1 & s1 & w2 & s2 & w3 & s3 & x & -> & L1 & F1 & Hs1 & [L2 F2]
            & Hs2 & [L3 F3] & Hs3 & Hx).
  rewrite !so_digitos_app.
  rewrite (so_digitos_sinal "." s1 eq_refl Hs1),
    (so_digitos_sinal "." s2 eq_refl Hs2),
    (so_digitos_sinal "-" s3 eq_refl Hs3).
  rewrite !so_digitos_digitos_id by done. rewrite !length_app.
  assert (Hx1 : length (so_digitos [x]) ≤ 1).
  { unfold so_digitos. simpl. destruct (re_digit x); simpl; lia. }
  revert Hx1. generalize (length (so_digitos [x])). intros n Hn.
  simpl. lia.
Qed.

Lemma findall_EMAIL_forma text c : c ∈ findall EMAIL text → forma_email c.
Proof.
  intros Hc. apply findall_sem_grupo in Hc as (prev & rest & st' & Hm & Hr & Hu);
    [|done].
  unfold EMAIL, cat in Hm. cbn [foldr matches] in Hm.
  destruct Hm as (st1 & [_ ->] & st2 & H1 & st3 & S1 & st4 & H2 & st5 & S2
                    & st6 & H3 & st7 & [Hb ->] & ->).
  apply rep_digitos in H1 as (l & R1 & U1 & F1 & L1 & _ & _).
  apply passo_char in S1 as [R2 U2].
  apply rep_digitos in H2 as (d & R3 & U3 & F2 & L2 & _ & _).
  apply passo_char in S2 as [R4 U4].
  apply rep_digitos in H3 as (tld & R5 & U5 & F3 & L3 & _ & _).
  simpl in R1, U1. subst rest.
  exists l, d, tld. split.
  - apply (app_mesmo_resto _ _ (m_rest st6)).
    rewrite R1, R2, R3, R4, R5. rewrite <- !app_assoc. simpl.
    by rewrite <- !app_assoc.
  - split; [intros ->; simpl in L1; lia|]. split; [done|].
    split; [intros ->; simpl in L2; lia|]. done.
Qed.

(** ** The candidate of [rg_valido] as a pattern *)

Lemma matches_pattern_of s :
  ∀ st st', matches (pattern_of s) st st' →
  ∃ w, m_rest st = w ++ m_rest st' ∧ m_used st' = m_used st + length w
    ∧ casa_com s w.
Proof.
  induction s as [|c s IH]; intros st st'.
  - intros ->. exists []. split; [done|]. split; [simpl; lia|constructor].
  - unfold pattern_of, cat. cbn [map foldr matches].
    intros (st1 & Hc & Hs). apply IH in Hs as (w & Hw & Hu & Hcasa).
    assert (Hstep : ∃ a, m_rest st = a :: m_rest st1
                     ∧ m_used st1 = S (m_used st)
                     ∧ if decide (c = "."%char) then a ≠ chr 10 else a = c).
    { destruct (bool_decide_reflect (c = "."%char)) as [->|Hne];
        cbn [matches] in Hc; destruct Hc as (a & rest' & Hr & Ha & ->);
        exists a; (split; [done|]); (split; [done|]).
      - rewrite decide_True by done. apply negb_true_iff in Ha.
        by apply bool_decide_eq_false in Ha.
      - rewrite decide_False by done. by apply bool_decide_eq_true in Ha. }
    destruct Hstep as (a & Ha & Hu1 & Hcond). exists (a :: w).
    rewrite Ha, Hw, Hu, Hu1. split; [done|]. split; [simpl; lia|].
    by constructor.
Qed.

Lemma casa_com_sem_ponto rg w :
  "."%char ∉ rg → casa_com rg w → w = rg.
Proof.
  intros Hno Hc. induction Hc as [|c a rg w Hca _ IH]; [done|].
  apply not_elem_of_cons in Hno as [Hne Hno].
  rewrite decide_False in Hca by done. subst a. f_equal. by apply IH.
Qed.

Lemma finditer_pattern_of rg text m :
  m ∈ finditer (pattern_of rg) text →
  ∃ pre w post, text = pre ++ w ++ post ∧ length pre = m_start m
    ∧ casa_com rg w.
Proof.
  unfold finditer. intros Hm.
  apply elem_of_scan in Hm as (i & prev & n & g & Hi & Hm & ->). simpl.
  apply match_here_sound in Hm as (st' & Hm & -> & _).
  apply matches_pattern_of in Hm as (w & Hw & _ & Hcasa). simpl in Hw.
  exists (take i text), w, (m_rest st'). split; [|split; [|done]].
  - rewrite <- Hw. by rewrite take_drop.
  - rewrite length_take. lia.
Qed.

Lemma janela_antes pre resto :
  slice (length pre - 15) (length pre) (pre ++ resto)
  = drop (length pre - 15) pre.
Proof.
  unfold slice. rewrite drop_app_le by lia.
  rewrite take_app_length'; [done|]. rewrite length_drop. lia.
Qed.

Lemma rg_valido_ocorre rg text :
  rg_valido rg text = true →
  ∃ pre w post, text = pre ++ w ++ post ∧ casa_com rg w
    ∧ existsb (fun p => contains p (lower (drop (length pre - 15) pre)))
        PALAVRAS_RG = true.
Proof.
  intros H. apply rg_valido_iff in H as (_ & m & Hm & Hj).
  apply finditer_pattern_of in Hm as (pre & w & post & Ht & Hl & Hc).
  exists pre, w, post. split; [done|]. split; [done|].
  unfold janela_tem_palavra in Hj. rewrite <- Hl in Hj.
  rewrite Ht in Hj. by rewrite janela_antes in Hj.
Qed.

(** When [rg_valido] accepts a candidate written with the characters of a
    match of [RG] (digits, dots, hyphens, [X], [x]), the text holds, right
    after a window of 15 characters with one of the keywords, a string that
    the candidate matches as a pattern; it is the candidate itself when the
    candidate has no dot. *)
Theorem rg_valido_ocorrencia (rg text : str) :
  alfabeto_rg rg →
  rg_valido rg text = true →
  (7 ≤ length (so_digitos rg) ≤ 9)
  ∧ ∃ pre w post, text = pre ++ w ++ post ∧ casa_com rg w
      ∧ existsb (fun p => contains p (lower (drop (length pre - 15) pre)))
          PALAVRAS_RG = true
      ∧ ("."%char ∉ rg → w = rg).
Proof.
  intros _ H. split; [by apply rg_valido_iff in H as [? _]|].
  apply rg_valido_ocorre in H as (pre & w & post & Ht & Hc & Hj).
  exists pre, w, post. repeat split; try done.
  intros Hno. by apply casa_com_sem_ponto.
Qed.

Lemma rg_valido_ocorrencia_witness :
  (7 ≤ length (so_digitos (lit "1234567-8")) ≤ 9)
  ∧ ∃ pre w post, lit "Identidade: 1234567-8." = pre ++ w ++ post
      ∧ casa_com (lit "1234567-8") w
      ∧ existsb (fun p => contains p (lower (drop (length pre - 15) pre)))
          PALAVRAS_RG = true
      ∧ ("."%char ∉ lit "1234567-8" → w = lit "1234567-8").
Proof.
  apply (rg_valido_ocorrencia (lit "1234567-8")
           (lit "Identidade: 1234567-8.")).
  - unfold alfabeto_rg.
    change (lit "1234567-8") with (list_ascii_of_string "1234567-8").
    cbn [list_ascii_of_string].
    repeat (constructor;
            [first [by left | right; vm_compute; set_solver]|]).
    constructor.
  - vm_compute. reflexivity.
Defined.

(** ** The format of the candidates *)

(** Every candidate the pattern [RG] returns has the shape
    [d{1,2}.ddd.ddd-c] with optional separators and therefore 7 to 9
    digits: for the candidates of the pipeline the digit test of [rg_valido]
    always passes and the answer is that of the keyword window. *)
Theorem rg_candidato_formato (text r : str) :
  r ∈ findall RG text →
  forma_rg r ∧ (7 ≤ length (so_digitos r) ≤ 9)
  ∧ ∀ t, rg_valido r t
         = existsb (janela_tem_palavra t) (finditer (pattern_of r) t).
Proof.
  intros Hr. apply findall_RG_forma in Hr.
  pose proof (forma_rg_digitos r Hr) as [H7 H9].
  split; [done|]. split; [done|]. intros t. unfold rg_valido.
  apply Nat.leb_le in H7, H9. by rewrite H7, H9.
Qed.

Lemma rg_candidato_formato_witness :
  forma_rg (lit "12.345.678-X")
  ∧ (7 ≤ length (so_digitos (lit "12.345.678-X")) ≤ 9)
  ∧ ∀ t, rg_valido (lit "12.345.678-X") t
         = existsb (janela_tem_palavra t)
             (finditer (pattern_of (lit "12.345.678-X")) t).
Proof.
  apply (rg_candidato_formato (lit "RG 12.345.678-X")). vm_compute. by left.
Defined.

Section FormatoDoCpf.

Variable ner : str → list (str * str).

Lemma cpf_da_lista text c :
  c ∈ pii_get (detect_pii ner text) (lit "cpf") →
  ∃ w1 s1 w2 s2 w3 s3 w4,
    c = w1 ++ s1 ++ w2 ++ s2 ++ w3 ++ s3 ++ w4
    ∧ digitos 3 w1 ∧ sinal "." s1 ∧ digitos 3 w2 ∧ sinal "." s2
    ∧ digitos 3 w3 ∧ sinal "-" s3 ∧ digitos 2 w4.
Proof.
  intros Hc. apply cpf_detect_pii in Hc as [Hc Hv].
  apply findall_CPF_forma in Hc as (rest & w1 & s1 & w2 & s2 & w3 & s3 & w4
    & -> & [L1 F1] & Hs1 & [L2 F2] & Hs2 & [L3 F3] & Hs3 & L4 & F4 & _).
  exists w1, s1, w2, s2, w3, s3, w4. repeat split; try done.
  unfold cpf_formato_valido in Hv. apply Nat.eqb_eq in Hv.
  rewrite !so_digitos_app in Hv.
  rewrite (so_digitos_sinal "." s1 eq_refl Hs1),
    (so_digitos_sinal "." s2 eq_refl Hs2),
    (so_digitos_sinal "-" s3 eq_refl Hs3) in Hv.
  rewrite !so_digitos_digitos_id in Hv by done.
  rewrite !length_app in Hv. simpl in Hv. lia.
Qed.

End FormatoDoCpf.

(** The email list is what the pattern [EMAIL] finds in the normalised text,
    and each of its values is a local part, one [@], a domain and a final
    label of at least two letters. *)
Theorem email_da_lista_formato (ner : str → list (str * str)) (text : str) :
  pii_get (detect_pii ner text) (lit "email")
  = extract EMAIL (normalize text)
  ∧ (∀ e, e ∈ pii_get (detect_pii ner text) (lit "email") ↔
          e ∈ findall EMAIL (normalize text))
  ∧ (∀ e, e ∈ findall EMAIL (normalize text) → forma_email e).
Proof.
  destruct (detect_pii_campos_eq ner text) as (_ & _ & Hm & _).
  split; [exact Hm|]. split.
  - intros e. rewrite Hm. apply elem_of_extract.
  - intros e. apply findall_EMAIL_forma.
Qed.

(** ** Addresses: the street pattern *)

(** A greedy repetition that ends the pattern stops only where the next
    character is not accepted. *)
Lemma rep_greedy_zero_total p rest :
  ∀ prev used grp, rep_greedy p 0 None Some prev rest used grp ≠ None.
Proof.
  induction rest as [|c rest IH]; intros prev used grp; [done|].
  cbn [rep_greedy]. destruct (p c); cbn [andb hi_allows]; [|done].
  cbn [pred fmap option_fmap option_map].
  destruct (rep_greedy p 0 None Some (Some c) rest (S used) grp) eqn:E; [done|].
  by apply IH in E.
Qed.

Lemma rep_greedy_max p rest :
  ∀ lo prev used grp res,
  rep_greedy p lo None Some prev rest used grp = Some res →
  ∀ c, head (m_rest res) = Some c → p c = false.
Proof.
  induction rest as [|a rest IH]; intros lo prev used grp res.
  - cbn [rep_greedy]. destruct lo; [|done]. intros [= <-] c Hc. done.
  - cbn [rep_greedy]. destruct (p a) eqn:Ha; cbn [andb hi_allows].
    + cbn [fmap option_fmap option_map].
      destruct (rep_greedy p (pred lo) None Some (Some a) rest (S used) grp)
        as [r|] eqn:E.
      * intros [= <-]. by eapply IH.
      * destruct lo as [|lo]; [|done]. by apply rep_greedy_zero_total in E.
    + destruct lo; [|done]. intros [= <-] c [= <-]. exact Ha.
Qed.

Lemma match_here_resto r prev rest n g :
  match_here r prev rest = Some (n, g) →
  ∃ st, run r (MState prev rest 0 None) Some = Some st
    ∧ m_used st = n ∧ m_rest st = drop n rest ∧ n ≤ length rest.
Proof.
  unfold match_here. destruct (run r _ Some) as [st|] eqn:Hrun; [|done].
  intros [= <- <-]. exists st. split; [done|]. split; [done|].
  apply run_sound in Hrun as (st' & Hm & [= ->]).
  apply matches_consumed in Hm as (w & Hw & Hu & _). simpl in Hw, Hu.
  rewrite Hu, Hw, length_app. rewrite drop_app_length. split; [done|lia].
Qed.

Lemma match_here_LOGRADOURO_max prev rest n g :
  match_here LOGRADOURO prev rest = Some (n, g) →
  ∀ c, head (drop n rest) = Some c → letra_de_logradouro c = false.
Proof.
  intros Hm. apply match_here_resto in Hm as (st & Hrun & _ & <- & _).
  unfold LOGRADOURO, cat in Hrun. cbn [foldr] in Hrun. cbn [run] in Hrun.
  destruct (at_boundary _ _); [|done].
  apply run_sound in Hrun as (st2 & _ & Hrun).
  apply rep_greedy_sound in Hrun as (st3 & _ & Hrun).
  intros c Hc. by eapply (rep_greedy_max _ _ _ _ _ _ _ Hrun).
Qed.

Lemma matches_wordI (s : str) :
  ∀ st st', matches (cat (map RCharI s)) st st' →
  ∃ w, m_rest st = w ++ m_rest st' ∧ lower w = lower s.
Proof.
  induction s as [|c s IH]; intros st st'.
  - intros ->. by exists [].
  - unfold cat. cbn [map foldr matches].
    intros (st1 & (a & rest' & Hr & Ha & ->) & Hs).
    apply IH in Hs as (w & Hw & Hl). simpl in Hw. exists (a :: w).
    rewrite Hr, Hw. split; [done|]. simpl. rewrite Hl.
    apply bool_decide_eq_true in Ha. by rewrite Ha.
Qed.

Lemma matches_wordI_ponto (s : str) st st' :
  matches (cat [cat (map RCharI s); ROpt (RChar ".")]) st st' →
  ∃ w, m_rest st = w ++ m_rest st'
    ∧ (lower w = lower s ∨ lower w = lower s ++ lit ".").
Proof.
  unfold cat at 1. cbn [foldr matches].
  intros (st1 & Hs & st2 & Hp & ->).
  apply matches_wordI in Hs as (w & Hw & Hl).
  apply sinal_passo in Hp as (p & [-> | ->] & Hr & _).
  - exists w. rewrite Hw, Hr. split; [done|by left].
  - exists (w ++ lit "."). rewrite Hw, Hr, <- app_assoc. split; [done|].
    right. unfold lower in *. by rewrite map_app, Hl.
Qed.

Lemma LOGRADOURO_eq :
  LOGRADOURO =
  RSeq RBound
    (RSeq (alt [wordI "Rua"; cat [RCharI "R"; RChar "."]; wordI "Avenida";
                cat [wordI "Av"; ROpt (RChar ".")]; wordI "Travessa";
                cat [wordI "Tv"; ROpt (RChar ".")]; wordI "Alameda";
                wordI "Estrada"; wordI "Rodovia"])
       (RSeq (RRep isspace 1 None)
          (RSeq (RRep letra_de_logradouro 3 None) REps))).
Proof. reflexivity. Qed.

Ltac tipo_simples H :=
  apply matches_wordI in H as (w & Hw & Hl); exists w; split; [done|];
  rewrite Hl; vm_compute; set_solver.

Lemma matches_tipo st st' :
  matches (alt [wordI "Rua"; cat [RCharI "R"; RChar "."]; wordI "Avenida";
                cat [wordI "Av"; ROpt (RChar ".")]; wordI "Travessa";
                cat [wordI "Tv"; ROpt (RChar ".")]; wordI "Alameda";
                wordI "Estrada"; wordI "Rodovia"]) st st' →
  ∃ w, m_rest st = w ++ m_rest st' ∧ (lower w ∈ TIPOS_LOGRADOURO).
Proof.
  cbn [alt matches].
  intros [H|[H|[H|[H|[H|[H|[H|[H|H]]]]]]]].
  - tipo_simples H.
  - unfold cat in H. cbn [foldr matches] in H.
    destruct H as (st1 & (a & r1 & Hr1 & Ha & ->) & st2
                     & (b & r2 & Hr2 & Hb & ->) & ->).
    simpl in Hr2. apply bool_decide_eq_true in Ha, Hb. subst b r1.
    exists [a; "."%char]. split; [by rewrite Hr1|].
    unfold lower. cbn [map]. rewrite Ha. vm_compute. set_solver.
  - tipo_simples H.
  - apply matches_wordI_ponto in H as (w & Hw & [Hl|Hl]);
      exists w; (split; [done|]); rewrite Hl; vm_compute; set_solver.
  - tipo_simples H.
  - apply matches_wordI_ponto in H as (w & Hw & [Hl|Hl]);
      exists w; (split; [done|]); rewrite Hl; vm_compute; set_solver.
  - tipo_simples H.
  - tipo_simples H.
  - tipo_simples H.
Qed.

Lemma findall_LOGRADOURO_forma text e :
  e ∈ findall LOGRADOURO text → forma_logradouro e.
Proof.
  intros He.
  apply findall_sem_grupo in He as (prev & rest & st' & Hm & Hr & Hu); [|done].
  rewrite LOGRADOURO_eq in Hm. cbn [matches] in Hm.
  destruct Hm as (st1 & [_ ->] & st2 & Ht & st3 & Hs & st4 & Hn & ->).
  apply matches_tipo in Ht as (tipo & R1 & Htipo).
  apply rep_digitos in Hs as (sp & R2 & _ & F2 & L2 & _).
  apply rep_digitos in Hn as (nome & R3 & _ & F3 & L3 & _).
  simpl in R1. subst rest. exists tipo, sp, nome. split.
  - apply (app_mesmo_resto _ _ (m_rest st4)).
    rewrite R1, R2, R3. by rewrite <- !app_assoc.
  - split; [done|]. split; [intros ->; simpl in L2; lia|]. done.
Qed.

Lemma findall_LOGRADOURO_max text e :
  e ∈ findall LOGRADOURO text →
  ∃ pre post, text = pre ++ e ++ post
    ∧ ∀ c, head post = Some c → letra_de_logradouro c = false.
Proof.
  unfold findall. change (has_group LOGRADOURO) with false. cbv iota.
  intros He. apply list_elem_of_fmap in He as (m & -> & Hm).
  apply elem_of_scan in Hm as (i & prev & n & g & _ & Hm & ->). simpl.
  exists (take i text), (drop n (drop i text)). rewrite slice_drop. split.
  - by rewrite !take_drop.
  - by apply (match_here_LOGRADOURO_max prev _ n g).
Qed.

(** Every address of the mapping was matched by [LOGRADOURO]: a street-type
    word in any case, white space and a street name, running in the text up
    to the first character that is not a letter, a digit or white space; it
    passed [endereco_valido]. *)
Theorem endereco_da_lista_formato (ner : str → list (str * str))
    (text e : str) :
  e ∈ pii_get (detect_pii ner text) (lit "endereco") →
  forma_logradouro e
  ∧ endereco_valido e = true
  ∧ ∃ pre post, normalize text = pre ++ e ++ post
      ∧ ∀ c, head post = Some c → letra_de_logradouro c = false.
Proof.
  intros He. apply endereco_detect_pii in He.
  apply elem_of_extract_endereco in He as [He Hv].
  assert (Hl : e ∈ findall LOGRADOURO (normalize text)).
  { destruct He as [He|He]; [done|].
    apply findall_QUADRA_LOTE_sem_digito in He.
    apply endereco_valido_sem_digito in He. congruence. }
  split; [by eapply findall_LOGRADOURO_forma|]. split; [done|].
  by apply findall_LOGRADOURO_max.
Qed.

Lemma endereco_da_lista_formato_witness :
  forma_logradouro (lit "Rua das Flores 123")
  ∧ endereco_valido (lit "Rua das Flores 123") = true
  ∧ ∃ pre post,
      normalize (lit "Moro na Rua das Flores 123, Centro")
      = pre ++ lit "Rua das Flores 123" ++ post
      ∧ ∀ c, head post = Some c → letra_de_logradouro c = false.
Proof.
  apply (endereco_da_lista_formato (fun _ => [])
           (lit "Moro na Rua das Flores 123, Centro")).
  vm_compute. by left.
Defined.

(** ** The report *)

Lemma dados_sensiveis_lookup (pii : gmap str (list str)) (k : str)
    (l : list str) :
  dados_sensiveis pii !! k = Some l ↔ pii !! k = Some l ∧ l ≠ [].
Proof. unfold dados_sensiveis. by rewrite map_lookup_filter_Some. Qed.

Lemma dados_sensiveis_vazio (pii : gmap str (list str)) :
  dados_sensiveis pii = ∅ ↔ ∀ k, pii_get pii k = [].
Proof.
  unfold dados_sensiveis. rewrite map_empty_filter. unfold map_Forall, pii_get.
  split.
  - intros H k. destruct (pii !! k) as [l|] eqn:E; [|done]. simpl.
    specialize (H k l E). simpl in H. by apply dec_stable in H.
  - intros H k l E Hne. simpl in Hne. specialize (H k). rewrite E in H.
    by apply Hne.
Qed.

Lemma registro_de_veredito ner idx text :
  let r := registro_de ner idx text in
  numero r = idx + 1
  ∧ (veredito r = Some PUBLICO ∨ veredito r = Some NAO_PUBLICO)
  ∧ (campos r = ∅ ↔ veredito r = Some PUBLICO)
  ∧ (∀ k l, campos r !! k = Some l ↔
            detect_pii ner text !! k = Some l ∧ l ≠ [])
  ∧ dom (campos r) ⊆ PII_FORTE.
Proof.
  intros r. subst r. unfold registro_de. cbn [numero veredito campos].
  destruct (classificar_pedido_completo (detect_pii ner text))
    as (HN & HP & Hcases); [intros k; apply detect_pii_chaves|].
  split; [done|]. split; [tauto|]. split; [|split].
  - rewrite dados_sensiveis_vazio, HP. split.
    + intros H k _. apply H.
    + intros H k. destruct (decide (k ∈ CHAVES)) as [Hk|Hk]; [by apply H|].
      by apply pii_get_detect_pii_fora.
  - apply dados_sensiveis_lookup.
  - intros k Hk. apply elem_of_dom in Hk as [l Hl].
    apply dados_sensiveis_lookup in Hl as [Hl _].
    rewrite <- (dom_detect_pii ner text). apply elem_of_dom. by exists l.
Qed.

(** The report of the loop over the texts: one record per text, numbered
    from 1, each with a verdict (no [KeyError]); the record lists exactly
    the fields of the mapping with at least one value, and lists none
    exactly when the verdict is "PÚBLICO". *)
Theorem relatorio_propriedades (ner : str → list (str * str))
    (texts : list str) :
  length (relatorio ner texts) = length texts
  ∧ ∀ i text, texts !! i = Some text →
      ∃ r, relatorio ner texts !! i = Some r
        ∧ numero r = i + 1
        ∧ (veredito r = Some PUBLICO ∨ veredito r = Some NAO_PUBLICO)
        ∧ (campos r = ∅ ↔ veredito r = Some PUBLICO)
        ∧ (∀ k l, campos r !! k = Some l ↔
                  detect_pii ner text !! k = Some l ∧ l ≠ [])
        ∧ dom (campos r) ⊆ PII_FORTE.
Proof.
  split; [apply length_imap|]. intros i text Hi.
  exists (registro_de ner i text). split.
  - unfold relatorio. by rewrite list_lookup_imap, Hi.
  - apply registro_de_veredito.
Qed.

(** ** Where a phone match starts *)

(** Every match object of the scan is a successful attempt at a position
    of the text, with the character before that position as [prev]. *)
Lemma elem_of_scan_prev r rest :
  ∀ prev pos skip m, m ∈ scan r prev pos rest skip →
  ∃ i n g, i ≤ length rest
    ∧ match_here r (last_or prev (take i rest)) (drop i rest) = Some (n, g)
    ∧ m = RMatch (pos + i) (pos + i + n) (shift_span (pos + i) g).
Proof.
  induction rest as [|c rest IH]; intros prev pos skip m.
  - destruct skip as [|skip]; simpl; [|by intros H; inversion H].
    destruct (match_here r prev []) as [[n g]|] eqn:Hm; [|by intros H; inversion H].
    intros H. apply list_elem_of_singleton in H as ->.
    exists 0, n, g. rewrite !Nat.add_0_r. by split; [simpl; lia|].
  - assert (Htail : ∀ skip', m ∈ scan r (Some c) (S pos) rest skip' →
      ∃ i n g, i ≤ length (c :: rest)
        ∧ match_here r (last_or prev (take i (c :: rest)))
            (drop i (c :: rest)) = Some (n, g)
        ∧ m = RMatch (pos + i) (pos + i + n) (shift_span (pos + i) g)).
    { intros skip' H. apply IH in H as (i & n & g & Hi & Hm & ->).
      exists (S i), n, g. split; [simpl; lia|]. split.
      - change (take (S i) (c :: rest)) with (c :: take i rest).
        rewrite <- last_or_cons. exact Hm.
      - by replace (pos + S i) with (S pos + i) by lia. }
    destruct skip as [|skip]; simpl; [|apply Htail].
    destruct (match_here r prev (c :: rest)) as [[n g]|] eqn:Hm; [|apply Htail].
    intros H. apply elem_of_cons in H as [->|H]; [|by eapply Htail].
    exists 0, n, g. rewrite !Nat.add_0_r. by split; [simpl; lia|].
Qed.

Lemma last_or_None w : last_or None w = last w.
Proof. unfold last_or. by destruct (last w). Qed.

(** A string returned by [findall], with what stands before and after it in
    the text. *)
Lemma findall_contexto r text c :
  has_group r = false → c ∈ findall r text →
  ∃ pre post n g, text = pre ++ c ++ post
    ∧ match_here r (last pre) (c ++ post) = Some (n, g) ∧ n = length c.
Proof.
  intros Hg Hc. unfold findall in Hc. rewrite Hg in Hc.
  apply list_elem_of_fmap in Hc as (m & -> & Hm).
  apply elem_of_scan_prev in Hm as (i & n & g & Hi & Hm & ->). simpl.
  rewrite last_or_None in Hm. rewrite slice_drop.
  exists (take i text), (drop n (drop i text)), n, g.
  rewrite !take_drop. split; [done|]. split; [done|].
  apply match_here_resto in Hm as (_ & _ & _ & _ & Hn).
  rewrite length_take. lia.
Qed.

Lemma digitos_inicio p lo hi st st' :
  rep p (S lo) hi st st' →
  ∃ a rest', m_rest st = a :: rest' ∧ p a = true.
Proof.
  intros H. apply rep_digitos in H as (w & Hw & _ & F & L & _).
  destruct w as [|a w]; [simpl in L; lia|]. exists a, (w ++ m_rest st').
  split; [done|]. by inversion F.
Qed.

Lemma match_here_TELEFONE_inicio prev rest n g :
  match_here TELEFONE prev rest = Some (n, g) →
  ∃ a rest', rest = a :: rest'
    ∧ (re_digit a = true
       ∨ ((a = "+"%char ∨ a = "("%char) ∧ word_at prev = true)).
Proof.
  intros Hm. apply match_here_sound in Hm as (st' & Hm & _).
  unfold TELEFONE, cat, digits in Hm. cbn [foldr matches] in Hm.
  destruct Hm as (st1 & [Hb ->] & st2 & G1 & st3 & G2 & st4 & N & st5 & D & _).
  cbn [m_prev m_rest] in Hb.
  assert (Hnw : ∀ a rest', rest = a :: rest' → re_word a = false →
                word_at prev = true).
  { intros a rest' -> Ha. unfold at_boundary in Hb. cbn [head word_at] in Hb.
    rewrite Ha in Hb. by destruct (word_at prev). }
  destruct G1 as [(sa & (a & r1 & Hr & Ha & _) & _)| ->].
  { cbn [m_rest] in Hr. apply bool_decide_eq_true in Ha as ->.
    exists "+"%char, r1. split; [done|]. right. split; [by left|].
    by apply (Hnw _ _ Hr). }
  destruct G2 as [(sa & P & sb & D2 & _)| ->].
  { destruct P as [(a & r1 & Hr & Ha & _)| ->].
    - cbn [m_rest] in Hr. apply bool_decide_eq_true in Ha as ->.
      exists "("%char, r1. split; [done|]. right. split; [by right|].
      by apply (Hnw _ _ Hr).
    - apply digitos_inicio in D2 as (a & r1 & Hr & Ha).
      exists a, r1. split; [done|by left]. }
  destruct N as [(a & r1 & Hr & Ha & _)| ->].
  { cbn [m_rest] in Hr. apply bool_decide_eq_true in Ha as ->.
    exists "9"%char, r1. split; [done|by left]. }
  apply digitos_inicio in D as (a & r1 & Hr & Ha).
  exists a, r1. split; [done|by left].
Qed.

Lemma match_here_TELEFONE_longo prev rest n g :
  match_here TELEFONE prev rest = Some (n, g) → 8 ≤ n.
Proof.
  intros Hm. apply match_here_sound in Hm as (st' & Hm & -> & _).
  unfold TELEFONE, cat, digits in Hm. cbn [foldr matches] in Hm.
  destruct Hm as (st1 & _ & st2 & _ & st3 & _ & st4 & _ & st5 & D1 & st6 & S
                    & st7 & D2 & st8 & [_ ->] & ->).
  apply rep_digitos in D1 as (w1 & _ & U1 & _ & L1 & _).
  apply sinal_passo in S as (s & _ & _ & U2 & _).
  apply rep_digitos in D2 as (w2 & _ & U3 & _ & L2 & _).
  lia.
Qed.

(** A phone match starts with a digit, unless the character before it in
    the text is a word character: only then can it start with [+] or [(].
    After a space, [(61) 3333-4444] is returned without its opening
    parenthesis. *)
Theorem telefone_inicio (text c : str) :
  c ∈ findall TELEFONE text →
  ∃ pre post a c', text = pre ++ c ++ post ∧ c = a :: c'
    ∧ (re_digit a = true
       ∨ ((a = "+"%char ∨ a = "("%char) ∧ word_at (last pre) = true)).
Proof.
  intros Hc. apply findall_contexto in Hc as (pre & post & n & g & Ht & Hm & Hn);
    [|done].
  pose proof (match_here_TELEFONE_longo _ _ _ _ Hm) as Hlen.
  apply match_here_TELEFONE_inicio in Hm as (a & rest' & Hr & Ha).
  destruct c as [|a' c']; [simpl in Hn; lia|].
  simpl in Hr. injection Hr as Ha' _. subst a'. by exists pre, post, a, c'.
Qed.

Lemma telefone_inicio_witness :
  ∃ pre post a c',
    lit " (61) 3333-4444" = pre ++ lit "61) 3333-4444" ++ post
    ∧ lit "61) 3333-4444" = a :: c'
    ∧ (re_digit a = true
       ∨ ((a = "+"%char ∨ a = "("%char) ∧ word_at (last pre) = true)).
Proof.
  apply (telefone_inicio (lit " (61) 3333-4444") (lit "61) 3333-4444")).
  vm_compute. by left.
Defined.

(** ** The validator of addresses against the street types *)

Lemma startswith_refl_app p r : startswith (p ++ r) p = true.
Proof.
  induction p as [|a p IH]; [by destruct r|].
  change ((a :: p) ++ r) with (a :: (p ++ r)). cbn [startswith].
  destruct (decide (a = a)); [exact IH|done].
Qed.

Lemma contains_startswith p s : startswith s p = true → contains p s = true.
Proof. intros H. destruct s; cbn [contains]; by rewrite H. Qed.

Lemma contains_intro p l r : contains p (l ++ p ++ r) = true.
Proof.
  induction l as [|c l IH].
  - rewrite app_nil_l. apply contains_startswith, startswith_refl_app.
  - change ((c :: l) ++ p ++ r) with (c :: (l ++ p ++ r)).
    cbn [contains]. rewrite IH. apply orb_true_r.
Qed.

Lemma contains_app_l p s r : contains p s = true → contains p (s ++ r) = true.
Proof.
  intros H. apply contains_app in H as (l & r' & ->).
  rewrite <- !app_assoc. apply contains_intro.
Qed.

Lemma lower_app u v : lower (u ++ v) = lower u ++ lower v.
Proof. apply map_app. Qed.

Lemma contains_app_r p u v : contains p v = true → contains p (u ++ v) = true.
Proof.
  intros H. apply contains_app in H as (l & r & ->).
  rewrite app_assoc. apply contains_intro.
Qed.

(** An occurrence of [p] at the start of [u ++ v] lies in [u], or runs into
    [v] and so contains the first character of [v]. *)
Lemma startswith_app_casos u : ∀ v p,
  startswith (u ++ v) p = true →
  startswith u p = true ∨ ∃ c, head v = Some c ∧ c ∈ p.
Proof.
  induction u as [|x u IH]; intros v p.
  - destruct p as [|a p]; [by left|]. destruct v as [|b v]; [done|].
    rewrite app_nil_l. cbn [startswith].
    destruct (decide (a = b)) as [->|]; [|done].
    intros _. right. exists b. split; [done|by left].
  - destruct p as [|a p]; [by left|].
    change ((x :: u) ++ v) with (x :: (u ++ v)). cbn [startswith].
    destruct (decide (a = x)) as [->|]; [|done].
    intros H. destruct (IH _ _ H) as [H'|(c & Hc & Hin)]; [by left|].
    right. exists c. split; [done|by right].
Qed.

Lemma contains_cons p x s : contains p s = true → contains p (x :: s) = true.
Proof. intros H. cbn [contains]. rewrite H. apply orb_true_r. Qed.

Lemma contains_app_casos p u : ∀ v,
  contains p (u ++ v) = true →
  contains p u = true ∨ contains p v = true ∨ ∃ c, head v = Some c ∧ c ∈ p.
Proof.
  induction u as [|x u IH]; intros v; [by right; left|].
  change ((x :: u) ++ v) with (x :: (u ++ v)).
  intros H. cbn [contains] in H. apply orb_true_iff in H as [H|H].
  - apply (startswith_app_casos (x :: u)) in H as [H|H]; [|by right; right].
    left. by apply contains_startswith.
  - destruct (IH _ H) as [H'|[H'|H']]; [|by right; left|by right; right].
    left. by apply contains_cons.
Qed.

Lemma isdigit_lower_char c : isdigit (lower_char c) = isdigit c.
Proof. destruct c as [[] [] [] [] [] [] [] []]; reflexivity. Qed.

Lemma existsb_isdigit_lower s : existsb isdigit (lower s) = existsb isdigit s.
Proof.
  induction s as [|c s IH]; [done|]. simpl. by rewrite isdigit_lower_char, IH.
Qed.

Lemma isspace_lower_char c : isspace c = true → lower_char c = c.
Proof. destruct c as [[] [] [] [] [] [] [] []]; vm_compute; congruence. Qed.

(** The keywords of [endereco_valido]. *)
Lemma endereco_valido_eq e :
  endereco_valido e
  = existsb (fun p => contains p (lower e)) PALAVRAS_ENDERECO
    && existsb isdigit e.
Proof. reflexivity. Qed.

Lemma palavra_sem_espaco p c :
  p ∈ PALAVRAS_ENDERECO → c ∈ p → isspace c = false.
Proof.
  unfold PALAVRAS_ENDERECO. rewrite !elem_of_cons, elem_of_nil.
  intros [->|[->|[->|[->|[->|[->|[]]]]]]] Hc; vm_compute in Hc;
    repeat (apply elem_of_cons in Hc as [->|Hc]; [reflexivity|]);
    by apply elem_of_nil in Hc.
Qed.

Lemma tipo_com_palavra t :
  t ∈ TIPOS_COM_PALAVRA →
  existsb (fun p => contains p t) PALAVRAS_ENDERECO = true
  ∧ existsb isdigit t = false.
Proof.
  unfold TIPOS_COM_PALAVRA. rewrite !elem_of_cons, elem_of_nil.
  intros [->|[->|[->|[->|[->|[]]]]]]; by vm_compute.
Qed.

Lemma tipo_sem_palavra t :
  t ∈ TIPOS_SEM_PALAVRA →
  existsb (fun p => contains p t) PALAVRAS_ENDERECO = false
  ∧ existsb isdigit t = false.
Proof.
  unfold TIPOS_SEM_PALAVRA. rewrite !elem_of_cons, elem_of_nil.
  intros [->|[->|[->|[->|[->|[->|[]]]]]]]; by vm_compute.
Qed.

Lemma existsb_palavra_app_l u v :
  existsb (fun p => contains p u) PALAVRAS_ENDERECO = true →
  existsb (fun p => contains p (u ++ v)) PALAVRAS_ENDERECO = true.
Proof.
  rewrite !existsb_exists. intros (p & Hp & Hc). exists p.
  split; [done|]. by apply contains_app_l.
Qed.

Lemma existsb_palavra_app_r u v :
  existsb (fun p => contains p u) PALAVRAS_ENDERECO = false →
  (∀ c, head v = Some c → isspace c = true) →
  existsb (fun p => contains p (u ++ v)) PALAVRAS_ENDERECO
  = existsb (fun p => contains p v) PALAVRAS_ENDERECO.
Proof.
  intros Hu Hv. apply eq_true_iff_eq. rewrite !existsb_exists. split.
  - intros (p & Hp & Hc). exists p. split; [done|].
    apply contains_app_casos in Hc as [Hc|[Hc|(c & Hh & Hin)]]; [|done|].
    + exfalso. rewrite <- not_true_iff_false in Hu. apply Hu.
      apply existsb_exists. by exists p.
    + exfalso. apply (proj2 (list_elem_of_In _ _)) in Hp.
      specialize (Hv c Hh).
      rewrite (palavra_sem_espaco p c Hp Hin) in Hv. discriminate Hv.
  - intros (p & Hp & Hc). exists p. split; [done|]. by apply contains_app_r.
Qed.

Lemma head_lower s c :
  head (lower s) = Some c → ∃ x, head s = Some x ∧ c = lower_char x.
Proof. destruct s as [|x s]; [done|]. intros [= <-]. by exists x. Qed.

Lemma existsb_isdigit_app u v :
  existsb isdigit (u ++ v) = existsb isdigit u || existsb isdigit v.
Proof. apply existsb_app. Qed.

(** The street types of [LOGRADOURO] against the keywords of
    [endereco_valido].  A type of the first group (rua, avenida, av, av.,
    travessa, which contains "av") satisfies the keyword test by itself: the
    address is accepted exactly when it has a digit.  A type of the second
    group (r., tv, tv., alameda, estrada, rodovia) followed by white space
    contributes nothing: the address is accepted exactly when what follows
    the type would be accepted alone.  The two groups are all the types, and
    every match of [LOGRADOURO] is a type followed by white space. *)
Theorem endereco_valido_por_tipo (tipo resto : str) :
  (lower tipo ∈ TIPOS_COM_PALAVRA →
   endereco_valido (tipo ++ resto) = existsb isdigit resto
   ∧ (existsb isdigit (tipo ++ resto) = true →
      endereco_valido (tipo ++ resto) = true))
  ∧ (lower tipo ∈ TIPOS_SEM_PALAVRA →
     (∀ c, head resto = Some c → isspace c = true) →
     endereco_valido (tipo ++ resto) = endereco_valido resto
     ∧ (existsb (fun p => contains p (lower resto)) PALAVRAS_ENDERECO = false →
        endereco_valido (tipo ++ resto) = false))
  ∧ (∀ t, t ∈ TIPOS_LOGRADOURO ↔
          (t ∈ TIPOS_COM_PALAVRA) ∨ (t ∈ TIPOS_SEM_PALAVRA))
  ∧ (∀ text e, e ∈ findall LOGRADOURO text →
       ∃ tipo' resto', e = tipo' ++ resto'
         ∧ (lower tipo' ∈ TIPOS_LOGRADOURO)
         ∧ ∃ c, head resto' = Some c ∧ isspace c = true).
Proof.
  split; [|split; [|split]].
  - intros Ht. apply tipo_com_palavra in Ht as [Hp Hd].
    rewrite existsb_isdigit_lower in Hd.
    assert (E : endereco_valido (tipo ++ resto) = existsb isdigit resto).
    { rewrite endereco_valido_eq, lower_app, existsb_isdigit_app, Hd.
      by rewrite (existsb_palavra_app_l _ _ Hp). }
    split; [exact E|]. rewrite E, existsb_isdigit_app, Hd. done.
  - intros Ht Hr. apply tipo_sem_palavra in Ht as [Hp Hd].
    rewrite existsb_isdigit_lower in Hd.
    assert (E : endereco_valido (tipo ++ resto) = endereco_valido resto).
    { rewrite !endereco_valido_eq, lower_app, existsb_isdigit_app, Hd.
      rewrite (existsb_palavra_app_r _ _ Hp); [done|].
      intros c Hc. apply head_lower in Hc as (x & Hx & ->).
      specialize (Hr x Hx). by rewrite (isspace_lower_char x Hr). }
    split; [exact E|]. intros Hno. by rewrite E, endereco_valido_eq, Hno.
  - intros t. unfold TIPOS_LOGRADOURO, TIPOS_COM_PALAVRA, TIPOS_SEM_PALAVRA.
    rewrite !elem_of_cons, !elem_of_nil. tauto.
  - intros text e He.
    apply findall_LOGRADOURO_forma in He
      as (tipo' & sp & nome & -> & Ht & Hsp & Fsp & _).
    exists tipo', (sp ++ nome). split; [done|]. split; [done|].
    destruct sp as [|c sp]; [done|]. exists c. split; [done|].
    by inversion Fsp.
Qed.

Lemma endereco_valido_por_tipo_witness :
  endereco_valido (lit "Travessa" ++ lit " do Sol 5") = true
  ∧ endereco_valido (lit "Estrada" ++ lit " Velha 123") = false.
Proof.
  split.
  - apply (proj1 (endereco_valido_por_tipo (lit "Travessa") (lit " do Sol 5"))).
    + vm_compute. set_solver.
    + reflexivity.
  - apply (proj1 (proj2 (endereco_valido_por_tipo (lit "Estrada")
                           (lit " Velha 123")))).
    + vm_compute. set_solver.
    + intros c [= <-]. reflexivity.
    + reflexivity.
Defined.

Example endereco_de_outro_tipo :
  findall LOGRADOURO (lit "R. Augusta 100") = [lit "R. Augusta 100"]
  ∧ endereco_valido (lit "R. Augusta 100") = false
  ∧ findall LOGRADOURO (lit "Estrada Velha 123") = [lit "Estrada Velha 123"]
  ∧ endereco_valido (lit "Estrada Velha 123") = false
  ∧ endereco_valido (lit "Alameda Santos 1000") = false
  ∧ endereco_valido (lit "Estrada do Lote 12") = true.
Proof. repeat split; reflexivity. Qed.

(** ** The national ID in its context *)

Lemma match_here_CPF_antes prev rest n g :
  match_here CPF prev rest = Some (n, g) → word_at prev = false.
Proof.
  intros Hm. apply match_here_sound in Hm as (st' & Hm & _).
  unfold CPF, cat, digits in Hm. cbn [foldr matches] in Hm.
  destruct Hm as (st1 & [Hb ->] & st2 & H1 & _).
  apply digitos_inicio in H1 as (a & r1 & Hr & Ha).
  cbn [m_prev m_rest] in Hb, Hr. subst rest.
  unfold at_boundary in Hb. cbn [head word_at] in Hb.
  rewrite (re_digit_word a Ha) in Hb. by destruct (word_at prev).
Qed.

Lemma findall_CPF_contexto text c :
  c ∈ findall CPF text →
  ∃ pre post, text = pre ++ c ++ post ∧ forma_cpf c post
    ∧ word_at (last pre) = false.
Proof.
  intros Hc. apply findall_contexto in Hc as (pre & post & n & g & Ht & Hm & Hn);
    [|done].
  exists pre, post. split; [done|].
  pose proof (match_here_CPF_antes _ _ _ _ Hm) as Hantes.
  apply match_here_CPF_forma in Hm as (w & rest & Hw & Hlen & Hf).
  assert (Hcw : c = w ∧ post = rest).
  { apply app_inj_1; [lia|done]. }
  destruct Hcw as [-> ->]. done.
Qed.

Section ContextoDoCpf.

Variable ner : str → list (str * str).

Lemma cpf_da_lista_contexto text c :
  c ∈ pii_get (detect_pii ner text) (lit "cpf") →
  ∃ pre post, normalize text = pre ++ c ++ post
    ∧ word_at (last pre) = false ∧ word_at (head post) = false.
Proof.
  intros Hc. apply cpf_detect_pii in Hc as [Hc _].
  apply findall_CPF_contexto in Hc as (pre & post & Ht & Hf & Hp).
  exists pre, post. split; [done|]. split; [done|].
  by destruct Hf as (? & ? & ? & ? & ? & ? & ? & _ & _ & _ & _ & _ & _ & _
                       & _ & _ & ?).
Qed.

End ContextoDoCpf.

(** A value of the cpf list is written as three groups of three digits and
    one of two digits, each separator present or not (a match with a single
    final digit is dropped), and stands in the normalised text between
    non-word characters or the ends of the text. *)
Theorem cpf_da_lista_formato (ner : str → list (str * str)) (text c : str) :
  c ∈ pii_get (detect_pii ner text) (lit "cpf") →
  (∃ w1 s1 w2 s2 w3 s3 w4,
     c = w1 ++ s1 ++ w2 ++ s2 ++ w3 ++ s3 ++ w4
     ∧ digitos 3 w1 ∧ sinal "." s1 ∧ digitos 3 w2 ∧ sinal "." s2
     ∧ digitos 3 w3 ∧ sinal "-" s3 ∧ digitos 2 w4)
  ∧ (11 ≤ length c ≤ 14)
  ∧ ∃ pre post, normalize text = pre ++ c ++ post
      ∧ word_at (last pre) = false ∧ word_at (head post) = false.
Proof.
  intros Hc. pose proof (cpf_da_lista ner text c Hc) as H.
  split; [exact H|]. split; [|by apply (cpf_da_lista_contexto ner)].
  destruct H as (w1 & s1 & w2 & s2 & w3 & s3 & w4
    & -> & [L1 _] & Hs1 & [L2 _] & Hs2 & [L3 _] & Hs3 & [L4 _]).
  rewrite !length_app.
  destruct Hs1 as [-> | ->], Hs2 as [-> | ->], Hs3 as [-> | ->]; simpl; lia.
Qed.

Lemma cpf_da_lista_formato_witness :
  (∃ w1 s1 w2 s2 w3 s3 w4,
     lit "123.456789-09" = w1 ++ s1 ++ w2 ++ s2 ++ w3 ++ s3 ++ w4
     ∧ digitos 3 w1 ∧ sinal "." s1 ∧ digitos 3 w2 ∧ sinal "." s2
     ∧ digitos 3 w3 ∧ sinal "-" s3 ∧ digitos 2 w4)
  ∧ (11 ≤ length (lit "123.456789-09") ≤ 14)
  ∧ ∃ pre post,
      normalize (lit "cpf 123.456789-09 e 123.456.789-0")
      = pre ++ lit "123.456789-09" ++ post
      ∧ word_at (last pre) = false ∧ word_at (head post) = false.
Proof.
  apply (cpf_da_lista_formato (fun _ => [])
           (lit "cpf 123.456789-09 e 123.456.789-0")).
  vm_compute. by left.
Defined.
